(** * AppLife: the lifecycle core of [src/index.ts]

    A shallow embedding of the controller registry ([Controller]), the
    dependency resolver ([registerController]), the lookup utility
    ([Dependency]), the lifecycle entry point ([AppLife.Start]), the
    [Module] decorator and [AppLife.LoadModules], followed by the properties
    of the specification that can be decided on it and by further properties
    of the code.

    Modelling conventions.
    - The module-level constants of [index.ts] ([controllerRegistry],
      [controllerInstances], [loadOrderMap], [registeringControllers],
      [started]) are the fields of one [State] record that every operation
      threads through.  [controllerRegistry] is a JavaScript [Map], whose
      iteration order is insertion order: it is an association list.  The two
      other maps are [gmap]s and the in-flight set is a [gset].
    - A class is identified by its name.  The metadata that the decorators and
      the TypeScript compiler attach to a class (constructor parameter types,
      the [onInit] and [onStart] keys) and the behaviour of the user's
      constructor and hooks form the class table [classes], a parameter of the
      whole development.  User code may read the state (it may call
      [Dependency]) but does not write the registries, and it either returns
      or throws.
    - Load-order hints are integers.
    - [moduleRegistry] is touched by [Module] and [LoadModules] only; it is
      passed to them as an argument and is not a field of [State].  The
      decorator [Module] is called [ModuleDecorator] here.
    - What the core does to the outside world (console output, calls of user
      constructors and hooks) and each [controllerInstances.set] is appended,
      in order, to the [history] field.
    - [Start] and [registerController] are [async].  They are embedded
      twice.  [Start] and [registerController] run a call to its end with
      nothing in between: there [await] is sequential composition.
      [callStart], [callRegisterController] and [resume] cut a call at its
      [await]s, and [async_step] lets calls of [Start] overlap: anything
      may be called, and any suspended call may go on, at every [await].
      The first is one of the ways of the second.  What an init or start
      hook ends as is known when it is called; a hook that throws at once
      is treated like one whose promise rejects.
    - Recursion of [registerController] is bounded by a fuel argument;
      [Start] supplies enough of it ([Start_total]), and more changes
      nothing ([StartWith_more]).

    Layout: the embedding; a big-step reading of [registerController]; the
    vocabulary of the properties; the lemmas; the claims; further
    properties; concrete runs. *)

From Stdlib Require Import ZArith String List.
From stdpp Require Import gmap strings list fin_maps sorting.

Open Scope string_scope.
Open Scope list_scope.
Set Warnings "-clear-no-such-hyp".

(** ** Data model *)

(** A controller class, used as a map key in the source. *)
Definition Ident := string.

(** Values that can be thrown: [AppLifeError message], which stands for
    [new Error(`[AppLife]: ${message}`)], the [TypeError] of the engine, and
    whatever user code throws. *)
Inductive Error :=
| AppLifeError (message : string)
| TypeError
| UserError (what : string).

(** The argument of the [Controller] decorator: [{ loadOrder?: number }]. *)
Record ControllerOptions := { loadOrder : option Z }.

(** The first argument of [DebugLog]: ["warn"], ["log"] or ["error"]. *)
Inductive LogType := LWarn | LLog | LError.

Section AppLife.

(** Controller instances are opaque objects. *)
Variable Instance : Type.

(** An argument of a console call; [ArgInstance None] is [undefined]. *)
Inductive LogArg :=
| ArgText (text : string)
| ArgError (error : Error)
| ArgInstance (instance : option Instance).

(** What the core does, as the history records it: a console call; a
    constructor call with its arguments and what it returned or threw; a
    call of an init or start hook and what it threw, if anything; and
    [controllerInstances.set]. *)
Inductive Event :=
| EvConsole (type : LogType) (args : list LogArg)
| EvNew (ControllerClass : Ident) (dependencies : list Instance)
        (outcome : Error + Instance)
| EvOnInit (ControllerClass : Ident) (outcome : option Error)
| EvOnStart (ControllerClass : Ident) (outcome : option Error)
| EvSet (ControllerClass : Ident).

(** The module-level state of [index.ts], and the history. *)
Record State := {
  controllerRegistry : list (Ident * ControllerOptions);
  controllerInstances : gmap Ident Instance;
  loadOrderMap : gmap Ident Z;
  registeringControllers : gset Ident;
  started : bool;
  history : list Event
}.

(** The state of a freshly loaded module. *)
Definition initial : State :=
  {| controllerRegistry := [];
     controllerInstances := ∅;
     loadOrderMap := ∅;
     registeringControllers := ∅;
     started := false;
     history := [] |}.

(** What is known about a class: ["design:paramtypes"], the constructor, and
    the methods named by the [onInit] / [onStart] metadata, if any. *)
Record ClassInfo := {
  paramtypes : list Ident;
  construct : State -> list Instance -> Error + Instance;
  onInit : option (State -> Instance -> option Error);
  onStart : option (State -> Instance -> option Error)
}.

Variable classes : Ident -> ClassInfo.

(** ** The monad of the core: state, exceptions, fuel *)

(** How a call ends: it returns a value or throws. *)
Inductive Completion (A : Type) :=
| Return (a : A)
| Throw (error : Error).
Arguments Return {A} a.
Arguments Throw {A} error.

(** [None] is reserved for a recursion that ran out of fuel. *)
Definition M (A : Type) : Type := State -> option (Completion A * State).

Definition ret {A} (a : A) : M A := fun s => Some (Return a, s).
Definition throw {A} (error : Error) : M A := fun s => Some (Throw error, s).
Definition outOfFuel {A} : M A := fun _ => None.

Definition bind {A B} (m : M A) (k : A -> M B) : M B := fun s =>
  match m s with
  | None => None
  | Some (Throw error, s') => Some (Throw error, s')
  | Some (Return a, s') => k a s'
  end.

(** [try m catch (error) { h error }] *)
Definition tryCatch {A} (m : M A) (h : Error -> M A) : M A := fun s =>
  match m s with
  | Some (Throw error, s') => h error s'
  | other => other
  end.

Definition gets {A} (f : State -> A) : M A := fun s => Some (Return (f s), s).
Definition modify (f : State -> State) : M unit := fun s => Some (Return tt, f s).

Notation "x <- m ;; k" := (bind m (fun x => k))
  (at level 100, m at next level, right associativity).
Notation "m ;;; k" := (bind m (fun _ => k))
  (at level 100, right associativity).

(** Field updates. *)
Definition record (e : Event) (s : State) : State :=
  {| controllerRegistry := controllerRegistry s;
     controllerInstances := controllerInstances s;
     loadOrderMap := loadOrderMap s;
     registeringControllers := registeringControllers s;
     started := started s;
     history := history s ++ [e] |}.

Definition withRegistry (r : list (Ident * ControllerOptions)) (s : State) : State :=
  {| controllerRegistry := r;
     controllerInstances := controllerInstances s;
     loadOrderMap := loadOrderMap s;
     registeringControllers := registeringControllers s;
     started := started s;
     history := history s |}.

Definition withInstances (i : gmap Ident Instance) (s : State) : State :=
  {| controllerRegistry := controllerRegistry s;
     controllerInstances := i;
     loadOrderMap := loadOrderMap s;
     registeringControllers := registeringControllers s;
     started := started s;
     history := history s |}.

Definition withLoadOrderMap (l : gmap Ident Z) (s : State) : State :=
  {| controllerRegistry := controllerRegistry s;
     controllerInstances := controllerInstances s;
     loadOrderMap := l;
     registeringControllers := registeringControllers s;
     started := started s;
     history := history s |}.

Definition withRegistering (r : gset Ident) (s : State) : State :=
  {| controllerRegistry := controllerRegistry s;
     controllerInstances := controllerInstances s;
     loadOrderMap := loadOrderMap s;
     registeringControllers := r;
     started := started s;
     history := history s |}.

Definition withStarted (b : bool) (s : State) : State :=
  {| controllerRegistry := controllerRegistry s;
     controllerInstances := controllerInstances s;
     loadOrderMap := loadOrderMap s;
     registeringControllers := registeringControllers s;
     started := b;
     history := history s |}.

Definition emit (e : Event) : M unit := modify (record e).

(** ** The operations of [index.ts] *)

(** [DebugLog(type, ...args)]: one console call, prefixed. *)
Definition DebugLog (type : LogType) (args : list LogArg) : M unit :=
  emit (EvConsole type (ArgText "[AppLife]: " :: args)).

(** [controllerRegistry.has(target)] *)
Definition registry_has (target : Ident)
    (r : list (Ident * ControllerOptions)) : bool :=
  bool_decide (target ∈ map fst r).

(** The messages passed to [AppLifeError]. *)
Definition msgAlreadyRegistered : string := "Controller already registered".
Definition msgCyclic : string := "Cyclic dependency detected".
Definition msgNotStarted : string := "Use Dependency after AppLife.Start()".
Definition msgNotLoaded : string := "Controller not registered or not loaded yet".
Definition msgDependency (dep : Ident) : string :=
  "Dependency " +:+ dep +:+ " not registered via @Controller".

(** The [Controller(options)] decorator applied to [target]. *)
Definition Controller (options : ControllerOptions) (target : Ident) : M unit :=
  registry <- gets controllerRegistry ;;
  if registry_has target registry
  then throw (AppLifeError msgAlreadyRegistered)
  else
    modify (withRegistry (registry ++ [(target, options)])) ;;;
    lom <- gets loadOrderMap ;;
    modify (withLoadOrderMap (<[target := default 0%Z (loadOrder options)]> lom)).

(** [getOnInitMethod(C.prototype)] and [getOnStartMethod(C.prototype)]: the
    method registered by the [OnInit] / [OnStart] decorator, if any. *)
Abbreviation getOnInitMethod C := (onInit (classes C)) (only parsing).
Abbreviation getOnStartMethod C := (onStart (classes C)) (only parsing).

(** [new ControllerClass(...dependencies)]: user code. *)
Definition callNew (ControllerClass : Ident) (dependencies : list Instance)
    : M Instance :=
  fun s =>
    let outcome := construct (classes ControllerClass) s dependencies in
    let k : M Instance :=
      match outcome with
      | inl error => throw error
      | inr instance => ret instance
      end in
    (emit (EvNew ControllerClass dependencies outcome) ;;; k) s.

(** [instance[onInitMethod]()]: user code. *)
Definition callOnInit (ControllerClass : Ident)
    (hook : State -> Instance -> option Error) (instance : Instance) : M unit :=
  fun s =>
    let outcome := hook s instance in
    let k : M unit :=
      match outcome with
      | Some error => throw error
      | None => ret tt
      end in
    (emit (EvOnInit ControllerClass outcome) ;;; k) s.

(** The [for (const dep of paramTypes)] loop of [registerController];
    [rec] is the recursive call. *)
Fixpoint resolveDependencies (rec : Ident -> M Instance)
    (paramTypes : list Ident) (dependencies : list Instance) : M (list Instance) :=
  match paramTypes with
  | [] => ret dependencies
  | dep :: rest =>
      registry <- gets controllerRegistry ;;
      if registry_has dep registry
      then
        depInstance <- rec dep ;;
        resolveDependencies rec rest (dependencies ++ [depInstance])
      else throw (AppLifeError (msgDependency dep))
  end.

(** [registerController(ControllerClass)]; [fuel] bounds the nesting of the
    recursive calls. *)
Fixpoint registerController (fuel : nat) (ControllerClass : Ident) : M Instance :=
  match fuel with
  | O => outOfFuel
  | S fuel' =>
      instances <- gets controllerInstances ;;
      match instances !! ControllerClass with
      | Some instance => ret instance
      | None =>
          registering <- gets registeringControllers ;;
          if bool_decide (ControllerClass ∈ registering)
          then throw (AppLifeError msgCyclic)
          else
            modify (withRegistering ({[ControllerClass]} ∪ registering)) ;;;
            dependencies <-
              resolveDependencies (registerController fuel')
                (paramtypes (classes ControllerClass)) [] ;;
            instance <-
              tryCatch (callNew ControllerClass dependencies)
                (fun error =>
                   DebugLog LError [ArgText "Error in constructor:"; ArgError error] ;;;
                   throw error) ;;
            match getOnInitMethod ControllerClass with
            | Some onInitMethod =>
                tryCatch (callOnInit ControllerClass onInitMethod instance)
                  (fun error =>
                     DebugLog LError [ArgText "Error in OnInit:"; ArgError error] ;;;
                     throw error)
            | None => ret tt
            end ;;;
            instances' <- gets controllerInstances ;;
            modify (withInstances (<[ControllerClass := instance]> instances')) ;;;
            emit (EvSet ControllerClass) ;;;
            registering' <- gets registeringControllers ;;
            modify (withRegistering (registering' ∖ {[ControllerClass]})) ;;;
            ret instance
      end
  end.

(** [Dependency(controllerClass)] *)
Definition Dependency (controllerClass : Ident) : M Instance :=
  isStarted <- gets started ;;
  if negb isStarted
  then throw (AppLifeError msgNotStarted)
  else
    instances <- gets controllerInstances ;;
    match instances !! controllerClass with
    | None => throw (AppLifeError msgNotLoaded)
    | Some instance => ret instance
    end.

(** [Array.prototype.sort] is a stable sort; with a comparator that
    subtracts integer keys it orders by ascending key. *)
Section Sort.
Context {A : Type} (key : A -> Z).

(** [x], which came before every element of the sorted [l], goes in front
    of the first element whose key is not smaller. *)
Fixpoint insertSorted (x : A) (l : list A) : list A :=
  match l with
  | [] => [x]
  | y :: l' => if (key x <=? key y)%Z then x :: l else y :: insertSorted x l'
  end.

(** [l.sort((a, b) => key(a) - key(b))] *)
Fixpoint sortBy (l : list A) : list A :=
  match l with
  | [] => []
  | x :: l' => insertSorted x (sortBy l')
  end.

(** The order the sort establishes. *)
Definition ascending : relation A := fun a b => (key a <= key b)%Z.

End Sort.

(** The comparator key of [Start]: [loadOrderMap.get(a[0]) ?? 0]. *)
Definition loadOrderOf (s : State) (ControllerClass : Ident) : Z :=
  default 0%Z (loadOrderMap s !! ControllerClass).

(** [Array.from(controllerRegistry.entries()).sort(...).map(([c]) => c)] *)
Definition sortedControllers (s : State) : list Ident :=
  map fst (sortBy (fun a => loadOrderOf s (fst a)) (controllerRegistry s)).

(** [for (const ControllerClass of sortedControllers) await registerController(...)] *)
Fixpoint registerAll (fuel : nat) (sorted : list Ident) : M unit :=
  match sorted with
  | [] => ret tt
  | ControllerClass :: rest =>
      registerController fuel ControllerClass ;;;
      registerAll fuel rest
  end.

(** A start promise, once its executor has run: the outcome of the hook and
    the instance it was called on. *)
Definition StartPromise : Type := (option Error * option Instance)%type.

(** The executor [res(instance[onStartMethod]())]: user code, or the
    [TypeError] of reading a property of [undefined]. *)
Definition callOnStart (ControllerClass : Ident)
    (hook : State -> Instance -> option Error) (instance : option Instance)
    : M StartPromise :=
  fun s =>
    match instance with
    | Some i =>
        let outcome := hook s i in
        (emit (EvOnStart ControllerClass outcome) ;;; ret (outcome, instance)) s
    | None => ret (Some TypeError, instance) s
    end.

(** The second loop of [Start]: every hook is called, none is awaited. *)
Fixpoint collectStartPromises (sorted : list Ident)
    (startPromises : list StartPromise) : M (list StartPromise) :=
  match sorted with
  | [] => ret startPromises
  | ControllerClass :: rest =>
      instances <- gets controllerInstances ;;
      let instance := instances !! ControllerClass in
      match getOnStartMethod ControllerClass with
      | Some onStartMethod =>
          promise <- callOnStart ControllerClass onStartMethod instance ;;
          collectStartPromises rest (startPromises ++ [promise])
      | None => collectStartPromises rest startPromises
      end
  end.

(** [await Promise.all(startPromises)]: the [catch] handler of each rejected
    promise logs a warning; no promise of the list rejects. *)
Fixpoint awaitAll (startPromises : list StartPromise) : M unit :=
  match startPromises with
  | [] => ret tt
  | (Some error, instance) :: rest =>
      DebugLog LWarn
        [ArgText "Error in OnStart:"; ArgError error; ArgInstance instance] ;;;
      awaitAll rest
  | (None, _) :: rest => awaitAll rest
  end.

(** [AppLife.Start()] with an explicit recursion bound. *)
Definition StartWith (fuel : nat) : M unit :=
  modify (withStarted true) ;;;
  registry <- gets controllerRegistry ;;
  (if (length registry =? 0)%nat
   then DebugLog LWarn [ArgText "No controllers registered"]
   else ret tt) ;;;
  sorted <- gets sortedControllers ;;
  registerAll fuel sorted ;;;
  startPromises <- collectStartPromises sorted [] ;;
  awaitAll startPromises.

(** [AppLife.Start()]: the nesting of [registerController] calls never
    exceeds the number of registered controllers. *)
Definition Start : M unit := fun s =>
  StartWith (S (length (controllerRegistry s))) s.

(** *** Modules *)

(** [moduleRegistry] is a module-level [Map] of its own; only [Module]
    writes it and only [LoadModules] reads it. *)
Definition msgModuleAlreadyRegistered : string := "Module already registered".
Definition msgModule (module : Ident) : string :=
  "Module " +:+ module +:+ " not registered via @Module".
Definition msgController (controller : Ident) : string :=
  "Controller " +:+ controller +:+ " not registered via @Controller".

(** The [Module(controllers)] decorator applied to [target]. *)
Definition ModuleDecorator (controllers : list Ident) (target : Ident)
    (moduleRegistry : gmap Ident (list Ident))
    : Completion unit * gmap Ident (list Ident) :=
  match moduleRegistry !! target with
  | Some _ => (Throw (AppLifeError msgModuleAlreadyRegistered), moduleRegistry)
  | None => (Return tt, <[target := controllers]> moduleRegistry)
  end.

(** The inner loop of [LoadModules]:
    [for (const controller of controllers)]. *)
Fixpoint verifyControllers (controllers : list Ident) : M unit :=
  match controllers with
  | [] => ret tt
  | controller :: rest =>
      registry <- gets controllerRegistry ;;
      if registry_has controller registry
      then verifyControllers rest
      else throw (AppLifeError (msgController controller))
  end.

(** [AppLife.LoadModules(modules)] *)
Fixpoint LoadModules (moduleRegistry : gmap Ident (list Ident))
    (modules : list Ident) : M unit :=
  match modules with
  | [] => ret tt
  | module :: rest =>
      match moduleRegistry !! module with
      | None => throw (AppLifeError (msgModule module))
      | Some controllers =>
          verifyControllers controllers ;;;
          LoadModules moduleRegistry rest
      end
  end.

(** ** Big-step reading of [registerController]

    One constructor per way through the function; the proofs below go by
    induction on this relation, which [registerController] refines. *)

(** [registeringControllers.add(ControllerClass)] *)
Definition begin (ControllerClass : Ident) (s : State) : State :=
  withRegistering ({[ControllerClass]} ∪ registeringControllers s) s.

(** [controllerInstances.set(...)] then [registeringControllers.delete(...)] *)
Definition finish (ControllerClass : Ident) (instance : Instance) (s : State)
    : State :=
  let s' :=
    record (EvSet ControllerClass)
      (withInstances (<[ControllerClass := instance]> (controllerInstances s)) s) in
  withRegistering (registeringControllers s' ∖ {[ControllerClass]}) s'.

Definition consoleError (text : string) (error : Error) (s : State) : State :=
  record (EvConsole LError [ArgText "[AppLife]: "; ArgText text; ArgError error]) s.

(** The [OnInit] step when it does not throw. *)
Definition initialized (ControllerClass : Ident) (instance : Instance)
    (s s' : State) : Prop :=
  match onInit (classes ControllerClass) with
  | Some hook =>
      hook s instance = None /\ s' = record (EvOnInit ControllerClass None) s
  | None => s' = s
  end.

Inductive Registers : Ident -> State -> Completion Instance -> State -> Prop :=
| Registers_cached C s i :
    controllerInstances s !! C = Some i ->
    Registers C s (Return i) s
| Registers_cyclic C s :
    controllerInstances s !! C = None ->
    C ∈ registeringControllers s ->
    Registers C s (Throw (AppLifeError msgCyclic)) s
| Registers_dependency_failed C s error s2 :
    controllerInstances s !! C = None ->
    C ∉ registeringControllers s ->
    Resolves (paramtypes (classes C)) [] (begin C s) (Throw error) s2 ->
    Registers C s (Throw error) s2
| Registers_constructor_failed C s deps s2 error :
    controllerInstances s !! C = None ->
    C ∉ registeringControllers s ->
    Resolves (paramtypes (classes C)) [] (begin C s) (Return deps) s2 ->
    construct (classes C) s2 deps = inl error ->
    Registers C s (Throw error)
      (consoleError "Error in constructor:" error
         (record (EvNew C deps (inl error)) s2))
| Registers_init_failed C s deps s2 i hook error :
    controllerInstances s !! C = None ->
    C ∉ registeringControllers s ->
    Resolves (paramtypes (classes C)) [] (begin C s) (Return deps) s2 ->
    construct (classes C) s2 deps = inr i ->
    onInit (classes C) = Some hook ->
    hook (record (EvNew C deps (inr i)) s2) i = Some error ->
    Registers C s (Throw error)
      (consoleError "Error in OnInit:" error
         (record (EvOnInit C (Some error)) (record (EvNew C deps (inr i)) s2)))
| Registers_done C s deps s2 i s3 :
    controllerInstances s !! C = None ->
    C ∉ registeringControllers s ->
    Resolves (paramtypes (classes C)) [] (begin C s) (Return deps) s2 ->
    construct (classes C) s2 deps = inr i ->
    initialized C i (record (EvNew C deps (inr i)) s2) s3 ->
    Registers C s (Return i) (finish C i s3)

with Resolves : list Ident -> list Instance -> State ->
                Completion (list Instance) -> State -> Prop :=
| Resolves_nil acc s :
    Resolves [] acc s (Return acc) s
| Resolves_unknown dep rest acc s :
    registry_has dep (controllerRegistry s) = false ->
    Resolves (dep :: rest) acc s (Throw (AppLifeError (msgDependency dep))) s
| Resolves_failed dep rest acc s error s1 :
    registry_has dep (controllerRegistry s) = true ->
    Registers dep s (Throw error) s1 ->
    Resolves (dep :: rest) acc s (Throw error) s1
| Resolves_next dep rest acc s i s1 r s2 :
    registry_has dep (controllerRegistry s) = true ->
    Registers dep s (Return i) s1 ->
    Resolves rest (acc ++ [i]) s1 r s2 ->
    Resolves (dep :: rest) acc s r s2.

Scheme Registers_mut := Minimality for Registers Sort Prop
  with Resolves_mut := Minimality for Resolves Sort Prop.
Combined Scheme Registers_Resolves_ind from Registers_mut, Resolves_mut.

(** ** Calls that overlap

    [registerController] and [Start] are [async]: a call runs until its
    first [await] and hands control back; what comes after the [await] runs
    later, and other calls may run in between.  [registerController] and
    [Start] above run a call to its end with nothing in between.  Here a
    call is cut at its [await]s (lines 105, 122, 180 and 199), and a
    suspended chain of calls is a value of its own, a [Task].
    [registerController] is not exported: every chain starts in [Start]. *)

(** A call of [registerController] suspended at line 105,
    [await registerController(dep)]: its class, the parameter types that
    come after [dep], and the [dependencies] array so far. *)
Record Frame := {
  frameClass : Ident;
  frameRest : list Ident;
  frameDeps : list Instance
}.

(** A call of [Start] and the calls it is waiting for, suspended at an
    [await].  [rest] is what the first loop of [Start] has still to visit,
    [stack] the suspended calls of [registerController] from the innermost
    outwards. *)
Inductive Task :=
| AtAwait (ControllerClass : Ident) (r : Completion Instance)
          (stack : list Frame) (rest sorted : list Ident)
    (** [registerController(ControllerClass)] has settled with [r]; its
        caller (line 105, or line 180 when [stack] is empty) has not
        resumed yet *)
| AtInit (ControllerClass : Ident) (instance : Instance)
         (outcome : option Error) (stack : list Frame)
         (rest sorted : list Ident)
    (** line 122: the init hook was called and ended as [outcome] *)
| AtAll (startPromises : list StartPromise)
    (** line 199: the start hooks were called; the [catch] handlers of
        [startPromises] have still to run *)
| Over (r : Completion unit).
    (** the promise of [Start] has settled *)

(** Lines 108 to 131, up to the [await] of line 122 or, without an init
    hook, to the end. *)
Definition instantiate (ControllerClass : Ident) (dependencies : list Instance)
    (stack : list Frame) (rest sorted : list Ident) (s : State)
    : Task * State :=
  match construct (classes ControllerClass) s dependencies with
  | inl error =>
      (AtAwait ControllerClass (Throw error) stack rest sorted,
       consoleError "Error in constructor:" error
         (record (EvNew ControllerClass dependencies (inl error)) s))
  | inr instance =>
      let s1 := record (EvNew ControllerClass dependencies (inr instance)) s in
      match getOnInitMethod ControllerClass with
      | Some onInitMethod =>
          let outcome := onInitMethod s1 instance in
          (AtInit ControllerClass instance outcome stack rest sorted,
           record (EvOnInit ControllerClass outcome) s1)
      | None =>
          (AtAwait ControllerClass (Return instance) stack rest sorted,
           finish ControllerClass instance s1)
      end
  end.

(** The loop of lines 98 to 106 from [paramTypes] on, up to the first
    [await]; [rec] is the call [registerController(dep)]. *)
Definition resolveNext
    (rec : Ident -> list Frame -> list Ident -> list Ident -> State ->
           option (Task * State))
    (ControllerClass : Ident) (paramTypes : list Ident)
    (dependencies : list Instance)
    (stack : list Frame) (rest sorted : list Ident) (s : State)
    : option (Task * State) :=
  match paramTypes with
  | [] => Some (instantiate ControllerClass dependencies stack rest sorted s)
  | dep :: paramTypes' =>
      if registry_has dep (controllerRegistry s)
      then
        rec dep
          ({| frameClass := ControllerClass;
              frameRest := paramTypes';
              frameDeps := dependencies |} :: stack)
          rest sorted s
      else
        Some (AtAwait ControllerClass (Throw (AppLifeError (msgDependency dep)))
                stack rest sorted, s)
  end.

(** A call [registerController(ControllerClass)] made while [stack] is
    suspended, up to the first [await]; [fuel] bounds the nesting. *)
Fixpoint callRegisterController (fuel : nat) (ControllerClass : Ident)
    (stack : list Frame) (rest sorted : list Ident) (s : State)
    : option (Task * State) :=
  match fuel with
  | O => None
  | S fuel' =>
      match controllerInstances s !! ControllerClass with
      | Some instance =>
          Some (AtAwait ControllerClass (Return instance) stack rest sorted, s)
      | None =>
          if bool_decide (ControllerClass ∈ registeringControllers s)
          then
            Some (AtAwait ControllerClass (Throw (AppLifeError msgCyclic))
                    stack rest sorted, s)
          else
            resolveNext (callRegisterController fuel') ControllerClass
              (paramtypes (classes ControllerClass)) [] stack rest sorted
              (begin ControllerClass s)
      end
  end.

(** The first loop of [Start] from [rest] on and, when it is through, the
    second loop, up to the next [await]. *)
Definition startNext (fuel : nat) (rest sorted : list Ident) (s : State)
    : option (Task * State) :=
  match rest with
  | ControllerClass :: rest' =>
      callRegisterController fuel ControllerClass [] rest' sorted s
  | [] =>
      match collectStartPromises sorted [] s with
      | Some (Return startPromises, s') => Some (AtAll startPromises, s')
      | Some (Throw error, s') => Some (Over (Throw error), s')
      | None => None
      end
  end.

(** A call [Start()], up to its first [await]. *)
Definition callStart (fuel : nat) (s : State) : option (Task * State) :=
  let s0 := withStarted true s in
  let s1 :=
    if (length (controllerRegistry s0) =? 0)%nat
    then record (EvConsole LWarn
                   [ArgText "[AppLife]: "; ArgText "No controllers registered"])
           s0
    else s0 in
  startNext fuel (sortedControllers s1) (sortedControllers s1) s1.

(** A suspended task goes on, up to its next [await].  A settled [Start]
    has nothing left to do. *)
Definition resume (fuel : nat) (t : Task) (s : State) : option (Task * State) :=
  match t with
  | AtAwait _ (Return depInstance) (frame :: stack) rest sorted =>
      resolveNext (callRegisterController fuel) (frameClass frame)
        (frameRest frame) (frameDeps frame ++ [depInstance]) stack rest sorted s
  | AtAwait _ (Throw error) (frame :: stack) rest sorted =>
      Some (AtAwait (frameClass frame) (Throw error) stack rest sorted, s)
  | AtAwait _ (Return _) [] rest sorted => startNext fuel rest sorted s
  | AtAwait _ (Throw error) [] _ _ => Some (Over (Throw error), s)
  | AtInit ControllerClass instance (Some error) stack rest sorted =>
      Some (AtAwait ControllerClass (Throw error) stack rest sorted,
            consoleError "Error in OnInit:" error s)
  | AtInit ControllerClass instance None stack rest sorted =>
      Some (AtAwait ControllerClass (Return instance) stack rest sorted,
            finish ControllerClass instance s)
  | AtAll [] => Some (Over (Return tt), s)
  | AtAll ((Some error, instance) :: startPromises) =>
      Some (AtAll startPromises,
            record (EvConsole LWarn
                      [ArgText "[AppLife]: "; ArgText "Error in OnStart:";
                       ArgError error; ArgInstance instance]) s)
  | AtAll ((None, _) :: startPromises) => Some (AtAll startPromises, s)
  | Over _ => None
  end.

(** ** Vocabulary of the properties *)

(** *** States *)

(** The identities in the Declaration Registry. *)
Definition declared (s : State) : gset Ident :=
  list_to_set (map fst (controllerRegistry s)).

(** Declared controllers that are neither stored nor in flight. *)
Definition pending (s : State) : gset Ident :=
  declared s ∖ (registeringControllers s ∪ dom (controllerInstances s)).

(** [A] is in flight and not stored. *)
Definition stuck (A : Ident) (s : State) : Prop :=
  A ∈ registeringControllers s /\ controllerInstances s !! A = None.

(** The declarations and the [started] flag are the same in both states. *)
Definition same_declarations (s s' : State) : Prop :=
  controllerRegistry s' = controllerRegistry s /\
  loadOrderMap s' = loadOrderMap s /\
  started s' = started s.

(** Only the history differs. *)
Definition same_tables (s s' : State) : Prop :=
  controllerRegistry s' = controllerRegistry s /\
  controllerInstances s' = controllerInstances s /\
  loadOrderMap s' = loadOrderMap s /\
  registeringControllers s' = registeringControllers s /\
  started s' = started s.

(** Entries of the Instance Table are never removed nor replaced. *)
Definition instances_kept (s s' : State) : Prop :=
  forall X i, controllerInstances s !! X = Some i ->
              controllerInstances s' !! X = Some i.

(** The state in which the construct/init phase begins. *)
Definition announce (s : State) : State :=
  if (length (controllerRegistry s) =? 0)%nat
  then record
         (EvConsole LWarn
            [ArgText "[AppLife]: "; ArgText "No controllers registered"])
         (withStarted true s)
  else withStarted true s.

(** *** The dependency graph *)

(** [A] declares [B] as a constructor parameter. *)
Definition depends (A B : Ident) : Prop := B ∈ paramtypes (classes A).

(** [A] lies on a dependency cycle. *)
Definition on_cycle (A : Ident) : Prop := tc depends A A.

(** A class all of whose transitive dependencies bottom out. *)
Inductive grounded : Ident -> Prop :=
| grounded_intro C :
    (forall B, B ∈ paramtypes (classes C) -> grounded B) -> grounded C.

(** Every dependency of a declared controller is declared. *)
Definition closed (s : State) : Prop :=
  forall C B, C ∈ declared s -> depends C B -> B ∈ declared s.

(** No user constructor and no init hook ever throws. *)
Definition healthy : Prop :=
  (forall C s deps, exists i, construct (classes C) s deps = inr i) /\
  (forall C hook s i, onInit (classes C) = Some hook -> hook s i = None).

(** The load-order hint of a registry entry: [options.loadOrder ?? 0]. *)
Definition hint (a : Ident * ControllerOptions) : Z :=
  default 0%Z (loadOrder (snd a)).

(** *** Events *)

(** Events of a construct/init step that went well. *)
Definition quiet (e : Event) : Prop :=
  match e with
  | EvNew _ _ (inr _) | EvOnInit _ None | EvSet _ => True
  | _ => False
  end.

(** Events that neither call a constructor nor store an instance. *)
Definition inert (e : Event) : Prop :=
  match e with
  | EvNew _ _ _ | EvSet _ => False
  | _ => True
  end.

(** The event is a console warning. *)
Definition is_warning (e : Event) : Prop := exists args, e = EvConsole LWarn args.

(** Events of the construct/init phase before anything goes wrong, and the
    warning about an empty registry. *)
Definition calm (e : Event) : Prop := quiet e \/ is_warning e.

(** The event is a call of a start hook. *)
Definition is_start_call (e : Event) : Prop :=
  match e with EvOnStart _ _ => True | _ => False end.

(** The console line of the [catch] handler of a start promise. *)
Definition startWarning (error : Error) (instance : option Instance) : Event :=
  EvConsole LWarn
    [ArgText "[AppLife]: "; ArgText "Error in OnStart:"; ArgError error;
     ArgInstance instance].

(** The event is the warning about a failed start hook. *)
Definition is_start_warning (e : Event) : Prop :=
  exists error instance, e = startWarning error instance.

(** A failed constructor or init call of [F], with the error it threw. *)
Definition failed_call (F : Ident) (error : Error) (e : Event) : Prop :=
  (exists deps, e = EvNew F deps (inl error)) \/ e = EvOnInit F (Some error).

(** The event is a constructor call, an init call or a store of [A]. *)
Definition touches (A : Ident) (e : Event) : Prop :=
  match e with
  | EvNew C _ _ | EvOnInit C _ | EvSet C => C = A
  | _ => False
  end.

(** The two ways user code stops the construct/init phase: the failing call,
    then the console line of the [catch] block. *)
Inductive Fatal (error : Error) : list Event -> Prop :=
| Fatal_constructor C deps :
    Fatal error
      [EvNew C deps (inl error);
       EvConsole LError
         [ArgText "[AppLife]: "; ArgText "Error in constructor:"; ArgError error]]
| Fatal_init C :
    Fatal error
      [EvOnInit C (Some error);
       EvConsole LError
         [ArgText "[AppLife]: "; ArgText "Error in OnInit:"; ArgError error]].

(** *** Histories *)

(** The identities stored by a stretch of history. *)
Definition stored (t : list Event) : gset Ident :=
  list_to_set (omap (fun e => match e with EvSet C => Some C | _ => None end) t).

(** The classes whose constructors were called, in order. *)
Definition constructions (t : list Event) : list Ident :=
  omap (fun e => match e with EvNew C _ _ => Some C | _ => None end) t.

(** No event of [t] is a store. *)
Definition stores_nothing (t : list Event) : Prop :=
  Forall (fun e => forall C, e <> EvSet C) t.

(** Every constructor call of [t] finds the declared dependencies of its
    class stored, either beforehand ([known]) or earlier in [t]. *)
Fixpoint timely (known : gset Ident) (t : list Event) : Prop :=
  match t with
  | [] => True
  | e :: t' =>
      match e with
      | EvNew A _ _ => forall B, B ∈ paramtypes (classes A) -> B ∈ known
      | _ => True
      end /\ timely (known ∪ stored [e]) t'
  end.

(** The calls that make an instance of [C]: the constructor and, when the
    class has one, the init hook, both returning. *)
Definition ceremony (C : Ident) (deps : list Instance) (i : Instance)
    : list Event :=
  EvNew C deps (inr i) ::
  match onInit (classes C) with
  | Some _ => [EvOnInit C None]
  | None => []
  end.

(** Every store of [t] comes right after the ceremony of its class. *)
Definition settled (t : list Event) : Prop :=
  forall pre C post,
    t = pre ++ EvSet C :: post ->
    exists pre' deps i, pre = pre' ++ ceremony C deps i.

(** How the history of a construct/init run ends, given its completion. *)
Definition trail {A} (r : Completion A) (t : list Event) : Prop :=
  match r with
  | Return _ => Forall quiet t
  | Throw error =>
      Forall quiet t \/
      exists pre end_, t = pre ++ end_ /\ Forall quiet pre /\ Fatal error end_
  end.

(** [s'] extends the history of [s] by [t]. *)
Definition wrote {A} (s : State) (r : Completion A) (s' : State)
    (t : list Event) : Prop :=
  history s' = history s ++ t /\
  trail r t /\
  dom (controllerInstances s') = dom (controllerInstances s) ∪ stored t /\
  timely (dom (controllerInstances s)) t /\
  settled t.

(** Between [s] and [s'] no constructor or init hook of [A] was called and
    [A] was not stored. *)
Definition untouched (A : Ident) (s s' : State) : Prop :=
  exists t, history s' = history s ++ t /\ Forall (fun e => ~ touches A e) t.

(** The history [t2] of a start phase begun in [s1]: every start hook is
    called, then every failure is reported with the instance concerned. *)
Definition start_phase (s1 : State) (sorted : list Ident) (t2 : list Event)
    : Prop :=
  exists calls warnings,
    t2 = calls ++ warnings /\
    Forall is_start_call calls /\
    Forall is_start_warning warnings /\
    (forall C, C ∈ sorted -> is_Some (onStart (classes C)) ->
               exists outcome, EvOnStart C outcome ∈ calls) /\
    (forall C error, EvOnStart C (Some error) ∈ calls ->
               exists i, controllerInstances s1 !! C = Some i /\
                         startWarning error (Some i) ∈ warnings).

(** What any run of the construct/init phase guarantees. *)
Definition phase {A} (s : State) (r : Completion A) (s' : State) : Prop :=
  same_declarations s s' /\
  instances_kept s s' /\
  (exists t, wrote s r s' t) /\
  (forall X, stuck X s -> stuck X s') /\
  registeringControllers s ⊆ registeringControllers s' /\
  pending s' ⊆ pending s.

(** *** Reachable states and their invariants *)

(** The states the module can be in: the decorators and [Start] are the only
    exported operations that write it. *)
Inductive reachable : State -> Prop :=
| reachable_initial :
    reachable initial
| reachable_Controller s options target r s' :
    reachable s ->
    Controller options target s = Some (r, s') ->
    reachable s'
| reachable_Dependency s controllerClass r s' :
    reachable s ->
    Dependency controllerClass s = Some (r, s') ->
    reachable s'
| reachable_Start s r s' :
    reachable s ->
    Start s = Some (r, s') ->
    reachable s'.

(** A call that runs to its end with nothing in between, of any operation,
    the internal resolver included.  Calls that overlap are the matter of
    [async_step]. *)
Inductive step : State -> State -> Prop :=
| step_Controller options target s r s' :
    Controller options target s = Some (r, s') -> step s s'
| step_Dependency controllerClass s r s' :
    Dependency controllerClass s = Some (r, s') -> step s s'
| step_Start s r s' :
    Start s = Some (r, s') -> step s s'
| step_registerController fuel C s r s' :
    registerController fuel C s = Some (r, s') -> step s s'.

(** The stored controllers are declared, grounded, and have their
    dependencies stored. *)
Definition table_ok (s : State) : Prop :=
  forall C, C ∈ dom (controllerInstances s) ->
    C ∈ declared s /\ grounded C /\
    forall B, depends C B -> B ∈ dom (controllerInstances s).

(** The Instance Table holds what the history stored, constructor calls
    come after the stores of their dependencies, and a store comes right
    after its ceremony. *)
Definition history_ok (s : State) : Prop :=
  dom (controllerInstances s) = stored (history s) /\
  timely ∅ (history s) /\
  settled (history s).

(** The registry as the decorator leaves it: no identity twice, and
    [loadOrderMap] holds the hint of every entry, [0] when there is none. *)
Definition registry_ok (s : State) : Prop :=
  NoDup (map fst (controllerRegistry s)) /\
  forall C options, (C, options) ∈ controllerRegistry s ->
    loadOrderMap s !! C = Some (default 0%Z (loadOrder options)).

(** What holds in every reachable state. *)
Definition invariant (s : State) : Prop :=
  table_ok s /\ history_ok s /\ registry_ok s.

(** *** Further vocabulary *)

(** The module is registered and all its controllers are declared. *)
Definition module_ok (moduleRegistry : gmap Ident (list Ident)) (s : State)
    (module : Ident) : Prop :=
  exists controllers,
    moduleRegistry !! module = Some controllers /\
    forall c, c ∈ controllers -> c ∈ declared s.


(** The identities stored, in order. *)
Definition stores (t : list Event) : list Ident :=
  omap (fun e => match e with EvSet C => Some C | _ => None end) t.

(** No constructor was called twice and no identity stored twice; what was
    constructed is stored or in flight, and what was stored is in the
    Instance Table. *)
Definition once (s : State) : Prop :=
  NoDup (constructions (history s)) /\
  NoDup (stores (history s)) /\
  (forall X, X ∈ constructions (history s) ->
     X ∈ dom (controllerInstances s) \/ X ∈ registeringControllers s) /\
  (forall X, X ∈ stores (history s) -> X ∈ dom (controllerInstances s)).

(** Only declared controllers are ever in flight. *)
Definition inflight_ok (s : State) : Prop :=
  registeringControllers s ⊆ declared s.

(** The classes whose start hooks were called, in order. *)
Definition starts (t : list Event) : list Ident :=
  omap (fun e => match e with EvOnStart C _ => Some C | _ => None end) t.

(** The class has a method marked by [@OnStart()]. *)
Definition hooked (C : Ident) : bool :=
  match getOnStartMethod C with Some _ => true | None => false end.

(** A [console.error] line. *)
Definition is_error_line (e : Event) : Prop :=
  exists args, e = EvConsole LError args.

(** A constructor or init call that threw. *)
Definition user_failure (e : Event) : Prop :=
  exists F error, failed_call F error e.

(** The constructor and the init hook of [C] never throw. *)
Definition reliable (C : Ident) : Prop :=
  (forall s deps, exists i, construct (classes C) s deps = inr i) /\
  (forall hook s i, onInit (classes C) = Some hook -> hook s i = None).

(** Whatever the classes of [l] depend on, directly or not, is declared
    and reliable, and so are they. *)
Definition self_contained (s : State) (l : list Ident) : Prop :=
  forall C X, C ∈ l -> rtc depends C X -> X ∈ declared s /\ reliable X.

(** Whatever the classes of [l] depend on, directly or not, is declared,
    and so are they. *)
Definition all_declared (s : State) (l : list Ident) : Prop :=
  forall C X, C ∈ l -> rtc depends C X -> X ∈ declared s.

(** [C] is on a dependency cycle or depends, directly or not, on a class
    that is. *)
Definition leads_to_cycle (C : Ident) : Prop :=
  exists X, rtc depends C X /\ on_cycle X.

(** The error [registerController] throws for an undeclared dependency of
    a declared controller. *)
Definition undeclared_dependency_error (s : State) (error : Error) : Prop :=
  exists D U,
    D ∈ declared s /\ depends D U /\ (U ∉ declared s) /\
    error = AppLifeError (msgDependency U).

(** A constructor or an init hook threw [error] between [s] and [s']. *)
Definition user_error (s s' : State) (error : Error) : Prop :=
  exists t F e,
    history s' = history s ++ t /\ e ∈ t /\ failed_call F error e.

(** *** Overlapping calls *)

(** The module state and the tasks that were started, in the order of the
    calls of [Start]. *)
Definition Config : Type := State * list Task.

(** The classes whose [registerController] is suspended in a task. *)
Definition suspended (t : Task) : list Ident :=
  match t with
  | AtAwait _ _ stack _ _ => map frameClass stack
  | AtInit C _ _ stack _ _ => C :: map frameClass stack
  | AtAll _ | Over _ => []
  end.

Definition suspended_in (pool : list Task) : list Ident := pool ≫= suspended.

(** One stretch of a task between two [await]s: a call of [Start] up to
    its first [await], or a suspended task up to its next one.  [t] is the
    task as the stretch leaves it. *)
Inductive runs : Config -> Task -> Config -> Prop :=
| runs_Start fuel s pool t s' :
    callStart fuel s = Some (t, s') ->
    runs (s, pool) t (s', pool ++ [t])
| runs_resume fuel s pool1 t0 pool2 t s' :
    resume fuel t0 s = Some (t, s') ->
    runs (s, pool1 ++ t0 :: pool2) t (s', pool1 ++ t :: pool2).

(** Anything that can happen next: a decorator or [Dependency] is called,
    [Start] is called, or some suspended task goes on. *)
Inductive async_step : Config -> Config -> Prop :=
| async_Controller options target s r s' pool :
    Controller options target s = Some (r, s') ->
    async_step (s, pool) (s', pool)
| async_Dependency controllerClass s r s' pool :
    Dependency controllerClass s = Some (r, s') ->
    async_step (s, pool) (s', pool)
| async_runs cfg t cfg' :
    runs cfg t cfg' ->
    async_step cfg cfg'.

(** The configurations a freshly loaded module can get into. *)
Definition async_reachable (cfg : Config) : Prop :=
  rtc async_step (initial, []) cfg.

(** The classes whose suspended [registerController] can still succeed.
    Once the innermost call of a task has failed, the calls that wait for it
    fail in turn: the [await]s of lines 105 and 180 are in no [try]. *)
Definition going (t : Task) : list Ident :=
  match t with
  | AtAwait _ (Return _) _ _ _ | AtInit _ _ None _ _ _ => suspended t
  | _ => []
  end.

Definition going_in (pool : list Task) : list Ident := pool ≫= going.

(** [A] is in flight, not stored, and no suspended call is going to store
    it. *)
Definition orphan (A : Ident) (cfg : Config) : Prop :=
  stuck A (fst cfg) /\ A ∉ going_in (snd cfg).

(** The classes of [own] are in flight and not stored, each once. *)
Definition own_ok (own : list Ident) (s : State) : Prop :=
  NoDup own /\ forall X, X ∈ own -> stuck X s.

(** What the first loop of the [Start] of a task has still to visit. *)
Definition remaining (t : Task) : list Ident :=
  match t with
  | AtAwait _ _ _ rest _ | AtInit _ _ _ _ rest _ => rest
  | AtAll _ | Over _ => []
  end.

(** What holds of the tasks of every reachable configuration: a class is
    suspended at most once, the suspended classes are in flight and not
    stored, and only declared controllers are in flight or still to
    visit. *)
Definition tasks_ok (cfg : Config) : Prop :=
  own_ok (suspended_in (snd cfg)) (fst cfg) /\
  inflight_ok (fst cfg) /\
  forall t X, t ∈ snd cfg -> X ∈ remaining t -> X ∈ declared (fst cfg).

(** The Declaration Registry and the load orders are the same. *)
Definition same_registry (s s' : State) : Prop :=
  controllerRegistry s' = controllerRegistry s /\
  loadOrderMap s' = loadOrderMap s.

(** What one stretch of a task does, from state [s] to state [s'], when
    the task had the classes [own] suspended and [rest] to visit at its
    beginning and is [t] at its end: it leaves the declarations and the
    stored instances alone; a class that is in flight and not its own is
    left as it is; and when the stretch ends with a failed
    [registerController], for any reason but the cycle check, the class
    that failed is no longer suspended in [t] and was the task's own or
    not in flight before. *)
Definition stretch (own rest : list Ident) (s : State) (t : Task) (s' : State)
    : Prop :=
  same_registry s s' /\
  instances_kept s s' /\
  (started s = true -> started s' = true) /\
  (forall X, stuck X s -> X ∉ own -> stuck X s' /\ X ∉ suspended t) /\
  own_ok (suspended t) s' /\
  (forall X, X ∈ remaining t -> X ∈ rest) /\
  (forall C error stack rest' sorted,
     t = AtAwait C (Throw error) stack rest' sorted ->
     stuck C s' /\
     (error <> AppLifeError msgCyclic ->
        (C ∉ suspended t) /\
        (C ∈ own \/ C ∉ registeringControllers s))).

(** A declaration is for good: whatever happens next, its entry is the
    only one of its identity, and the load order is the one it gave. *)
Definition entered (target : Ident) (options : ControllerOptions) (s : State)
    : Prop :=
  (forall o, (target, o) ∈ controllerRegistry s <-> o = options) /\
  loadOrderMap s !! target = Some (default 0%Z (loadOrder options)).

(** The [Start] of the task has not got past [C]: [C] is still to visit,
    or a [registerController] has failed. *)
Definition held_up (C : Ident) (t : Task) : Prop :=
  match t with
  | AtAwait _ r _ rest _ => C ∈ rest \/ exists error, r = Throw error
  | AtInit _ _ _ _ rest _ => C ∈ rest
  | AtAll _ => False
  | Over r => exists error, r = Throw error
  end.

(** A task goes on by itself. *)
Definition alone (x y : Task * State) : Prop :=
  exists fuel, resume fuel (fst x) (snd x) = Some y.

(** ** [registerController] refines the big-step relation *)

Lemma resolveDependencies_sound (rec : Ident -> M Instance) :
  (forall C s r s', rec C s = Some (r, s') -> Registers C s r s') ->
  forall paramTypes acc s r s',
    resolveDependencies rec paramTypes acc s = Some (r, s') ->
    Resolves paramTypes acc s r s'.
Proof.
  intros Hrec paramTypes.
  induction paramTypes as [|dep rest IH]; intros acc s r s' H; cbn in H.
  - inversion H; subst. constructor.
  - unfold bind, gets in H.
    destruct (registry_has dep (controllerRegistry s)) eqn:Hhas.
    + destruct (rec dep s) as [[[i|error] s1]|] eqn:Hdep; try discriminate.
      * eapply Resolves_next; eauto.
      * inversion H; subst. eapply Resolves_failed; eauto.
    + inversion H; subst. by constructor.
Qed.

Lemma registerController_sound fuel :
  forall C s r s',
    registerController fuel C s = Some (r, s') -> Registers C s r s'.
Proof.
  induction fuel as [|fuel IH]; intros C s r s' H; [discriminate|].
  cbn [registerController] in H. unfold bind at 1, gets at 1 in H.
  destruct (controllerInstances s !! C) as [i|] eqn:Hi.
  { inversion H; subst. by constructor. }
  unfold bind at 1, gets at 1 in H.
  destruct (bool_decide (C ∈ registeringControllers s)) eqn:Hreg.
  { apply bool_decide_eq_true in Hreg. inversion H; subst. by constructor. }
  apply bool_decide_eq_false in Hreg.
  unfold bind at 1, modify at 1 in H. fold (begin C s) in H.
  unfold bind at 1 in H.
  destruct (resolveDependencies _ _ _ _) as [[[deps|error] s2]|] eqn:Hdeps;
    try discriminate.
  2:{ inversion H; subst.
      eapply Registers_dependency_failed; eauto using resolveDependencies_sound. }
  apply (resolveDependencies_sound _ IH) in Hdeps.
  unfold bind at 1, tryCatch at 1, callNew, emit, modify, bind at 1 in H.
  destruct (construct (classes C) s2 deps) as [error|i] eqn:Hnew; cbn in H.
  { inversion H; subst. eapply Registers_constructor_failed; eauto. }
  unfold bind at 1 in H.
  destruct (onInit (classes C)) as [hook|] eqn:Hinit.
  - unfold tryCatch, callOnInit, emit, modify, bind at 1 in H.
    destruct (hook _ i) as [error|] eqn:Hhook; cbn in H.
    + inversion H; subst. eapply Registers_init_failed; eauto.
    + inversion H; subst.
      apply (Registers_done C s deps s2 i
               (record (EvOnInit C None) (record (EvNew C deps (inr i)) s2)));
        auto.
      unfold initialized. rewrite Hinit. auto.
  - cbn in H. inversion H; subst.
    apply (Registers_done C s deps s2 i (record (EvNew C deps (inr i)) s2));
      auto.
    unfold initialized. by rewrite Hinit.
Qed.

(** ** What a resolution leaves untouched *)

Lemma initialized_cases C i s s' :
  initialized C i s s' -> s' = s \/ s' = record (EvOnInit C None) s.
Proof.
  unfold initialized. destruct (onInit (classes C)); intuition.
Qed.

Lemma same_declarations_refl s : same_declarations s s.
Proof. by repeat split. Qed.

Lemma same_declarations_trans s1 s2 s3 :
  same_declarations s1 s2 -> same_declarations s2 s3 -> same_declarations s1 s3.
Proof. unfold same_declarations. intuition congruence. Qed.

Lemma Registers_Resolves_frame :
  (forall C s r s', Registers C s r s' -> same_declarations s s') /\
  (forall l acc s r s', Resolves l acc s r s' -> same_declarations s s').
Proof.
  apply Registers_Resolves_ind; intros;
    repeat match goal with
           | H : initialized _ _ _ _ |- _ =>
               destruct (initialized_cases _ _ _ _ H) as [-> | ->]; clear H
           end;
    try (apply same_declarations_refl);
    try (eapply same_declarations_trans; [eassumption|]);
    try assumption;
    unfold same_declarations in *; cbn in *; intuition congruence.
Qed.

Lemma Registers_frame C s r s' :
  Registers C s r s' -> same_declarations s s'.
Proof. apply Registers_Resolves_frame. Qed.

Lemma stuck_begin A C s : stuck A s -> stuck A (begin C s).
Proof. intros [??]. split; cbn; [set_solver|done]. Qed.

Lemma stuck_record A e s : stuck A s -> stuck A (record e s).
Proof. intros [??]. by split. Qed.

Lemma stuck_consoleError A text error s :
  stuck A s -> stuck A (consoleError text error s).
Proof. apply stuck_record. Qed.

Lemma stuck_finish A C i s : A <> C -> stuck A s -> stuck A (finish C i s).
Proof.
  intros ? [??]. split; cbn; [set_solver | by rewrite lookup_insert_ne].
Qed.

Lemma stuck_initialized A C i s s' :
  initialized C i s s' -> stuck A s -> stuck A s'.
Proof.
  intros H. destruct (initialized_cases _ _ _ _ H) as [-> | ->];
    auto using stuck_record.
Qed.

Lemma Registers_Resolves_stuck A :
  (forall C s r s', Registers C s r s' -> stuck A s -> stuck A s') /\
  (forall l acc s r s', Resolves l acc s r s' -> stuck A s -> stuck A s').
Proof.
  apply Registers_Resolves_ind; intros;
    eauto 8 using stuck_begin, stuck_record, stuck_consoleError.
  apply stuck_finish.
  - match goal with H : stuck A _ |- _ => destruct H end. set_solver.
  - eauto 8 using stuck_begin, stuck_record, stuck_initialized.
Qed.

Lemma Registers_stuck A C s r s' :
  Registers C s r s' -> stuck A s -> stuck A s'.
Proof. apply Registers_Resolves_stuck. Qed.

(** ** What a resolution achieves *)

Lemma instances_kept_refl s : instances_kept s s.
Proof. by intros ??. Qed.

Lemma instances_kept_trans s1 s2 s3 :
  instances_kept s1 s2 -> instances_kept s2 s3 -> instances_kept s1 s3.
Proof. unfold instances_kept. eauto. Qed.

Lemma instances_kept_initialized C i s s' :
  initialized C i s s' -> controllerInstances s' = controllerInstances s /\
                          registeringControllers s' = registeringControllers s.
Proof.
  intros H. by destruct (initialized_cases _ _ _ _ H) as [-> | ->].
Qed.

Lemma Registers_Resolves_outcome :
  (forall C s r s', Registers C s r s' ->
     instances_kept s s' /\
     match r with
     | Return i =>
         controllerInstances s' !! C = Some i /\
         registeringControllers s' = registeringControllers s
     | Throw _ =>
         stuck C s' /\ registeringControllers s ⊆ registeringControllers s'
     end) /\
  (forall l acc s r s', Resolves l acc s r s' ->
     instances_kept s s' /\
     match r with
     | Return _ =>
         registeringControllers s' = registeringControllers s /\
         Forall (fun D => is_Some (controllerInstances s' !! D)) l
     | Throw _ => registeringControllers s ⊆ registeringControllers s'
     end).
Proof.
  apply Registers_Resolves_ind.
  - intros C s i Hi. split; [apply instances_kept_refl|done].
  - intros C s Hi Hreg. split; [apply instances_kept_refl|done].
  - intros C s error s2 Hi Hreg Hres [IHk IHr]. split; [exact IHk|]. split.
    + eapply Registers_Resolves_stuck; [exact Hres|].
      split; cbn; [set_solver|done].
    + cbn in IHr. set_solver.
  - intros C s deps s2 error Hi Hreg Hres [IHk [IHr _]] Hnew.
    split; [exact IHk|]. split.
    + do 2 apply stuck_record.
      eapply Registers_Resolves_stuck; [exact Hres|].
      split; cbn; [set_solver|done].
    + cbn in *. rewrite IHr. apply union_subseteq_r.
  - intros C s deps s2 i hook error Hi Hreg Hres [IHk [IHr _]] Hnew Hinit Hhook.
    split; [exact IHk|]. split.
    + do 3 apply stuck_record.
      eapply Registers_Resolves_stuck; [exact Hres|].
      split; cbn; [set_solver|done].
    + cbn in *. rewrite IHr. apply union_subseteq_r.
  - intros C s deps s2 i s3 Hi Hreg Hres [IHk [IHr _]] Hnew Hinit.
    apply instances_kept_initialized in Hinit as [Hi3 Hr3]. cbn in Hi3, Hr3.
    split; [|split].
    + intros X j HX. cbn. rewrite Hi3.
      destruct (decide (C = X)) as [->|]; [congruence|].
      rewrite lookup_insert_ne by done. by apply IHk.
    + cbn. by rewrite lookup_insert_eq.
    + cbn in *. rewrite Hr3, IHr. clear - Hreg. set_solver.
  - intros acc s. split; [apply instances_kept_refl|done].
  - intros dep rest acc s Hhas. split; [apply instances_kept_refl|done].
  - intros dep rest acc s error s1 Hhas Hreg [IHk [_ IHr]]. by split.
  - intros dep rest acc s i s1 r s2 Hhas Hreg [IHk [IHi IHr]] Hres [IHk2 IH2].
    split; [by eapply instances_kept_trans|].
    destruct r as [deps|error].
    + destruct IH2 as [IHr2 IHall]. split; [congruence|].
      constructor; [|done]. exists i. by apply IHk2.
    + by rewrite <- IHr.
Qed.

Lemma Registers_kept C s r s' : Registers C s r s' -> instances_kept s s'.
Proof. intros H. by apply Registers_Resolves_outcome in H as [? _]. Qed.

Lemma Registers_Return C s i s' :
  Registers C s (Return i) s' ->
  controllerInstances s' !! C = Some i /\
  registeringControllers s' = registeringControllers s.
Proof. intros H. by apply Registers_Resolves_outcome in H as [_ ?]. Qed.

Lemma Registers_Throw C s error s' :
  Registers C s (Throw error) s' ->
  stuck C s' /\ registeringControllers s ⊆ registeringControllers s'.
Proof. intros H. by apply Registers_Resolves_outcome in H as [_ ?]. Qed.

(** ** Termination: the fuel that [Start] supplies is enough *)

Lemma registry_has_declared C s :
  registry_has C (controllerRegistry s) = true <-> C ∈ declared s.
Proof.
  unfold registry_has, declared. rewrite bool_decide_eq_true.
  by rewrite elem_of_list_to_set.
Qed.

Lemma size_declared s : size (declared s) <= length (controllerRegistry s).
Proof.
  unfold declared. rewrite <- (length_map fst (controllerRegistry s)).
  generalize (map fst (controllerRegistry s)) as l. intros l.
  induction l as [|x l IH]; cbn.
  - by rewrite size_empty.
  - rewrite size_union_alt, size_singleton.
    assert (size (list_to_set l ∖ {[x]} : gset Ident)
            <= size (list_to_set l : gset Ident))
      by (apply subseteq_size; set_solver).
    lia.
Qed.

Lemma size_pending s : size (pending s) <= length (controllerRegistry s).
Proof.
  etrans; [|apply size_declared]. apply subseteq_size. unfold pending. set_solver.
Qed.

Lemma instances_kept_dom s s' :
  instances_kept s s' -> dom (controllerInstances s) ⊆ dom (controllerInstances s').
Proof.
  intros H X [i Hi]%elem_of_dom. apply elem_of_dom. exists i. by apply H.
Qed.

Lemma Registers_pending C s r s' :
  Registers C s r s' -> pending s' ⊆ pending s.
Proof.
  intros H. pose proof (Registers_frame _ _ _ _ H) as (Hreg & _ & _).
  apply Registers_Resolves_outcome in H as [Hk%instances_kept_dom Hr].
  unfold pending, declared. rewrite Hreg.
  assert (registeringControllers s ⊆ registeringControllers s') as Hsub.
  { destruct r; [by destruct Hr as [_ ->] | by destruct Hr]. }
  clear Hr. set_solver.
Qed.

Lemma pending_begin C s :
  C ∈ declared s ->
  controllerInstances s !! C = None ->
  C ∉ registeringControllers s ->
  size (pending (begin C s)) < size (pending s).
Proof.
  intros Hd Hi Hr. apply subset_size. unfold pending, declared in *. cbn.
  apply not_elem_of_dom in Hi.
  split; [set_solver|]. intros Hsub. specialize (Hsub C). set_solver.
Qed.

Lemma resolveDependencies_total (rec : Ident -> M Instance) (n : nat) :
  (forall C s r s', rec C s = Some (r, s') -> Registers C s r s') ->
  (forall C s, C ∈ declared s -> size (pending s) < n -> is_Some (rec C s)) ->
  forall paramTypes acc s,
    size (pending s) < n ->
    is_Some (resolveDependencies rec paramTypes acc s).
Proof.
  intros Hsound Hrec paramTypes.
  induction paramTypes as [|dep rest IH]; intros acc s Hn; cbn.
  - by eexists.
  - unfold bind, gets.
    destruct (registry_has dep (controllerRegistry s)) eqn:Hhas; [|by eexists].
    apply registry_has_declared in Hhas.
    destruct (Hrec dep s Hhas Hn) as [[r s1] Hdep]. rewrite Hdep.
    destruct r as [i|error]; [|by eexists].
    apply IH. apply Hsound, Registers_pending, subseteq_size in Hdep. lia.
Qed.

Lemma registerController_total fuel :
  forall C s,
    C ∈ declared s ->
    size (pending s) < fuel ->
    is_Some (registerController fuel C s).
Proof.
  induction fuel as [|fuel IH]; intros C s Hd Hn; [lia|].
  cbn [registerController]. unfold bind at 1, gets at 1.
  destruct (controllerInstances s !! C) as [i|] eqn:Hi; [by eexists|].
  unfold bind at 1, gets at 1.
  destruct (bool_decide (C ∈ registeringControllers s)) eqn:Hreg; [by eexists|].
  apply bool_decide_eq_false in Hreg.
  unfold bind at 1, modify at 1. fold (begin C s).
  pose proof (pending_begin C s Hd Hi Hreg) as Hlt.
  destruct (resolveDependencies_total (registerController fuel) fuel
              (registerController_sound fuel) IH
              (paramtypes (classes C)) [] (begin C s)) as [[r s2] Hdeps]; [lia|].
  unfold bind at 1. rewrite Hdeps.
  destruct r as [deps|error]; [|by eexists].
  unfold bind at 1, tryCatch at 1, callNew, emit, modify, bind at 1.
  destruct (construct (classes C) s2 deps) as [error|i]; cbn; [by eexists|].
  unfold bind at 1.
  destruct (onInit (classes C)) as [hook|]; [|by eexists].
  unfold tryCatch, callOnInit, emit, modify, bind at 1.
  destruct (hook _ i); cbn; by eexists.
Qed.

(** More fuel never changes a result. *)
Lemma resolveDependencies_more (rec rec' : Ident -> M Instance) :
  (forall C s x, rec C s = Some x -> rec' C s = Some x) ->
  forall paramTypes acc s x,
    resolveDependencies rec paramTypes acc s = Some x ->
    resolveDependencies rec' paramTypes acc s = Some x.
Proof.
  intros Hrec paramTypes.
  induction paramTypes as [|dep rest IH]; intros acc s x H; cbn in *; [done|].
  unfold bind, gets in *.
  destruct (registry_has dep (controllerRegistry s)); [|done].
  destruct (rec dep s) as [[[i|error] s1]|] eqn:Hdep; try discriminate;
    rewrite (Hrec _ _ _ Hdep); auto.
Qed.

Lemma registerController_more fuel :
  forall fuel' C s x,
    fuel <= fuel' ->
    registerController fuel C s = Some x ->
    registerController fuel' C s = Some x.
Proof.
  induction fuel as [|fuel IH]; intros fuel' C s x Hle H; [discriminate|].
  destruct fuel' as [|fuel']; [lia|].
  cbn [registerController] in *.
  unfold bind at 1, gets at 1 in H. unfold bind at 1, gets at 1.
  destruct (controllerInstances s !! C); [done|].
  unfold bind at 1, gets at 1 in H. unfold bind at 1, gets at 1.
  destruct (bool_decide (C ∈ registeringControllers s)); [done|].
  unfold bind at 1, modify at 1 in H. unfold bind at 1, modify at 1.
  unfold bind at 1 in H. unfold bind at 1.
  destruct (resolveDependencies (registerController fuel) _ _ _)
    as [y|] eqn:Hdeps; [|discriminate].
  erewrite resolveDependencies_more; [exact H| |exact Hdeps].
  intros. apply IH; [lia|done].
Qed.

(** ** The history written by a resolution *)

Lemma settled_stores_nothing t : stores_nothing t -> settled t.
Proof.
  intros H pre C post ->. apply Forall_app in H as [_ H].
  apply Forall_cons in H as [H _]. by destruct (H C).
Qed.

Lemma settled_app t1 t2 : settled t1 -> settled t2 -> settled (t1 ++ t2).
Proof.
  intros H1 H2 pre C post Heq.
  apply app_eq_app in Heq as [l [[-> Heq]|[-> Heq]]].
  - destruct l as [|e l].
    + cbn in Heq. destruct (H2 [] C post) as (pre' & deps & i & Hpre); [done|].
      by destruct pre'.
    + injection Heq as <- ->.
      destruct (H1 pre C l eq_refl) as (pre' & deps & i & ->). by eexists _, _, _.
  - destruct (H2 l C post Heq) as (pre' & deps & i & ->).
    exists (t1 ++ pre'), deps, i. by rewrite (assoc_L (++)).
Qed.

Lemma settled_ceremony C deps i : settled (ceremony C deps i ++ [EvSet C]).
Proof.
  intros pre C' post Heq. unfold ceremony in *.
  destruct (onInit (classes C)) as [hook|] eqn:Hinit; cbn in Heq.
  - destruct pre as [|e1 [|e2 [|e3 pre]]]; try discriminate.
    + injection Heq as <- <- <- _. exists [], deps, i. by rewrite Hinit.
    + injection Heq as _ _ _ Heq. by destruct pre.
  - destruct pre as [|e1 [|e2 pre]]; try discriminate.
    + injection Heq as <- <- _. exists [], deps, i. by rewrite Hinit.
    + injection Heq as _ _ Heq. by destruct pre.
Qed.

Lemma stored_app t1 t2 : stored (t1 ++ t2) = stored t1 ∪ stored t2.
Proof.
  unfold stored. rewrite omap_app, list_to_set_app_L. done.
Qed.

Lemma stored_nil : stored [] = ∅.
Proof. done. Qed.

Lemma timely_mono known known' t :
  known ⊆ known' -> timely known t -> timely known' t.
Proof.
  revert known known'.
  induction t as [|e t IH]; intros K K' HK; cbn [timely]; [done|].
  intros [He Ht]. split.
  - destruct e; auto.
  - eapply IH; [|exact Ht]. set_solver.
Qed.

Lemma timely_app known t1 t2 :
  timely known (t1 ++ t2) <-> timely known t1 /\ timely (known ∪ stored t1) t2.
Proof.
  revert known. induction t1 as [|e t1 IH]; intros K; cbn [timely app].
  - rewrite stored_nil, (right_id_L ∅ (∪)). tauto.
  - rewrite IH. change (e :: t1) with ([e] ++ t1).
    rewrite stored_app, (assoc_L (∪)). tauto.
Qed.

Lemma trail_app_Return {A B} (i : A) (r : Completion B) t1 t2 :
  trail (Return i) t1 -> trail r t2 -> trail r (t1 ++ t2).
Proof.
  intros H1 H2. destruct r as [j|error]; cbn in *.
  - by apply Forall_app.
  - destruct H2 as [H2|(pre & end_ & -> & Hpre & Hend)].
    + left. by apply Forall_app.
    + right. exists (t1 ++ pre), end_. rewrite (assoc_L (++)).
      split; [done|]. split; [by apply Forall_app|done].
Qed.

Lemma trail_nil {A} (r : Completion A) : trail r [].
Proof. destruct r; cbn; [constructor | left; constructor]. Qed.

Lemma wrote_nothing {A} s (r : Completion A) : wrote s r s [].
Proof.
  unfold wrote. rewrite stored_nil, (right_id_L [] (++)), (right_id_L ∅ (∪)).
  split; [done|]. split; [apply trail_nil|]. split; [done|]. split; [done|].
  apply settled_stores_nothing. constructor.
Qed.

Lemma wrote_then {A B} s (i : A) s1 (r : Completion B) s2 t1 t2 :
  wrote s (Return i) s1 t1 -> wrote s1 r s2 t2 -> wrote s r s2 (t1 ++ t2).
Proof.
  intros (Hh1 & Ht1 & Hd1 & Hk1 & Hs1) (Hh2 & Ht2 & Hd2 & Hk2 & Hs2).
  split; [by rewrite Hh2, Hh1, (assoc_L (++))|].
  split; [by eapply trail_app_Return|].
  split; [rewrite Hd2, Hd1, stored_app; set_solver|].
  split; [|by apply settled_app].
  apply timely_app. split; [done|]. by rewrite <- Hd1.
Qed.

Lemma wrote_new_ok C deps i s :
  (forall B, B ∈ paramtypes (classes C) -> B ∈ dom (controllerInstances s)) ->
  wrote s (Return i) (record (EvNew C deps (inr i)) s) [EvNew C deps (inr i)].
Proof.
  intros HC. unfold wrote. cbn [history controllerInstances record trail timely].
  split; [done|]. split; [by repeat constructor|].
  split; [unfold stored; cbn; set_solver|]. split; [done|].
  apply settled_stores_nothing. by repeat constructor.
Qed.

Lemma wrote_new_failed C deps error s :
  (forall B, B ∈ paramtypes (classes C) -> B ∈ dom (controllerInstances s)) ->
  wrote s (Throw error : Completion Instance)
    (consoleError "Error in constructor:" error
       (record (EvNew C deps (inl error)) s))
    [EvNew C deps (inl error);
     EvConsole LError
       [ArgText "[AppLife]: "; ArgText "Error in constructor:"; ArgError error]].
Proof.
  intros HC. unfold wrote, consoleError.
  cbn [history controllerInstances record trail timely].
  split; [by rewrite <- (assoc_L (++))|]. split.
  { right. eexists [], _. split; [reflexivity|]. split; constructor. }
  split; [unfold stored; cbn; set_solver|]. split; [done|].
  apply settled_stores_nothing. by repeat constructor.
Qed.

Lemma wrote_init_failed C error s :
  wrote s (Throw error : Completion Instance)
    (consoleError "Error in OnInit:" error
       (record (EvOnInit C (Some error)) s))
    [EvOnInit C (Some error);
     EvConsole LError
       [ArgText "[AppLife]: "; ArgText "Error in OnInit:"; ArgError error]].
Proof.
  unfold wrote, consoleError.
  cbn [history controllerInstances record trail timely].
  split; [by rewrite <- (assoc_L (++))|]. split.
  { right. eexists [], _. split; [reflexivity|]. split; constructor. }
  split; [unfold stored; cbn; set_solver|]. split; [done|].
  apply settled_stores_nothing. by repeat constructor.
Qed.

Lemma wrote_done C deps i s s3 :
  (forall B, B ∈ paramtypes (classes C) -> B ∈ dom (controllerInstances s)) ->
  initialized C i (record (EvNew C deps (inr i)) s) s3 ->
  wrote s (Return i) (finish C i s3) (ceremony C deps i ++ [EvSet C]).
Proof.
  intros HC Hinit.
  assert (history s3 = history s ++ ceremony C deps i /\
          controllerInstances s3 = controllerInstances s) as [Hh Hi].
  { unfold initialized, ceremony in *.
    destruct (onInit (classes C)) as [hook|].
    - destruct Hinit as [_ ->]. cbn. by rewrite <- (assoc_L (++)).
    - by subst s3. }
  unfold wrote, finish.
  cbn [history controllerInstances record withInstances withRegistering].
  rewrite Hh, Hi, <- (assoc_L (++)). split; [done|].
  assert (stored (ceremony C deps i ++ [EvSet C]) = {[C]}
          /\ Forall quiet (ceremony C deps i ++ [EvSet C])
          /\ timely (dom (controllerInstances s)) (ceremony C deps i ++ [EvSet C]))
    as (Hst & Hq & Ht).
  { unfold ceremony, stored. destruct (onInit (classes C)); cbn.
    - split; [set_solver|]. split; [by repeat constructor|done].
    - split; [set_solver|]. split; [by repeat constructor|done]. }
  split; [exact Hq|]. split; [rewrite dom_insert_L, Hst; set_solver|].
  split; [exact Ht|]. apply settled_ceremony.
Qed.

Lemma wrote_begin {A} C s (r : Completion A) s' t :
  wrote (begin C s) r s' t -> wrote s r s' t.
Proof. done. Qed.

Lemma Resolves_Return_stored l acc s deps s' :
  Resolves l acc s (Return deps) s' ->
  forall B, B ∈ l -> B ∈ dom (controllerInstances s').
Proof.
  intros H B HB. apply Registers_Resolves_outcome in H as (_ & _ & Hall).
  rewrite Forall_forall in Hall. by apply elem_of_dom, Hall.
Qed.

Lemma Registers_Resolves_wrote :
  (forall C s r s', Registers C s r s' -> exists t, wrote s r s' t) /\
  (forall l acc s r s', Resolves l acc s r s' -> exists t, wrote s r s' t).
Proof.
  apply Registers_Resolves_ind.
  - intros C s i Hi. exists []. apply wrote_nothing.
  - intros C s Hi Hreg. exists []. apply wrote_nothing.
  - intros C s error s2 Hi Hreg Hres [t IH]. exists t. by apply wrote_begin in IH.
  - intros C s deps s2 error Hi Hreg Hres [t IH] Hnew.
    eexists. apply (wrote_begin C). eapply wrote_then; [exact IH|].
    apply wrote_new_failed. eauto using Resolves_Return_stored.
  - intros C s deps s2 i hook error Hi Hreg Hres [t IH] Hnew Hinit Hhook.
    eexists. apply (wrote_begin C). eapply wrote_then; [exact IH|].
    eapply wrote_then; [|apply wrote_init_failed].
    apply wrote_new_ok. eauto using Resolves_Return_stored.
  - intros C s deps s2 i s3 Hi Hreg Hres [t IH] Hnew Hinit.
    eexists. apply (wrote_begin C). eapply wrote_then; [exact IH|].
    apply wrote_done; eauto using Resolves_Return_stored.
  - intros acc s. exists []. apply wrote_nothing.
  - intros dep rest acc s Hhas. exists []. apply wrote_nothing.
  - intros dep rest acc s error s1 Hhas Hreg [t IH]. by exists t.
  - intros dep rest acc s i s1 r s2 Hhas Hreg [t1 IH1] Hres [t2 IH2].
    eexists. eapply wrote_then; eauto.
Qed.

Lemma Registers_wrote C s r s' :
  Registers C s r s' -> exists t, wrote s r s' t.
Proof. apply Registers_Resolves_wrote. Qed.

(** ** The sort of [Start] *)

Section SortFacts.
Context {A : Type} (key : A -> Z).

Lemma insertSorted_Permutation x l : insertSorted key x l ≡ₚ x :: l.
Proof.
  induction l as [|y l IH]; cbn; [done|].
  destruct (key x <=? key y)%Z; [done|].
  rewrite IH. apply Permutation_swap.
Qed.

Lemma sortBy_Permutation l : sortBy key l ≡ₚ l.
Proof.
  induction l as [|x l IH]; cbn; [done|].
  by rewrite insertSorted_Permutation, IH.
Qed.

Lemma insertSorted_sorted x l :
  StronglySorted (ascending key) l -> StronglySorted (ascending key) (insertSorted key x l).
Proof.
  induction 1 as [|y l Hl IH Hy]; cbn.
  - repeat constructor.
  - destruct (key x <=? key y)%Z eqn:Hxy.
    + apply Z.leb_le in Hxy. constructor; [by constructor|].
      constructor; [done|].
      eapply Forall_impl; [exact Hy|]. unfold ascending. intros; cbn in *; lia.
    + apply Z.leb_gt in Hxy. constructor; [done|].
      rewrite insertSorted_Permutation. constructor; [|done].
      unfold ascending. lia.
Qed.

Lemma sortBy_sorted l : StronglySorted (ascending key) (sortBy key l).
Proof.
  induction l; cbn; [constructor | by apply insertSorted_sorted].
Qed.

(** Stability: elements with the same key keep their relative order. *)
Lemma insertSorted_stable k x l :
  filter (fun a => key a = k) (insertSorted key x l) =
  filter (fun a => key a = k) (x :: l).
Proof.
  induction l as [|y l IH]; cbn; [done|].
  destruct (key x <=? key y)%Z eqn:Hxy; [done|].
  apply Z.leb_gt in Hxy.
  rewrite (filter_cons _ y (insertSorted key x l)), IH.
  rewrite !filter_cons.
  repeat case_decide; try done; lia.
Qed.

Lemma sortBy_stable k l :
  filter (fun a => key a = k) (sortBy key l) = filter (fun a => key a = k) l.
Proof.
  induction l as [|x l IH]; cbn; [done|].
  by rewrite insertSorted_stable, !filter_cons, IH.
Qed.

End SortFacts.

Lemma sortedControllers_declared s C :
  C ∈ sortedControllers s <-> C ∈ declared s.
Proof.
  unfold sortedControllers, declared.
  by rewrite sortBy_Permutation, elem_of_list_to_set.
Qed.

(** ** The construct/init phase of [Start] *)

Lemma Registers_phase C s r s' : Registers C s r s' -> phase s r s'.
Proof.
  intros H.
  split; [by eapply Registers_frame|].
  split; [by eapply Registers_kept|].
  split; [by eapply Registers_wrote|].
  split; [intros X; by eapply Registers_stuck|].
  split; [|by eapply Registers_pending].
  apply Registers_Resolves_outcome in H as [_ H].
  destruct r; [by destruct H as [_ ->] | by destruct H].
Qed.

Lemma phase_refl {A} s (a : A) : phase s (Return a) s.
Proof.
  split; [apply same_declarations_refl|].
  split; [apply instances_kept_refl|].
  split; [exists []; apply wrote_nothing|done].
Qed.

Lemma phase_then {A B} s (a : A) s1 (r : Completion B) s2 :
  phase s (Return a) s1 -> phase s1 r s2 -> phase s r s2.
Proof.
  intros (Hd1 & Hk1 & [t1 Hw1] & Hs1 & Hr1 & Hp1)
         (Hd2 & Hk2 & [t2 Hw2] & Hs2 & Hr2 & Hp2).
  split; [by eapply same_declarations_trans|].
  split; [by eapply instances_kept_trans|].
  split; [eexists; by eapply wrote_then|].
  split; [auto|]. split; set_solver.
Qed.

Lemma registerAll_cons fuel C rest s x :
  registerAll fuel (C :: rest) s = Some x ->
  exists r1 s1,
    registerController fuel C s = Some (r1, s1) /\
    match r1 with
    | Return _ => registerAll fuel rest s1 = Some x
    | Throw error => x = (Throw error, s1)
    end.
Proof.
  cbn. unfold bind at 1.
  destruct (registerController fuel C s) as [[[i|error] s1]|]; [| |done].
  - intros H. by exists (Return i), s1.
  - intros [= <-]. by exists (Throw error), s1.
Qed.

Lemma registerAll_phase fuel sorted :
  forall s r s',
    registerAll fuel sorted s = Some (r, s') ->
    phase s r s' /\
    match r with
    | Return _ =>
        registeringControllers s' = registeringControllers s /\
        forall C, C ∈ sorted -> C ∈ dom (controllerInstances s')
    | Throw _ => True
    end.
Proof.
  induction sorted as [|C rest IH]; intros s r s' H.
  - injection H as <- <-. split; [apply phase_refl|].
    split; [done|]. intros C HC. by apply elem_of_nil in HC.
  - apply registerAll_cons in H as (r1 & s1 & H1 & H).
    apply registerController_sound in H1.
    pose proof (Registers_phase _ _ _ _ H1) as Hp1.
    destruct r1 as [i|error].
    + apply IH in H as [Hp Hr]. split; [by eapply phase_then|].
      destruct r as [[]|]; [|done].
      apply Registers_Return in H1 as [Hi Hreg]. destruct Hr as [Hr Hall].
      split; [congruence|].
      intros X [->|HX]%elem_of_cons; [|by apply Hall].
      destruct Hp as (_ & Hk & _). apply elem_of_dom. exists i. by apply Hk.
    + injection H as -> ->. done.
Qed.

Lemma registerAll_total fuel sorted :
  forall s,
    (forall C, C ∈ sorted -> C ∈ declared s) ->
    size (pending s) < fuel ->
    is_Some (registerAll fuel sorted s).
Proof.
  induction sorted as [|C rest IH]; intros s Hd Hn; cbn; [by eexists|].
  unfold bind at 1.
  destruct (registerController_total fuel C s) as [[r1 s1] H1];
    [apply Hd; left | done |].
  rewrite H1. destruct r1 as [i|error]; [|by eexists].
  apply registerController_sound, Registers_phase in H1
    as ((Hreg & _) & _ & _ & _ & _ & Hp).
  apply IH.
  - intros X HX. unfold declared. rewrite Hreg. apply Hd. by right.
  - apply subseteq_size in Hp. lia.
Qed.

(** ** The start phase of [Start] *)

Lemma same_tables_refl s : same_tables s s.
Proof. by repeat split. Qed.

Lemma same_tables_trans s1 s2 s3 :
  same_tables s1 s2 -> same_tables s2 s3 -> same_tables s1 s3.
Proof. unfold same_tables. intuition congruence. Qed.

Lemma collectStartPromises_spec sorted :
  forall acc s,
    exists ps s' t,
      collectStartPromises sorted acc s = Some (Return (acc ++ ps), s') /\
      same_tables s s' /\
      history s' = history s ++ t /\
      Forall is_start_call t /\
      (forall C, C ∈ sorted -> is_Some (onStart (classes C)) ->
                 C ∈ dom (controllerInstances s) ->
                 exists outcome, EvOnStart C outcome ∈ t) /\
      (forall C error, EvOnStart C (Some error) ∈ t ->
                 exists i, controllerInstances s !! C = Some i /\
                           (Some error, Some i) ∈ ps).
Proof.
  induction sorted as [|C rest IH]; intros acc s.
  - exists [], s, []. cbn. rewrite !(right_id_L [] (++)).
    repeat split; try done.
    + intros C HC. by apply elem_of_nil in HC.
    + intros C error HC. by apply elem_of_nil in HC.
  - cbn [collectStartPromises]. unfold bind at 1, gets at 1.
    destruct (onStart (classes C)) as [hook|] eqn:Hhook.
    + unfold bind at 1, callOnStart.
      destruct (controllerInstances s !! C) as [i|] eqn:Hi.
      * unfold emit, modify, bind at 1, ret at 1.
        destruct (IH (acc ++ [(hook s i, Some i)])
                    (record (EvOnStart C (hook s i)) s))
          as (ps & s' & t & Hrun & Hsame & Hhist & Hcalls & Hall & Hfail).
        exists ((hook s i, Some i) :: ps), s', (EvOnStart C (hook s i) :: t).
        rewrite <- (assoc_L (++)) in Hrun. split; [exact Hrun|].
        split; [exact Hsame|]. cbn in Hhist.
        split; [by rewrite Hhist, <- (assoc_L (++))|].
        split; [by constructor|]. split.
        -- intros X [->|HX]%elem_of_cons Hh Hd.
           ++ eexists. left.
           ++ destruct (Hall X HX Hh Hd) as [o Ho]. exists o. by right.
        -- intros X error [[= -> Herr]|HX]%elem_of_cons.
           ++ exists i. split; [done|]. rewrite <- Herr. left.
           ++ destruct (Hfail X error HX) as (j & Hj & Hin).
              exists j. split; [done|]. by right.
      * unfold ret at 1.
        destruct (IH (acc ++ [(Some TypeError, None)]) s)
          as (ps & s' & t & Hrun & Hsame & Hhist & Hcalls & Hall & Hfail).
        exists ((Some TypeError, None) :: ps), s', t.
        rewrite <- (assoc_L (++)) in Hrun. split; [exact Hrun|].
        split; [exact Hsame|]. split; [done|]. split; [done|]. split.
        -- intros X [->|HX]%elem_of_cons Hh Hd; [|by eauto].
           apply elem_of_dom in Hd as [? Hd]. congruence.
        -- intros X error HX. destruct (Hfail X error HX) as (j & Hj & Hin).
           exists j. split; [done|]. by right.
    + destruct (IH acc s)
        as (ps & s' & t & Hrun & Hsame & Hhist & Hcalls & Hall & Hfail).
      exists ps, s', t. split; [done|].
      split; [exact Hsame|]. split; [done|]. split; [done|]. split; [|done].
      intros X [->|HX]%elem_of_cons Hh Hd; [|by eauto].
      rewrite Hhook in Hh. by destruct Hh.
Qed.

Lemma awaitAll_spec startPromises :
  forall s,
    exists s' t,
      awaitAll startPromises s = Some (Return tt, s') /\
      same_tables s s' /\
      history s' = history s ++ t /\
      Forall is_start_warning t /\
      (forall error instance, (Some error, instance) ∈ startPromises ->
                              startWarning error instance ∈ t).
Proof.
  induction startPromises as [|[[error|] instance] rest IH]; intros s.
  - exists s, []. cbn. rewrite (right_id_L [] (++)). repeat split; try done.
    intros ?? H. by apply elem_of_nil in H.
  - cbn [awaitAll]. unfold bind at 1, DebugLog, emit, modify.
    destruct (IH (record (startWarning error instance) s))
      as (s' & t & Hrun & Hsame & Hhist & Hwarn & Hall).
    exists s', (startWarning error instance :: t).
    split; [exact Hrun|]. split; [exact Hsame|]. cbn in Hhist.
    split; [by rewrite Hhist, <- (assoc_L (++))|].
    split; [constructor; [by eexists _, _|done]|].
    intros e i [[= -> ->]|H]%elem_of_cons; [left|right; auto].
  - cbn [awaitAll].
    destruct (IH s) as (s' & t & Hrun & Hsame & Hhist & Hwarn & Hall).
    exists s', t. repeat split; try done; try apply Hsame.
    intros e i [[=]|H]%elem_of_cons. auto.
Qed.

(** ** [Start] as a whole *)

Lemma announce_tables s :
  controllerRegistry (announce s) = controllerRegistry s /\
  controllerInstances (announce s) = controllerInstances s /\
  loadOrderMap (announce s) = loadOrderMap s /\
  registeringControllers (announce s) = registeringControllers s /\
  started (announce s) = true.
Proof. unfold announce. by destruct (_ =? _)%nat. Qed.

Lemma announce_history s :
  exists t, history (announce s) = history s ++ t /\
            Forall (fun e => exists args, e = EvConsole LWarn args) t.
Proof.
  unfold announce. destruct (_ =? _)%nat; cbn.
  - eexists [_]. split; [done|]. repeat constructor. by eexists.
  - exists []. by rewrite (right_id_L [] (++)).
Qed.

Lemma sortedControllers_announce s :
  sortedControllers (announce s) = sortedControllers s.
Proof.
  unfold sortedControllers, loadOrderOf.
  destruct (announce_tables s) as (-> & _ & -> & _). done.
Qed.

Lemma declared_announce s : declared (announce s) = declared s.
Proof. unfold declared. by destruct (announce_tables s) as (-> & _). Qed.

Lemma pending_announce s : pending (announce s) = pending s.
Proof.
  unfold pending. rewrite declared_announce.
  by destruct (announce_tables s) as (_ & -> & _ & -> & _).
Qed.

(** The three ways through [Start]: it never runs out of fuel, and it throws
    exactly when the construct/init phase does. *)
Lemma Start_run s :
  exists r1 s1,
    registerAll (S (length (controllerRegistry s))) (sortedControllers s) (announce s)
      = Some (r1, s1) /\
    match r1 with
    | Throw error => Start s = Some (Throw error, s1)
    | Return _ =>
        exists ps s2 s',
          collectStartPromises (sortedControllers s) [] s1 = Some (Return ps, s2) /\
          awaitAll ps s2 = Some (Return tt, s') /\
          Start s = Some (Return tt, s')
    end.
Proof.
  destruct (registerAll_total (S (length (controllerRegistry s)))
              (sortedControllers s) (announce s)) as [[r1 s1] H1].
  { intros C. rewrite declared_announce. apply sortedControllers_declared. }
  { rewrite pending_announce. pose proof (size_pending s). lia. }
  exists r1, s1. split; [exact H1|].
  assert (forall x,
            (registerAll (S (length (controllerRegistry s))) (sortedControllers s) ;;;
             startPromises <- collectStartPromises (sortedControllers s) [] ;;
             awaitAll startPromises) (announce s) = x ->
            Start s = x) as Hstart.
  { intros x <-. unfold Start, StartWith, announce.
    unfold bind at 1, modify at 1. unfold bind at 1, gets at 1.
    cbn [controllerRegistry withStarted].
    by destruct (length (controllerRegistry s) =? 0)%nat. }
  destruct r1 as [[]|error].
  - destruct (collectStartPromises_spec (sortedControllers s) [] s1)
      as (ps & s2 & t & Hc & _).
    destruct (awaitAll_spec ps s2) as (s' & t' & Ha & _).
    exists ps, s2, s'. split; [exact Hc|]. split; [exact Ha|].
    apply Hstart. unfold bind at 1. rewrite H1. unfold bind at 1. by rewrite Hc.
  - apply Hstart. unfold bind at 1. by rewrite H1.
Qed.

Lemma Start_total s : is_Some (Start s).
Proof.
  destruct (Start_run s) as ([[]|error] & s1 & _ & H).
  - destruct H as (ps & s2 & s' & _ & _ & ->). by eexists.
  - rewrite H. by eexists.
Qed.

Lemma registerAll_more fuel fuel' sorted :
  forall s x,
    fuel <= fuel' ->
    registerAll fuel sorted s = Some x ->
    registerAll fuel' sorted s = Some x.
Proof.
  induction sorted as [|C rest IH]; intros s x Hle H; [done|].
  cbn [registerAll] in *. unfold bind at 1 in H. unfold bind at 1.
  destruct (registerController fuel C s) as [[r1 s1]|] eqn:H1; [|discriminate].
  rewrite (registerController_more _ _ _ _ _ Hle H1).
  destruct r1; [by apply IH|done].
Qed.

(** Any larger recursion bound gives the same run. *)
Lemma StartWith_more fuel s :
  S (length (controllerRegistry s)) <= fuel -> StartWith fuel s = Start s.
Proof.
  intros Hle.
  assert (forall n,
            StartWith n s =
            (registerAll n (sortedControllers s) ;;;
             startPromises <- collectStartPromises (sortedControllers s) [] ;;
             awaitAll startPromises) (announce s)) as Hunfold.
  { intros n. unfold StartWith, announce.
    unfold bind at 1, modify at 1. unfold bind at 1, gets at 1.
    cbn [controllerRegistry withStarted].
    by destruct (length (controllerRegistry s) =? 0)%nat. }
  unfold Start. rewrite !Hunfold. unfold bind at 1 3.
  destruct (registerAll (S _) _ _) as [x|] eqn:H1.
  - by rewrite (registerAll_more _ _ _ _ _ Hle H1).
  - destruct (Start_run s) as (r1 & s1 & H1' & _). congruence.
Qed.

(** ** The invariants of reachable states *)

Lemma table_ok_same s s' :
  controllerRegistry s' = controllerRegistry s ->
  controllerInstances s' = controllerInstances s ->
  table_ok s -> table_ok s'.
Proof.
  unfold table_ok, declared. intros -> ->. done.
Qed.

Lemma Registers_Resolves_table :
  (forall C s r s', Registers C s r s' ->
     C ∈ declared s -> table_ok s -> table_ok s') /\
  (forall l acc s r s', Resolves l acc s r s' -> table_ok s -> table_ok s').
Proof.
  apply Registers_Resolves_ind; try (intros; assumption).
  - intros C s error s2 Hi Hreg Hres IH Hd Hok. by apply IH.
  - intros C s deps s2 error Hi Hreg Hres IH Hnew Hd Hok.
    eapply table_ok_same; [| |by apply IH]; done.
  - intros C s deps s2 i hook error Hi Hreg Hres IH Hnew Hinit Hhook Hd Hok.
    eapply table_ok_same; [| |by apply IH]; done.
  - intros C s deps s2 i s3 Hi Hreg Hres IH Hnew Hinit Hd Hok.
    assert (table_ok s2) as Hok2 by by apply IH.
    pose proof (Resolves_Return_stored _ _ _ _ _ Hres) as Hdeps.
    apply Registers_Resolves_frame in Hres as (Hr & _).
    assert (controllerRegistry s3 = controllerRegistry s2 /\
            controllerInstances s3 = controllerInstances s2) as [Hr3 Hi3].
    { by destruct (initialized_cases _ _ _ _ Hinit) as [-> | ->]. }
    intros X. unfold declared. cbn. rewrite Hi3, Hr3, Hr, dom_insert_L.
    intros [->%elem_of_singleton|HX]%elem_of_union.
    + split; [exact Hd|]. split.
      * constructor. intros B HB. by apply Hok2, Hdeps.
      * intros B HB. apply elem_of_union_r. by apply Hdeps.
    + destruct (Hok2 X HX) as (HdX & Hg & Hc). unfold declared in HdX.
      rewrite Hr in HdX. cbn in HdX. split; [exact HdX|]. split; [exact Hg|].
      intros B HB. apply elem_of_union_r. by apply Hc.
  - intros dep rest acc s error s1 Hhas Hreg IH Hok.
    apply IH; [by apply registry_has_declared|done].
  - intros dep rest acc s i s1 r s2 Hhas Hreg IH1 Hres IH2 Hok.
    apply IH2, IH1; [by apply registry_has_declared|done].
Qed.

Lemma registerAll_table fuel sorted :
  forall s r s',
    registerAll fuel sorted s = Some (r, s') ->
    (forall C, C ∈ sorted -> C ∈ declared s) ->
    table_ok s -> table_ok s'.
Proof.
  induction sorted as [|C rest IH]; intros s r s' H Hd Hok.
  - by injection H as <- <-.
  - apply registerAll_cons in H as (r1 & s1 & H1 & H).
    apply registerController_sound in H1.
    assert (table_ok s1) as Hok1.
    { eapply (proj1 Registers_Resolves_table); [exact H1| |done]. apply Hd. left. }
    destruct r1 as [i|error]; [|by injection H as -> ->].
    eapply IH; [exact H| |exact Hok1].
    intros X HX. apply Registers_frame in H1 as (Hr & _).
    unfold declared. rewrite Hr. apply Hd. by right.
Qed.

Lemma inert_stored t : Forall inert t -> stored t = ∅.
Proof.
  induction 1 as [|e t He Ht IH]; [done|].
  change (e :: t) with ([e] ++ t). rewrite stored_app, IH.
  destruct e; try done; by rewrite (right_id_L ∅ (∪)).
Qed.

Lemma inert_timely known t : Forall inert t -> timely known t.
Proof.
  intros H. revert known. induction H as [|e t He Ht IH]; intros K; [done|].
  cbn [timely]. split; [by destruct e|apply IH].
Qed.

Lemma history_ok_inert s s' t :
  controllerInstances s' = controllerInstances s ->
  history s' = history s ++ t ->
  Forall inert t ->
  history_ok s -> history_ok s'.
Proof.
  intros Hi Hh Ht (Hdom & Htime & Hset). unfold history_ok.
  rewrite Hi, Hh, stored_app, (inert_stored t Ht), (right_id_L ∅ (∪)).
  split; [done|]. split.
  - apply timely_app. split; [done|]. by apply inert_timely.
  - apply settled_app; [done|]. apply settled_stores_nothing.
    eapply Forall_impl; [exact Ht|]. by intros [] ?.
Qed.

Lemma history_ok_wrote {A} s (r : Completion A) s' t :
  wrote s r s' t -> history_ok s -> history_ok s'.
Proof.
  intros (Hh & _ & Hd & Ht & Hs) (Hdom & Htime & Hset). unfold history_ok.
  rewrite Hh, Hd, stored_app, Hdom. split; [done|]. split.
  - apply timely_app. split; [done|].
    by rewrite (left_id_L ∅ (∪)), <- Hdom.
  - by apply settled_app.
Qed.

Lemma registry_ok_same s s' :
  same_declarations s s' -> registry_ok s -> registry_ok s'.
Proof. unfold registry_ok. by intros (-> & -> & _). Qed.

(** ** The decorator and the lookup, in closed form *)

Lemma Controller_spec options target s :
  Controller options target s =
  Some (if registry_has target (controllerRegistry s)
        then (Throw (AppLifeError msgAlreadyRegistered), s)
        else (Return tt,
              withLoadOrderMap
                (<[target := default 0%Z (loadOrder options)]> (loadOrderMap s))
                (withRegistry (controllerRegistry s ++ [(target, options)]) s))).
Proof.
  unfold Controller, bind, gets, modify, throw; cbn.
  by destruct (registry_has target (controllerRegistry s)).
Qed.

Lemma Dependency_spec controllerClass s :
  Dependency controllerClass s =
  Some (if started s
        then match controllerInstances s !! controllerClass with
             | Some instance => Return instance
             | None => Throw (AppLifeError msgNotLoaded)
             end
        else Throw (AppLifeError msgNotStarted),
        s).
Proof.
  unfold Dependency, bind, gets, throw, ret; cbn.
  destruct (started s); cbn; [|done].
  by destruct (controllerInstances s !! controllerClass).
Qed.

(** ** Anatomy of a run of [Start] *)

Lemma Start_anatomy s r s' :
  Start s = Some (r, s') ->
  exists r1 s1 t1 t2,
    registerAll (S (length (controllerRegistry s))) (sortedControllers s) (announce s)
      = Some (r1, s1) /\
    wrote (announce s) r1 s1 t1 /\
    same_tables s1 s' /\
    history s' = history s1 ++ t2 /\
    match r1 with
    | Throw error => r = Throw error /\ t2 = []
    | Return _ => r = Return tt /\ start_phase s1 (sortedControllers s) t2
    end.
Proof.
  intros HS. destruct (Start_run s) as (r1 & s1 & H1 & H).
  pose proof (registerAll_phase _ _ _ _ _ H1) as [(_ & _ & [t1 Hw] & _) Hret].
  exists r1, s1, t1. destruct r1 as [[]|error].
  - destruct H as (ps & s2 & s'' & Hc & Ha & HS'). rewrite HS in HS'.
    injection HS' as -> <-.
    destruct (collectStartPromises_spec (sortedControllers s) [] s1)
      as (ps' & s2' & calls & Hc' & Hsame2 & Hh2 & Hcalls & Hall & Hfail).
    rewrite Hc in Hc'. cbn [app] in Hc'. injection Hc' as <- <-.
    destruct (awaitAll_spec ps s2)
      as (s3 & warnings & Ha' & Hsame3 & Hh3 & Hwarn & Hallw).
    rewrite Ha in Ha'. injection Ha' as <-.
    exists (calls ++ warnings). split; [done|]. split; [done|].
    split; [by eapply same_tables_trans|].
    split; [by rewrite Hh3, Hh2, (assoc_L (++))|]. split; [done|].
    exists calls, warnings. split; [done|]. split; [done|]. split; [done|]. split.
    + intros C HC Hhook. apply (Hall C HC Hhook). by apply Hret.
    + intros C error HC. destruct (Hfail C error HC) as (i & Hi & Hin).
      exists i. split; [done|]. by apply Hallw.
  - rewrite HS in H. injection H as -> ->.
    exists []. split; [done|]. split; [done|].
    split; [apply same_tables_refl|]. by rewrite (right_id_L [] (++)).
Qed.

Lemma start_phase_inert s1 sorted t2 : start_phase s1 sorted t2 -> Forall inert t2.
Proof.
  intros (calls & warnings & -> & Hc & Hw & _). apply Forall_app. split.
  - eapply Forall_impl; [exact Hc|]. by intros [].
  - eapply Forall_impl; [exact Hw|]. by intros ? (? & ? & ->).
Qed.

Lemma Start_invariant s r s' :
  Start s = Some (r, s') -> invariant s -> invariant s'.
Proof.
  intros HS (Htab & Hhist & Hreg).
  destruct (Start_anatomy _ _ _ HS) as (r1 & s1 & t1 & t2 & H1 & Hw & Hsame & Hh & Hr).
  destruct (announce_tables s) as (Har & Hai & Hal & Hag & Hast).
  destruct (announce_history s) as (t0 & Hh0 & Ht0).
  destruct Hsame as (Hsr & Hsi & Hsl & Hsg & Hss).
  pose proof (registerAll_phase _ _ _ _ _ H1) as [((Hdr & Hdl & _) & _) _].
  assert (Forall inert t2) as Ht2.
  { destruct r1; [eapply start_phase_inert, Hr | by destruct Hr as [_ ->]]. }
  split; [|split].
  - eapply table_ok_same; [exact Hsr|exact Hsi|].
    eapply registerAll_table; [exact H1| |].
    + intros C. rewrite declared_announce. apply sortedControllers_declared.
    + by eapply table_ok_same.
  - eapply history_ok_inert; [exact Hsi|exact Hh|exact Ht2|].
    eapply history_ok_wrote; [exact Hw|].
    eapply history_ok_inert; [exact Hai|exact Hh0| |exact Hhist].
    eapply Forall_impl; [exact Ht0|]. by intros ? [? ->].
  - unfold registry_ok. by rewrite Hsr, Hsl, Hdr, Hdl, Har, Hal.
Qed.

Lemma elem_of_map_fst {A B} (x : A) (l : list (A * B)) :
  x ∈ map fst l <-> exists y, (x, y) ∈ l.
Proof.
  rewrite list_elem_of_In, in_map_iff. split.
  - intros ([x' y] & <- & H). exists y. by apply list_elem_of_In.
  - intros [y H]. exists (x, y). split; [done|]. by apply list_elem_of_In.
Qed.

Lemma Controller_invariant options target s r s' :
  Controller options target s = Some (r, s') -> invariant s -> invariant s'.
Proof.
  rewrite Controller_spec.
  destruct (registry_has target (controllerRegistry s)) eqn:Hhas;
    intros [= <- <-]; [done|].
  intros (Htab & Hhist & Hnodup & Hlom). split; [|split; [done|split]].
  - intros C HC. destruct (Htab C HC) as (Hd & Hg & Hc).
    split; [|done]. unfold declared in *. cbn. rewrite map_app. set_solver.
  - cbn. rewrite map_app. apply NoDup_app. split; [done|].
    split; [|apply NoDup_singleton].
    intros X HX ->%list_elem_of_singleton.
    unfold registry_has in Hhas. by apply bool_decide_eq_false in Hhas.
  - intros C o. cbn. intros [HC|[= -> ->]%list_elem_of_singleton]%elem_of_app.
    + rewrite lookup_insert_ne; [by apply Hlom|].
      intros <-. unfold registry_has in Hhas. apply bool_decide_eq_false in Hhas.
      apply Hhas. apply elem_of_map_fst. by exists o.
    + by rewrite lookup_insert_eq.
Qed.

Lemma initial_invariant : invariant initial.
Proof.
  split; [|split; [|split]].
  - intros C HC. cbn in HC. by rewrite dom_empty_L in HC.
  - split; cbn; [by rewrite dom_empty_L|]. split; [done|].
    apply settled_stores_nothing. constructor.
  - cbn. constructor.
  - intros C o HC. by apply elem_of_nil in HC.
Qed.

Lemma reachable_invariant s : reachable s -> invariant s.
Proof.
  induction 1 as [|s options target r s' _ IH H|s C r s' _ IH H|s r s' _ IH H].
  - apply initial_invariant.
  - by eapply Controller_invariant.
  - rewrite Dependency_spec in H. by injection H as _ <-.
  - by eapply Start_invariant.
Qed.

(** ** Further facts about [Start] *)

Lemma Start_effect s r s' :
  Start s = Some (r, s') ->
  controllerRegistry s' = controllerRegistry s /\
  loadOrderMap s' = loadOrderMap s /\
  started s' = true /\
  instances_kept s s' /\
  (forall X, stuck X s -> stuck X s') /\
  (r = Return tt ->
     registeringControllers s' = registeringControllers s /\
     forall C, C ∈ declared s -> C ∈ dom (controllerInstances s')).
Proof.
  intros HS.
  destruct (Start_anatomy _ _ _ HS) as (r1 & s1 & t1 & t2 & H1 & Hw & Hsame & Hh & Hr).
  destruct (announce_tables s) as (Har & Hai & Hal & Hag & Hast).
  destruct Hsame as (Hsr & Hsi & Hsl & Hsg & Hss).
  pose proof (registerAll_phase _ _ _ _ _ H1)
    as [((Hdr & Hdl & Hds) & Hk & _ & Hst & _) Hret].
  split; [congruence|]. split; [congruence|]. split; [congruence|]. split; [|split].
  - intros X i HX. rewrite Hsi. apply Hk. by rewrite Hai.
  - intros X [HX1 HX2]. destruct (Hst X) as [HX3 HX4].
    { split; [by rewrite Hag | by rewrite Hai]. }
    split; [by rewrite Hsg | by rewrite Hsi].
  - intros ->. destruct r1 as [[]|error]; [|by destruct Hr].
    destruct Hret as [Hreg Hall]. split; [congruence|].
    intros C HC. rewrite Hsi. by apply Hall, sortedControllers_declared.
Qed.

Lemma step_stuck A s s' : step s s' -> stuck A s -> stuck A s'.
Proof.
  intros [options target s0 r s0' H|C s0 r s0' H|s0 r s0' H|fuel C s0 r s0' H].
  - rewrite Controller_spec in H.
    destruct (registry_has _ _); by injection H as _ <-.
  - rewrite Dependency_spec in H. by injection H as _ <-.
  - apply Start_effect in H as (_ & _ & _ & _ & H & _). apply H.
  - apply registerController_sound in H. by eapply Registers_stuck.
Qed.

Lemma rtc_step_stuck A s s' : rtc step s s' -> stuck A s -> stuck A s'.
Proof. induction 1; eauto using step_stuck. Qed.

Lemma registerController_stuck fuel A s :
  stuck A s ->
  registerController (S fuel) A s = Some (Throw (AppLifeError msgCyclic), s).
Proof.
  intros [Hreg Hi]. cbn [registerController]. unfold bind, gets. rewrite Hi.
  by rewrite bool_decide_eq_true_2.
Qed.

(** ** Reading the history *)

Lemma elem_of_stored B t : B ∈ stored t <-> EvSet B ∈ t.
Proof.
  unfold stored. rewrite elem_of_list_to_set, list_elem_of_omap. split.
  - intros (e & He & Heq). destruct e; try discriminate. by injection Heq as ->.
  - intros H. by exists (EvSet B).
Qed.

Lemma timely_split known pre A deps outcome post :
  timely known (pre ++ EvNew A deps outcome :: post) ->
  forall B, depends A B -> B ∈ known ∪ stored pre.
Proof.
  intros [_ [H _]]%timely_app. exact H.
Qed.

(** ** Cycles *)

Lemma grounded_not_on_cycle C : grounded C -> ~ on_cycle C.
Proof.
  induction 1 as [C _ IH]. intros Hcycle.
  assert (forall X Y, tc depends X Y -> X = C -> Y = C ->
                      exists B, depends C B /\ on_cycle B) as Hrot.
  { clear Hcycle. intros X Y Htc. induction Htc as [X Y HXY|X Y Z HXY HYZ IHtc].
    - intros -> ->. exists C. split; [done|]. by apply tc_once.
    - intros -> ->. exists Y. split; [done|].
      eapply tc_r; [exact HYZ|exact HXY]. }
  destruct (Hrot C C Hcycle eq_refl eq_refl) as (B & HB & Hc).
  by apply (IH B HB).
Qed.

Lemma table_ok_no_cycle s X :
  table_ok s -> on_cycle X -> controllerInstances s !! X = None.
Proof.
  intros Hok Hcycle. apply not_elem_of_dom. intros HX.
  destruct (Hok X HX) as (_ & Hg & _). by apply (grounded_not_on_cycle X).
Qed.

Lemma closed_same s s' : same_declarations s s' -> closed s -> closed s'.
Proof. unfold closed, declared. by intros (-> & _). Qed.

Lemma declared_same s s' C :
  same_declarations s s' -> C ∈ declared s -> C ∈ declared s'.
Proof. unfold declared. by intros (-> & _). Qed.

(** With healthy user code and a closed registry, the only error left is
    the cycle check. *)
Lemma Registers_Resolves_only_cyclic :
  healthy ->
  (forall C s r s', Registers C s r s' ->
     C ∈ declared s -> closed s ->
     forall error, r = Throw error -> error = AppLifeError msgCyclic) /\
  (forall l acc s r s', Resolves l acc s r s' ->
     (forall D, D ∈ l -> D ∈ declared s) -> closed s ->
     forall error, r = Throw error -> error = AppLifeError msgCyclic).
Proof.
  intros [Hnew Hinit]. apply Registers_Resolves_ind.
  - intros C s i Hi Hd Hc error [=].
  - intros C s Hi Hreg Hd Hc error [= <-]. done.
  - intros C s error s2 Hi Hreg Hres IH Hd Hc error' [= <-].
    apply IH; [|done|done]. intros D HD. by apply (Hc C).
  - intros C s deps s2 error Hi Hreg Hres IH Hnew' Hd Hc error' _.
    destruct (Hnew C s2 deps) as [i Hi']. congruence.
  - intros C s deps s2 i hook error Hi Hreg Hres IH Hnew' Hinit' Hhook Hd Hc error' _.
    rewrite (Hinit C hook _ i Hinit') in Hhook. done.
  - intros C s deps s2 i s3 Hi Hreg Hres IH Hnew' Hinit' Hd Hc error [=].
  - intros acc s Hd Hc error [=].
  - intros dep rest acc s Hhas Hd Hc error _.
    assert (dep ∈ declared s) as Hdep by (apply Hd; left).
    apply registry_has_declared in Hdep. congruence.
  - intros dep rest acc s error s1 Hhas Hreg IH Hd Hc error' [= <-].
    apply IH; [apply Hd; left|done|done].
  - intros dep rest acc s i s1 r s2 Hhas Hreg IH1 Hres IH2 Hd Hc error ->.
    apply Registers_frame in Hreg.
    apply IH2; [|by eapply closed_same|done].
    intros D HD. eapply declared_same; [done|]. apply Hd. by right.
Qed.

Lemma registerAll_only_cyclic fuel sorted :
  healthy ->
  forall s error s',
    registerAll fuel sorted s = Some (Throw error, s') ->
    (forall C, C ∈ sorted -> C ∈ declared s) -> closed s ->
    error = AppLifeError msgCyclic.
Proof.
  intros Hh. induction sorted as [|C rest IH]; intros s error s' H Hd Hc.
  - discriminate.
  - apply registerAll_cons in H as (r1 & s1 & H1 & H).
    apply registerController_sound in H1. destruct r1 as [i|error1].
    + pose proof (Registers_frame _ _ _ _ H1) as Hsame.
      eapply IH; [exact H| |by eapply closed_same].
      intros X HX. eapply declared_same; [done|]. apply Hd. by right.
    + injection H as -> ->.
      eapply (proj1 (Registers_Resolves_only_cyclic Hh)); [exact H1| |done|done].
      apply Hd. left.
Qed.

(** ** The history of a run of [Start] *)

Lemma Start_story s r s' :
  Start s = Some (r, s') ->
  exists t0 t1 t2 (r1 : Completion unit) s1,
    history s' = history s ++ t0 ++ t1 ++ t2 /\
    Forall is_warning t0 /\
    trail r1 t1 /\
    dom (controllerInstances s') = dom (controllerInstances s) ∪ stored t1 /\
    controllerInstances s' = controllerInstances s1 /\
    started s' = true /\
    match r1 with
    | Throw error => r = Throw error /\ t2 = []
    | Return _ =>
        r = Return tt /\ start_phase s1 (sortedControllers s) t2 /\
        forall C, C ∈ declared s -> C ∈ dom (controllerInstances s1)
    end.
Proof.
  intros HS.
  destruct (Start_anatomy _ _ _ HS)
    as (r1 & s1 & t1 & t2 & H1 & (Hh1 & Htr & Hdom & _) & Hsame & Hh & Hr).
  destruct (announce_tables s) as (Har & Hai & Hal & Hag & Hast).
  destruct (announce_history s) as (t0 & Hh0 & Ht0).
  destruct Hsame as (Hsr & Hsi & Hsl & Hsg & Hss).
  pose proof (registerAll_phase _ _ _ _ _ H1) as [((_ & _ & Hds) & _) Hret].
  exists t0, t1, t2, r1, s1.
  split; [by rewrite Hh, Hh1, Hh0, <- !(assoc_L (++))|].
  split; [done|]. split; [done|]. split; [by rewrite Hsi, Hdom, Hai|].
  split; [done|]. split; [congruence|].
  destruct r1 as [[]|error]; [|done].
  destruct Hr as [-> Hsp]. split; [done|]. split; [done|].
  intros C HC. by apply Hret, sortedControllers_declared.
Qed.

Lemma failed_call_not_quiet F error e : failed_call F error e -> ~ quiet e.
Proof. intros [[deps ->]| ->] H; exact H. Qed.

Lemma failed_call_not_warning F error e : failed_call F error e -> ~ is_warning e.
Proof. intros [[deps ->]| ->] [args ?]; discriminate. Qed.

Lemma start_phase_events s1 sorted t2 :
  start_phase s1 sorted t2 ->
  Forall (fun e => is_start_call e \/ is_start_warning e) t2.
Proof.
  intros (calls & warnings & -> & Hc & Hw & _). apply Forall_app. split.
  - eapply Forall_impl; [exact Hc|]. by left.
  - eapply Forall_impl; [exact Hw|]. by right.
Qed.

Lemma failed_call_not_start F error e :
  failed_call F error e -> ~ (is_start_call e \/ is_start_warning e).
Proof.
  intros [[deps ->]| ->] [H|(? & ? & H)]; (exact H || discriminate).
Qed.

Lemma Fatal_failed_call error end_ F error' e :
  Fatal error end_ -> e ∈ end_ -> failed_call F error' e -> error' = error.
Proof.
  intros [C deps|C]; rewrite !elem_of_cons, elem_of_nil;
    intros [->|[->|[]]] [[deps' H]|H]; congruence.
Qed.

Lemma Fatal_stored error end_ : Fatal error end_ -> stored end_ = ∅.
Proof. by intros []. Qed.

Lemma start_call_not_quiet e : is_start_call e -> ~ quiet e.
Proof. destruct e; intros H H'; (exact H || exact H'). Qed.

Lemma start_call_not_warning e : is_start_call e -> ~ is_warning e.
Proof. destruct e; intros H [? H']; (exact H || discriminate). Qed.

Lemma Fatal_no_start_call error end_ e :
  Fatal error end_ -> e ∈ end_ -> ~ is_start_call e.
Proof.
  intros [C deps|C]; rewrite !elem_of_cons, elem_of_nil;
    intros [->|[->|[]]] H; exact H.
Qed.

Lemma trail_no_start_call {A} (r : Completion A) t e :
  trail r t -> e ∈ t -> ~ is_start_call e.
Proof.
  intros Ht He Hs.
  assert (forall t', Forall quiet t' -> e ∈ t' -> False) as Hq.
  { intros t' Hq He'. rewrite Forall_forall in Hq.
    by apply (start_call_not_quiet e), Hq. }
  destruct r as [a|error]; cbn in Ht; [by eapply Hq|].
  destruct Ht as [Ht|(pre & end_ & -> & Hpre & Hend)]; [by eapply Hq|].
  apply elem_of_app in He as [He|He]; [by eapply Hq|].
  by apply (Fatal_no_start_call _ _ _ Hend He).
Qed.

(** ** Controllers without dependencies *)

Lemma constructions_app t1 t2 :
  constructions (t1 ++ t2) = constructions t1 ++ constructions t2.
Proof. apply omap_app. Qed.

Lemma insertSorted_ext {A} (key key' : A -> Z) x l :
  key x = key' x -> (forall y, y ∈ l -> key y = key' y) ->
  insertSorted key x l = insertSorted key' x l.
Proof.
  intros Hx. induction l as [|y l IH]; intros Hl; cbn; [done|].
  rewrite Hx, (Hl y) by left. rewrite IH; [done|]. intros z Hz. apply Hl. by right.
Qed.

Lemma sortBy_ext {A} (key key' : A -> Z) l :
  (forall y, y ∈ l -> key y = key' y) -> sortBy key l = sortBy key' l.
Proof.
  induction l as [|x l IH]; intros Hl; cbn; [done|].
  rewrite IH by (intros z Hz; apply Hl; by right).
  apply insertSorted_ext; [apply Hl; left|].
  intros y Hy. apply Hl. right. by rewrite sortBy_Permutation in Hy.
Qed.

Lemma sortedControllers_hint s :
  registry_ok s ->
  sortedControllers s = map fst (sortBy hint (controllerRegistry s)).
Proof.
  intros [_ Hlom]. unfold sortedControllers. f_equal. apply sortBy_ext.
  intros [C o] HC. unfold loadOrderOf, hint. cbn. by rewrite (Hlom C o HC).
Qed.

Lemma reachable_unstarted s :
  reachable s -> started s = false ->
  controllerInstances s = ∅ /\ registeringControllers s = ∅ /\ history s = [].
Proof.
  induction 1 as [|s options target r s' _ IH H|s C r s' _ IH H|s r s' _ IH H].
  - done.
  - rewrite Controller_spec in H.
    destruct (registry_has _ _); injection H as _ <-; exact IH.
  - rewrite Dependency_spec in H. by injection H as _ <-.
  - apply Start_effect in H as (_ & _ & -> & _). done.
Qed.

Ltac leaf_history :=
  cbn [history record withRegistering withInstances];
  by rewrite <- ?(assoc_L (++)).

Lemma registerController_leaf fuel C s :
  paramtypes (classes C) = [] ->
  controllerInstances s !! C = None ->
  C ∉ registeringControllers s ->
  exists r s' t,
    registerController (S fuel) C s = Some (r, s') /\
    history s' = history s ++ t /\
    constructions t = [C] /\
    match r with
    | Return i =>
        controllerInstances s' = <[C := i]> (controllerInstances s) /\
        registeringControllers s' = registeringControllers s
    | Throw _ => True
    end.
Proof.
  intros Hleaf Hi Hreg. cbn [registerController].
  unfold bind at 1, gets at 1. rewrite Hi.
  unfold bind at 1, gets at 1. rewrite bool_decide_eq_false_2 by done.
  unfold bind at 1, modify at 1. rewrite Hleaf. cbn [resolveDependencies].
  unfold bind at 1, ret at 1.
  unfold bind at 1, tryCatch at 1, callNew, emit, modify, bind at 1.
  destruct (construct (classes C) _ []) as [error|i] eqn:Hnew; cbn.
  { eexists _, _, [_; _]. split; [done|]. split; [leaf_history|]. done. }
  unfold bind at 1.
  destruct (onInit (classes C)) as [hook|].
  - unfold tryCatch, callOnInit, emit, modify, bind at 1.
    destruct (hook _ i) as [error|]; cbn.
    + eexists _, _, [_; _; _]. split; [done|]. split; [leaf_history|]. done.
    + eexists _, _, [_; _; _]. split; [done|]. split; [leaf_history|].
      split; [done|]. split; [done|]. cbn. clear - Hreg. set_solver.
  - cbn. eexists _, _, [_; _]. split; [done|]. split; [leaf_history|].
    split; [done|]. split; [done|]. cbn. clear - Hreg. set_solver.
Qed.

Lemma registerAll_leaves fuel sorted :
  forall s r s',
    NoDup sorted ->
    (forall C, C ∈ sorted ->
       paramtypes (classes C) = [] /\ controllerInstances s !! C = None) ->
    registeringControllers s = ∅ ->
    registerAll (S fuel) sorted s = Some (r, s') ->
    exists t,
      history s' = history s ++ t /\
      constructions t `prefix_of` sorted /\
      (r = Return tt -> constructions t = sorted).
Proof.
  induction sorted as [|C rest IH]; intros s r s' Hnd Hall Hreg H.
  - injection H as <- <-. exists []. by rewrite (right_id_L [] (++)).
  - apply NoDup_cons in Hnd as [HC Hnd].
    destruct (Hall C) as [Hleaf Hi]; [left|].
    destruct (registerController_leaf fuel C s Hleaf Hi)
      as (r1 & s1 & t1 & H1 & Hh1 & Hc1 & Hr1); [by rewrite Hreg|].
    apply registerAll_cons in H as (r1' & s1' & H1' & H).
    rewrite H1 in H1'. injection H1' as <- <-.
    destruct r1 as [i|error].
    + destruct Hr1 as [Hi1 Hreg1].
      destruct (IH s1 r s' Hnd) as (t & Hh & Hc & Hr); [|congruence|done|].
      { intros X HX. destruct (Hall X) as [HlX HiX]; [by right|].
        split; [done|]. rewrite Hi1, lookup_insert_ne; [done|]. by intros ->. }
      exists (t1 ++ t). split; [by rewrite Hh, Hh1, (assoc_L (++))|].
      rewrite constructions_app, Hc1. split.
      * by apply prefix_cons.
      * intros ->. cbn. by rewrite Hr.
    + injection H as -> ->. exists t1. split; [done|]. rewrite Hc1.
      split; [|done]. by exists rest.
Qed.

(** ** Calling [Start] again *)

Lemma registerAll_cached fuel sorted s :
  (forall C, C ∈ sorted -> C ∈ dom (controllerInstances s)) ->
  registerAll (S fuel) sorted s = Some (Return tt, s).
Proof.
  induction sorted as [|C rest IH]; intros Hall; [done|].
  cbn [registerAll registerController].
  assert (C ∈ dom (controllerInstances s)) as [i Hi]%elem_of_dom
    by (apply Hall; left).
  unfold bind at 1, bind at 1, gets at 1. rewrite Hi. unfold ret at 1.
  apply IH. intros X HX. apply Hall. by right.
Qed.

(** ** A dependency that was never declared *)

Lemma untouched_refl A s : untouched A s s.
Proof. exists []. by rewrite (right_id_L [] (++)). Qed.

Lemma untouched_trans A s1 s2 s3 :
  untouched A s1 s2 -> untouched A s2 s3 -> untouched A s1 s3.
Proof.
  intros (t1 & Hh1 & Ht1) (t2 & Hh2 & Ht2). exists (t1 ++ t2).
  split; [by rewrite Hh2, Hh1, (assoc_L (++))|]. by apply Forall_app.
Qed.

Lemma untouched_record A e s s1 :
  ~ touches A e -> untouched A s s1 -> untouched A s (record e s1).
Proof.
  intros He H. eapply untouched_trans; [exact H|].
  exists [e]. split; [done|]. by constructor.
Qed.

Lemma untouched_initialized A C i s s1 s' :
  C <> A -> initialized C i s1 s' -> untouched A s s1 -> untouched A s s'.
Proof.
  intros HC H. destruct (initialized_cases _ _ _ _ H) as [-> | ->]; [done|].
  by apply untouched_record.
Qed.

Lemma untouched_finish A C i s s1 :
  C <> A -> untouched A s s1 -> untouched A s (finish C i s1).
Proof.
  intros HC H. eapply untouched_trans; [exact H|].
  exists [EvSet C]. split; [done|]. by constructor.
Qed.

Lemma Registers_Resolves_untouched A :
  (forall C s r s', Registers C s r s' -> stuck A s -> untouched A s s') /\
  (forall l acc s r s', Resolves l acc s r s' -> stuck A s -> untouched A s s').
Proof.
  apply Registers_Resolves_ind; try (intros; apply untouched_refl).
  - intros C s error s2 Hi Hreg Hres IH Hst. by apply IH, stuck_begin.
  - intros C s deps s2 error Hi Hreg Hres IH Hnew Hst.
    assert (C <> A) by (destruct Hst; congruence).
    unfold consoleError. apply untouched_record; [by intros []|].
    apply untouched_record; [done|]. by apply IH, stuck_begin.
  - intros C s deps s2 i hook error Hi Hreg Hres IH Hnew Hinit Hhook Hst.
    assert (C <> A) by (destruct Hst; congruence).
    unfold consoleError. apply untouched_record; [by intros []|].
    do 2 (apply untouched_record; [done|]). by apply IH, stuck_begin.
  - intros C s deps s2 i s3 Hi Hreg Hres IH Hnew Hinit Hst.
    assert (C <> A) by (destruct Hst; congruence).
    apply untouched_finish; [done|].
    eapply untouched_initialized; [done|exact Hinit|].
    apply untouched_record; [done|]. by apply IH, stuck_begin.
  - intros dep rest acc s error s1 Hhas Hreg IH Hst. by apply IH.
  - intros dep rest acc s i s1 r s2 Hhas Hreg IH1 Hres IH2 Hst.
    eapply untouched_trans; [by apply IH1|]. apply IH2.
    by eapply Registers_stuck.
Qed.

(** Where the error of a failed dependency loop comes from. *)
Lemma resolveDependencies_Throw (rec : Ident -> M Instance) :
  (forall C s r s', rec C s = Some (r, s') -> same_declarations s s') ->
  forall paramTypes acc s error s',
    resolveDependencies rec paramTypes acc s = Some (Throw error, s') ->
    exists pre D post,
      paramTypes = pre ++ D :: post /\
      (forall X, X ∈ pre -> X ∈ declared s) /\
      (((D ∉ declared s) /\ error = AppLifeError (msgDependency D)) \/
       (D ∈ declared s /\ (exists s1, rec D s1 = Some (Throw error, s')))).
Proof.
  intros Hframe paramTypes.
  induction paramTypes as [|dep rest IH]; intros acc s error s' H; cbn in H.
  - discriminate.
  - unfold bind, gets in H.
    destruct (registry_has dep (controllerRegistry s)) eqn:Hhas.
    + apply registry_has_declared in Hhas.
      destruct (rec dep s) as [[[i|error1] s1]|] eqn:Hdep; try discriminate.
      * apply IH in H as (pre & D & post & -> & Hpre & HD).
        pose proof (Hframe _ _ _ _ Hdep) as (Hsame & _).
        unfold declared in *. rewrite Hsame in Hpre, HD.
        exists (dep :: pre), D, post. split; [done|]. split; [|done].
        by intros X [->|HX]%elem_of_cons; [|apply Hpre].
      * injection H as -> ->. exists [], dep, rest. split; [done|].
        split; [by intros X HX%elem_of_nil|]. right. split; [done|]. by exists s.
    + injection H as <- <-. exists [], dep, rest. split; [done|].
      split; [by intros X HX%elem_of_nil|]. left. split; [|done].
      intros Hd%registry_has_declared. congruence.
Qed.

Lemma resolveDependencies_Return (rec : Ident -> M Instance) :
  (forall C s r s', rec C s = Some (r, s') -> same_declarations s s') ->
  forall paramTypes acc s deps s',
    resolveDependencies rec paramTypes acc s = Some (Return deps, s') ->
    forall X, X ∈ paramTypes -> X ∈ declared s.
Proof.
  intros Hframe paramTypes.
  induction paramTypes as [|dep rest IH]; intros acc s deps s' H X HX; cbn in H.
  - by apply elem_of_nil in HX.
  - unfold bind, gets in H.
    destruct (registry_has dep (controllerRegistry s)) eqn:Hhas; [|discriminate].
    apply registry_has_declared in Hhas.
    destruct (rec dep s) as [[[i|error1] s1]|] eqn:Hdep; try discriminate.
    apply elem_of_cons in HX as [->|HX]; [done|].
    pose proof (Hframe _ _ _ _ Hdep) as (Hsame & _).
    specialize (IH _ _ _ _ H X HX). unfold declared in *. by rewrite <- Hsame.
Qed.

Lemma undeclared_dependency_never_stored s A U :
  table_ok s -> depends A U -> U ∉ declared s ->
  controllerInstances s !! A = None.
Proof.
  intros Hok HU Hd. apply not_elem_of_dom. intros HA.
  destruct (Hok A HA) as (_ & _ & Hdeps).
  by destruct (Hok U (Hdeps U HU)) as (? & _).
Qed.

(** A declared controller on a dependency cycle of any length makes
    [Start] throw, and no controller on a cycle is ever stored. *)
Lemma Start_fails_on_cycle (s : State) (A : Ident) :
  reachable s ->
  A ∈ declared s ->
  on_cycle A ->
  exists error s',
    Start s = Some (Throw error, s') /\
    (forall X, on_cycle X ->
       controllerInstances s !! X = None /\ controllerInstances s' !! X = None) /\
    (healthy -> closed s -> error = AppLifeError msgCyclic).
Proof.
  intros Hreach HA Hcycle.
  destruct (Start_total s) as [[r s'] HS].
  assert (reachable s') as Hreach' by by eapply reachable_Start.
  apply reachable_invariant in Hreach as (Htab & _).
  apply reachable_invariant in Hreach' as (Htab' & _).
  destruct r as [[]|error].
  - apply Start_effect in HS as (_ & _ & _ & _ & _ & Hret).
    destruct (Hret eq_refl) as [_ Hall].
    apply Hall, elem_of_dom in HA as [i Hi].
    by rewrite (table_ok_no_cycle s' A Htab' Hcycle) in Hi.
  - exists error, s'. split; [done|]. split.
    { intros X HX. split; by apply table_ok_no_cycle. }
    intros Hh Hc.
    destruct (Start_anatomy _ _ _ HS) as (r1 & s1 & t1 & t2 & H1 & _ & _ & _ & Hr).
    destruct r1 as [[]|error1]; [by destruct Hr|]. destruct Hr as [[= ->] _].
    eapply registerAll_only_cyclic; [exact Hh|exact H1| |].
    + intros C. rewrite declared_announce. apply sortedControllers_declared.
    + unfold closed. by rewrite declared_announce.
Qed.


(** A dependent of an undeclared identity: what [registerController] returns
    when it returns. *)
Lemma unknown_dependency_Throw
    (fuel : nat) (A U : Ident) (s s' : State) (r : Completion Instance) :
  controllerInstances s !! A = None ->
  depends A U ->
  U ∉ declared s ->
  registerController fuel A s = Some (r, s') ->
  exists error,
    r = Throw error /\
    controllerInstances s' !! A = None /\
    untouched A s s' /\
    (error = AppLifeError (msgDependency U) \/
     (A ∈ registeringControllers s /\ error = AppLifeError msgCyclic) \/
     exists pre D post,
       paramtypes (classes A) = pre ++ D :: post /\
       U ∈ post /\
       (((D ∉ declared s) /\ error = AppLifeError (msgDependency D)) \/
        (exists fuel' s1,
           registerController fuel' D s1 = Some (Throw error, s')))).
Proof.
  intros Hi HU Hd H. destruct fuel as [|fuel]; [discriminate|].
  cbn [registerController] in H. unfold bind at 1, gets at 1 in H.
  rewrite Hi in H. unfold bind at 1, gets at 1 in H.
  destruct (bool_decide (A ∈ registeringControllers s)) eqn:Hreg.
  { apply bool_decide_eq_true in Hreg. injection H as <- <-.
    exists (AppLifeError msgCyclic). split; [done|]. split; [done|].
    split; [apply untouched_refl|]. right. by left. }
  apply bool_decide_eq_false in Hreg.
  unfold bind at 1, modify at 1 in H. fold (begin A s) in H.
  unfold bind at 1 in H.
  assert (forall C s r s', registerController fuel C s = Some (r, s') ->
                           same_declarations s s') as Hframe.
  { intros C s0 r0 s0' H0. by eapply Registers_frame, registerController_sound. }
  destruct (resolveDependencies _ _ _ _) as [[[deps|error] s2]|] eqn:Hdeps;
    [|injection H as <- <-|discriminate].
  { exfalso. apply Hd.
    exact (resolveDependencies_Return _ Hframe _ _ _ _ _ Hdeps U HU). }
  exists error. split; [done|].
  pose proof (resolveDependencies_sound _ (registerController_sound fuel)
                _ _ _ _ _ Hdeps) as Hres.
  assert (stuck A (begin A s)) as Hst by (split; cbn; [set_solver|done]).
  split; [by apply (proj2 (Registers_Resolves_stuck A) _ _ _ _ _ Hres Hst)|].
  split; [by apply (proj2 (Registers_Resolves_untouched A) _ _ _ _ _ Hres Hst)|].
  apply (resolveDependencies_Throw _ Hframe) in Hdeps
    as (pre & D & post & Hl & Hpre & HD).
  destruct (decide (D = U)) as [->|Hne].
  { left. destruct HD as [[_ ->]|[HD _]]; done. }
  right. right. exists pre, D, post. split; [done|]. split.
  { unfold depends in HU. rewrite Hl in HU.
    apply elem_of_app in HU as [HU|[->|HU]%elem_of_cons]; [|done|done].
    exfalso. apply Hd. exact (Hpre U HU). }
  destruct HD as [[HD ->]|[_ [s1 HD]]]; [by left|].
  right. by exists fuel, s1.
Qed.

Lemma Controller_grows options target s r s' :
  Controller options target s = Some (r, s') ->
  declared s ⊆ declared s'.
Proof.
  rewrite Controller_spec.
  destruct (registry_has _ _); intros [= <- <-]; [done|].
  unfold declared. cbn. rewrite map_app. set_solver.
Qed.

(** ** The error of a failed resolution *)

Lemma user_error_trans s1 s2 s3 error :
  (exists t, history s2 = history s1 ++ t) ->
  user_error s2 s3 error -> user_error s1 s3 error.
Proof.
  intros [t1 H1] (t & F & e & H2 & He & Hf). exists (t1 ++ t), F, e.
  split; [by rewrite H2, H1, <- (assoc_L (++))|]. split; [|done].
  apply elem_of_app. by right.
Qed.

Lemma user_error_later s1 s2 s3 error :
  user_error s1 s2 error ->
  (exists t, history s3 = history s2 ++ t) ->
  user_error s1 s3 error.
Proof.
  intros (t & F & e & H1 & He & Hf) [t2 H2]. exists (t ++ t2), F, e.
  split; [by rewrite H2, H1, <- (assoc_L (++))|]. split; [|done].
  apply elem_of_app. by left.
Qed.

Lemma Registers_history C s r s' :
  Registers C s r s' -> exists t, history s' = history s ++ t.
Proof. intros [t (H & _)]%Registers_wrote. by exists t. Qed.

Lemma Resolves_history l acc s r s' :
  Resolves l acc s r s' -> exists t, history s' = history s ++ t.
Proof.
  intros H. apply (proj2 Registers_Resolves_wrote) in H as [t (H & _)].
  by exists t.
Qed.

Lemma undeclared_dependency_error_same s s' error :
  controllerRegistry s' = controllerRegistry s ->
  undeclared_dependency_error s' error -> undeclared_dependency_error s error.
Proof. unfold undeclared_dependency_error, declared. by intros ->. Qed.

(** A resolution fails with the cyclic-dependency error, with the error of
    an undeclared dependency, or with what user code threw. *)
Lemma Registers_Resolves_error :
  (forall C s r s', Registers C s r s' ->
     C ∈ declared s ->
     forall error, r = Throw error ->
       error = AppLifeError msgCyclic \/
       undeclared_dependency_error s error \/
       user_error s s' error) /\
  (forall l acc s r s', Resolves l acc s r s' ->
     (exists D, D ∈ declared s /\ forall X, X ∈ l -> depends D X) ->
     forall error, r = Throw error ->
       error = AppLifeError msgCyclic \/
       undeclared_dependency_error s error \/
       user_error s s' error).
Proof.
  apply Registers_Resolves_ind.
  - intros C s i Hi Hd error [=].
  - intros C s Hi Hreg Hd error [= <-]. by left.
  - intros C s error s2 Hi Hreg Hres IH Hd error' [= <-].
    destruct (IH (ex_intro _ C (conj Hd (fun X HX => HX))) error eq_refl)
      as [H|[H|H]]; auto.
  - intros C s deps s2 error Hi Hreg Hres IH Hnew Hd error' [= <-].
    right. right. apply Resolves_history in Hres as [t Ht]. cbn in Ht.
    exists (t ++ [EvNew C deps (inl error);
                  EvConsole LError
                    [ArgText "[AppLife]: "; ArgText "Error in constructor:";
                     ArgError error]]), C, (EvNew C deps (inl error)).
    split; [cbn; by rewrite Ht, <- !(assoc_L (++))|].
    split; [set_solver|]. left. by eexists.
  - intros C s deps s2 i hook error Hi Hreg Hres IH Hnew Hinit Hhook Hd
      error' [= <-].
    right. right. apply Resolves_history in Hres as [t Ht]. cbn in Ht.
    exists (t ++ [EvNew C deps (inr i); EvOnInit C (Some error);
                  EvConsole LError
                    [ArgText "[AppLife]: "; ArgText "Error in OnInit:";
                     ArgError error]]), C, (EvOnInit C (Some error)).
    split; [cbn; by rewrite Ht, <- !(assoc_L (++))|].
    split; [set_solver|]. by right.
  - intros C s deps s2 i s3 Hi Hreg Hres IH Hnew Hinit Hd error [=].
  - intros acc s HD error [=].
  - intros dep rest acc s Hhas (D & HD & Hdeps) error [= <-].
    right. left. exists D, dep. split; [done|]. split; [apply Hdeps; left|].
    split; [|done]. intros Hdep%registry_has_declared. congruence.
  - intros dep rest acc s error s1 Hhas Hreg IH HD error' [= <-].
    apply IH; [by apply registry_has_declared|done].
  - intros dep rest acc s i s1 r s2 Hhas Hreg IH1 Hres IH2 (D & HD & Hdeps)
      error ->.
    pose proof (Registers_frame _ _ _ _ Hreg) as (Hr & _).
    pose proof (declared_same s s1 D (Registers_frame _ _ _ _ Hreg) HD) as HD1.
    destruct (IH2 (ex_intro _ D
                     (conj HD1 (fun X HX =>
                                  Hdeps X (list_elem_of_further _ _ _ HX))))
                error eq_refl) as [H|[H|H]].
    + by left.
    + right. left. by eapply undeclared_dependency_error_same.
    + right. right. eapply user_error_trans; [|exact H].
      by eapply Registers_history.
Qed.

Lemma registerAll_error fuel sorted :
  forall s error s',
    registerAll fuel sorted s = Some (Throw error, s') ->
    (forall C, C ∈ sorted -> C ∈ declared s) ->
    error = AppLifeError msgCyclic \/
    undeclared_dependency_error s error \/
    user_error s s' error.
Proof.
  induction sorted as [|C rest IH]; intros s error s' H Hd; [done|].
  apply registerAll_cons in H as (r1 & s1 & H1 & H).
  apply registerController_sound in H1. destruct r1 as [i|error1].
  - pose proof (Registers_frame _ _ _ _ H1) as Hsame.
    destruct (IH _ _ _ H) as [H'|[H'|H']].
    + intros X HX. eapply declared_same; [done|]. apply Hd. by right.
    + by left.
    + right. left. eapply undeclared_dependency_error_same; [apply Hsame|done].
    + right. right. eapply user_error_trans; [|exact H'].
      by eapply Registers_history.
  - injection H as -> ->.
    eapply (proj1 Registers_Resolves_error); [exact H1| |done]. apply Hd. left.
Qed.

(** Within a set of classes that holds its own dependencies, all of them
    declared and reliable, the only error left is the cycle check. *)
Lemma Registers_Resolves_only_cyclic_within (V : Ident -> Prop) :
  (forall X Y, V X -> depends X Y -> V Y) ->
  (forall X, V X -> reliable X) ->
  (forall C s r s', Registers C s r s' ->
     V C -> (forall X, V X -> X ∈ declared s) ->
     forall error, r = Throw error -> error = AppLifeError msgCyclic) /\
  (forall l acc s r s', Resolves l acc s r s' ->
     (forall D, D ∈ l -> V D) -> (forall X, V X -> X ∈ declared s) ->
     forall error, r = Throw error -> error = AppLifeError msgCyclic).
Proof.
  intros Hclosed Hrel. apply Registers_Resolves_ind.
  - intros C s i Hi HV Hd error [=].
  - intros C s Hi Hreg HV Hd error [= <-]. done.
  - intros C s error s2 Hi Hreg Hres IH HV Hd error' [= <-].
    apply IH; [|done|done]. intros D HD. by apply (Hclosed C).
  - intros C s deps s2 error Hi Hreg Hres IH Hnew HV Hd error' _.
    destruct (proj1 (Hrel C HV) s2 deps) as [i Hi']. congruence.
  - intros C s deps s2 i hook error Hi Hreg Hres IH Hnew Hinit Hhook HV Hd
      error' _.
    rewrite (proj2 (Hrel C HV) hook _ i Hinit) in Hhook. done.
  - intros C s deps s2 i s3 Hi Hreg Hres IH Hnew Hinit HV Hd error [=].
  - intros acc s HV Hd error [=].
  - intros dep rest acc s Hhas HV Hd error _.
    assert (dep ∈ declared s) as Hdep by (apply Hd, HV; left).
    apply registry_has_declared in Hdep. congruence.
  - intros dep rest acc s error s1 Hhas Hreg IH HV Hd error' [= <-].
    apply IH; [apply HV; left|done|done].
  - intros dep rest acc s i s1 r s2 Hhas Hreg IH1 Hres IH2 HV Hd error ->.
    apply Registers_frame in Hreg.
    apply IH2; [|intros X HX; by eapply declared_same; [|apply Hd]|done].
    intros D HD. apply HV. by right.
Qed.

Lemma registerAll_only_cyclic_within (V : Ident -> Prop) fuel C post pre :
  (forall X Y, V X -> depends X Y -> V Y) ->
  (forall X, V X -> reliable X) ->
  V C ->
  forall s error s',
    registerAll fuel (pre ++ C :: post) s = Some (Throw error, s') ->
    (forall X, X ∈ pre -> V X) ->
    (forall X, V X -> X ∈ declared s) ->
    error = AppLifeError msgCyclic \/
    exists i, controllerInstances s' !! C = Some i.
Proof.
  intros Hclosed Hrel HC.
  induction pre as [|D pre IH]; intros s error s' H HV Hd; cbn [app] in H;
    apply registerAll_cons in H as (r1 & s1 & H1 & H).
  - destruct r1 as [i|error1].
    + right. exists i.
      apply registerController_sound, Registers_Return in H1 as [Hi _].
      apply registerAll_phase in H as [(_ & Hkept & _) _]. by apply Hkept.
    + injection H as -> ->. left. apply registerController_sound in H1.
      by eapply (proj1 (Registers_Resolves_only_cyclic_within V Hclosed Hrel)).
  - apply registerController_sound in H1. destruct r1 as [i|error1].
    + apply Registers_frame in H1.
      eapply IH; [exact H|intros X HX; apply HV; by right|].
      intros X HX. eapply declared_same; [done|by apply Hd].
    + injection H as -> ->. left.
      eapply (proj1 (Registers_Resolves_only_cyclic_within V Hclosed Hrel));
        [exact H1| |done|done].
      apply HV. left.
Qed.

(** Within a set of declared classes that holds its own dependencies, a
    resolution fails with the cyclic-dependency error or with what user
    code threw. *)
Lemma Registers_Resolves_error_within (V : Ident -> Prop) :
  (forall X Y, V X -> depends X Y -> V Y) ->
  (forall C s r s', Registers C s r s' ->
     V C -> (forall X, V X -> X ∈ declared s) ->
     forall error, r = Throw error ->
       error = AppLifeError msgCyclic \/ user_error s s' error) /\
  (forall l acc s r s', Resolves l acc s r s' ->
     (forall D, D ∈ l -> V D) -> (forall X, V X -> X ∈ declared s) ->
     forall error, r = Throw error ->
       error = AppLifeError msgCyclic \/ user_error s s' error).
Proof.
  intros Hclosed. apply Registers_Resolves_ind.
  - intros C s i Hi HV Hd error [=].
  - intros C s Hi Hreg HV Hd error [= <-]. by left.
  - intros C s error s2 Hi Hreg Hres IH HV Hd error' [= <-].
    apply IH; [|done|done]. intros D HD. by apply (Hclosed C).
  - intros C s deps s2 error Hi Hreg Hres IH Hnew HV Hd error' [= <-].
    right. apply Resolves_history in Hres as [t Ht]. cbn in Ht.
    exists (t ++ [EvNew C deps (inl error);
                  EvConsole LError
                    [ArgText "[AppLife]: "; ArgText "Error in constructor:";
                     ArgError error]]), C, (EvNew C deps (inl error)).
    split; [cbn; by rewrite Ht, <- !(assoc_L (++))|].
    split; [set_solver|]. left. by eexists.
  - intros C s deps s2 i hook error Hi Hreg Hres IH Hnew Hinit Hhook HV Hd
      error' [= <-].
    right. apply Resolves_history in Hres as [t Ht]. cbn in Ht.
    exists (t ++ [EvNew C deps (inr i); EvOnInit C (Some error);
                  EvConsole LError
                    [ArgText "[AppLife]: "; ArgText "Error in OnInit:";
                     ArgError error]]), C, (EvOnInit C (Some error)).
    split; [cbn; by rewrite Ht, <- !(assoc_L (++))|].
    split; [set_solver|]. by right.
  - intros C s deps s2 i s3 Hi Hreg Hres IH Hnew Hinit HV Hd error [=].
  - intros acc s HV Hd error [=].
  - intros dep rest acc s Hhas HV Hd error _.
    assert (dep ∈ declared s) as Hdep by (apply Hd, HV; left).
    apply registry_has_declared in Hdep. congruence.
  - intros dep rest acc s error s1 Hhas Hreg IH HV Hd error' [= <-].
    apply IH; [apply HV; left|done|done].
  - intros dep rest acc s i s1 r s2 Hhas Hreg IH1 Hres IH2 HV Hd error ->.
    pose proof (Registers_history _ _ _ _ Hreg) as Hh.
    apply Registers_frame in Hreg.
    destruct (IH2 (fun D HD => HV D (list_elem_of_further _ _ _ HD))
                (fun X HX => declared_same s s1 X Hreg (Hd X HX))
                error eq_refl) as [H|H]; [by left|].
    right. by eapply user_error_trans.
Qed.

Lemma registerAll_error_within (V : Ident -> Prop) fuel C post pre :
  (forall X Y, V X -> depends X Y -> V Y) ->
  V C ->
  forall s error s',
    registerAll fuel (pre ++ C :: post) s = Some (Throw error, s') ->
    (forall X, X ∈ pre -> V X) ->
    (forall X, V X -> X ∈ declared s) ->
    error = AppLifeError msgCyclic \/
    user_error s s' error \/
    exists i, controllerInstances s' !! C = Some i.
Proof.
  intros Hclosed HC.
  induction pre as [|D pre IH]; intros s error s' H HV Hd; cbn [app] in H;
    apply registerAll_cons in H as (r1 & s1 & H1 & H).
  - destruct r1 as [i|error1].
    + right. right. exists i.
      apply registerController_sound, Registers_Return in H1 as [Hi _].
      apply registerAll_phase in H as [(_ & Hkept & _) _]. by apply Hkept.
    + injection H as -> ->. apply registerController_sound in H1.
      destruct (proj1 (Registers_Resolves_error_within V Hclosed)
                  _ _ _ _ H1 HC Hd error1 eq_refl); auto.
  - apply registerController_sound in H1. destruct r1 as [i|error1].
    + pose proof (Registers_history _ _ _ _ H1) as Hh.
      apply Registers_frame in H1.
      destruct (IH _ _ _ H) as [H'|[H'|H']]; auto.
      * intros X HX. apply HV. by right.
      * intros X HX. eapply declared_same; [done|by apply Hd].
      * right. left. by eapply user_error_trans.
    + injection H as -> ->.
      destruct (proj1 (Registers_Resolves_error_within V Hclosed)
                  _ _ _ _ H1 (HV D ltac:(left)) Hd error1 eq_refl); auto.
Qed.

Lemma grounded_rtc C X : grounded C -> rtc depends C X -> grounded X.
Proof.
  intros Hg Hrtc. induction Hrtc as [|C Y X HCY _ IH]; [done|].
  apply IH. destruct Hg as [C Hall]. by apply Hall.
Qed.

Lemma stored_leads_nowhere s C i :
  table_ok s -> controllerInstances s !! C = Some i -> ~ leads_to_cycle C.
Proof.
  intros Hok Hi (X & Hrtc & Hcycle).
  destruct (Hok C) as (_ & Hg & _); [by apply elem_of_dom|].
  apply (grounded_not_on_cycle X); [by apply (grounded_rtc C)|done].
Qed.

(** What makes the error of a failed [Start] the cyclic one, and what it
    can be otherwise. *)
Lemma Start_error s error s' :
  reachable s ->
  Start s = Some (Throw error, s') ->
  (forall pre C post,
     sortedControllers s = pre ++ C :: post ->
     leads_to_cycle C ->
     self_contained s (pre ++ [C]) ->
     error = AppLifeError msgCyclic) /\
  (forall pre C post,
     sortedControllers s = pre ++ C :: post ->
     leads_to_cycle C ->
     all_declared s (pre ++ [C]) ->
     error = AppLifeError msgCyclic \/ user_error s s' error) /\
  (error = AppLifeError msgCyclic \/
   undeclared_dependency_error s error \/
   user_error s s' error).
Proof.
  intros Hreach HS.
  assert (reachable s') as Hreach' by (by eapply reachable_Start).
  apply reachable_invariant in Hreach' as (Htab' & _).
  destruct (Start_anatomy _ _ _ HS)
    as (r1 & s1 & t1 & t2 & H1 & _ & (Hsr & Hsi & _) & Hh & Hr).
  destruct r1 as [[]|error1]; [by destruct Hr|].
  destruct Hr as [[= ->] ->]. rewrite (right_id_L [] (++)) in Hh.
  destruct (announce_tables s) as (Har & Hai & Hal & Hag & Hast).
  destruct (announce_history s) as (t0 & Hh0 & _).
  split; [|split].
  - intros pre C post Hsorted Hlead Hself. rewrite Hsorted in H1.
    set (V := fun X => exists C', C' ∈ pre ++ [C] /\ rtc depends C' X).
    assert (forall X Y, V X -> depends X Y -> V Y) as HVc.
    { intros X Y (C' & HC' & Hrtc) HXY. exists C'. split; [done|].
      by eapply rtc_r. }
    assert (forall X, V X -> reliable X) as HVr.
    { intros X (C' & HC' & Hrtc). by apply (Hself C' X). }
    assert (V C) as HVC by (exists C; split; [set_solver|done]).
    destruct (registerAll_only_cyclic_within V _ C post pre HVc HVr HVC
                _ _ _ H1) as [H|[i Hi]].
    + intros X HX. exists X. split; [set_solver|done].
    + intros X (C' & HC' & Hrtc). rewrite declared_announce.
      by apply (Hself C' X).
    + done.
    + rewrite <- Hsi in Hi. by destruct (stored_leads_nowhere s' C i).
  - intros pre C post Hsorted Hlead Hself. rewrite Hsorted in H1.
    set (V := fun X => exists C', C' ∈ pre ++ [C] /\ rtc depends C' X).
    assert (forall X Y, V X -> depends X Y -> V Y) as HVc.
    { intros X Y (C' & HC' & Hrtc) HXY. exists C'. split; [done|].
      by eapply rtc_r. }
    assert (V C) as HVC by (exists C; split; [set_solver|done]).
    destruct (registerAll_error_within V _ C post pre HVc HVC _ _ _ H1)
      as [H|[H|[i Hi]]].
    + intros X HX. exists X. split; [set_solver|done].
    + intros X (C' & HC' & Hrtc). rewrite declared_announce.
      by apply (Hself C' X).
    + by left.
    + right. eapply user_error_trans; [by exists t0|].
      eapply user_error_later; [exact H|]. exists [].
      by rewrite Hh, (right_id_L [] (++)).
    + rewrite <- Hsi in Hi. by destruct (stored_leads_nowhere s' C i).
  - destruct (registerAll_error _ _ _ _ _ H1) as [H|[H|H]].
    + intros C. rewrite declared_announce. apply sortedControllers_declared.
    + by left.
    + right. left. by eapply undeclared_dependency_error_same.
    + right. right. eapply user_error_trans; [by exists t0|].
      eapply user_error_later; [exact H|]. exists [].
      by rewrite Hh, (right_id_L [] (++)).
Qed.

(** ** Overlapping calls *)

Lemma same_registry_refl s : same_registry s s.
Proof. by split. Qed.

Lemma same_registry_trans s1 s2 s3 :
  same_registry s1 s2 -> same_registry s2 s3 -> same_registry s1 s3.
Proof. unfold same_registry. intuition congruence. Qed.

Lemma own_ok_cons C own s : own_ok (C :: own) s -> own_ok own s.
Proof.
  intros [Hnd Hst]. split; [by apply NoDup_cons in Hnd as [_ ?]|].
  intros X HX. apply Hst. by right.
Qed.

Lemma own_ok_head C own s : own_ok (C :: own) s -> stuck C s /\ C ∉ own.
Proof.
  intros [Hnd Hst]. split; [apply Hst; left|].
  by apply NoDup_cons in Hnd as [? _].
Qed.

Lemma own_ok_impl own s s' :
  (forall X, X ∈ own -> stuck X s -> stuck X s') -> own_ok own s -> own_ok own s'.
Proof. intros H [Hnd Hst]. split; [done|]. intros X HX. by apply H, Hst. Qed.

Lemma instances_kept_finish C i s :
  controllerInstances s !! C = None -> instances_kept s (finish C i s).
Proof.
  intros Hi X j HX. cbn. rewrite lookup_insert_ne; [done|]. congruence.
Qed.

(** The first clauses of [stretch], when the tables are not touched. *)
Ltac quiet_stretch :=
  split; [by split|]; split; [by intros ??|]; split; [done|].

Lemma instantiate_stretch C deps stack rest sorted s t s' :
  instantiate C deps stack rest sorted s = (t, s') ->
  own_ok (C :: map frameClass stack) s ->
  stretch (C :: map frameClass stack) rest s t s'.
Proof.
  intros H Hown. destruct (own_ok_head _ _ _ Hown) as [HC HCs].
  pose proof (own_ok_cons _ _ _ Hown) as Hstack.
  unfold instantiate in H.
  destruct (construct (classes C) s deps) as [error|i].
  - injection H as <- <-. quiet_stretch.
    split; [|split; [|split]].
    + intros X HX Hno. split; [by apply stuck_consoleError, stuck_record|].
      intros HX'. apply Hno. by right.
    + eapply own_ok_impl; [|exact Hstack].
      intros X _ HX. by apply stuck_consoleError, stuck_record.
    + done.
    + intros C' error' stack' rest' sorted' [= <- <- <- <- <-].
      split; [by apply stuck_consoleError, stuck_record|].
      intros _. split; [done|]. left. left.
  - destruct (onInit (classes C)) as [hook|].
    + injection H as <- <-. quiet_stretch.
      split; [|split; [|split]].
      * intros X HX Hno. split; [by do 2 apply stuck_record|done].
      * eapply own_ok_impl; [|exact Hown].
        intros X _ HX. by do 2 apply stuck_record.
      * done.
      * intros C' error' stack' rest' sorted' [=].
    + injection H as <- <-. split; [done|]. split; [|split; [done|]].
      { eapply instances_kept_trans; [|apply instances_kept_finish; apply HC].
        by intros ??. }
      split; [|split; [|split]].
      * intros X HX Hno. split.
        -- apply stuck_finish; [|by apply stuck_record].
           intros ->. apply Hno. left.
        -- intros HX'. apply Hno. by right.
      * eapply own_ok_impl; [|exact Hstack].
        intros X HX HX'. apply stuck_finish; [|by apply stuck_record].
        by intros ->.
      * done.
      * intros C' error' stack' rest' sorted' [=].
Qed.

Lemma resolveNext_stretch rec C paramTypes deps stack rest sorted s t s' :
  (forall D stack rest sorted s t s',
     rec D stack rest sorted s = Some (t, s') ->
     own_ok (map frameClass stack) s ->
     stretch (map frameClass stack) rest s t s') ->
  resolveNext rec C paramTypes deps stack rest sorted s = Some (t, s') ->
  own_ok (C :: map frameClass stack) s ->
  stretch (C :: map frameClass stack) rest s t s'.
Proof.
  intros Hrec H Hown. destruct paramTypes as [|dep paramTypes']; cbn in H.
  - injection H as H. by eapply instantiate_stretch.
  - destruct (registry_has dep (controllerRegistry s)).
    + by apply Hrec in H.
    + injection H as <- <-.
      destruct (own_ok_head _ _ _ Hown) as [HC HCs].
      quiet_stretch.
      split; [|split; [|split]].
      * intros X HX Hno. split; [done|]. intros HX'. apply Hno. by right.
      * by eapply own_ok_cons.
      * done.
      * intros C' error' stack' rest' sorted' [= <- <- <- <- <-].
        split; [done|]. intros _. split; [done|]. left. left.
Qed.

Lemma callRegisterController_stretch fuel :
  forall C stack rest sorted s t s',
    callRegisterController fuel C stack rest sorted s = Some (t, s') ->
    own_ok (map frameClass stack) s ->
    stretch (map frameClass stack) rest s t s'.
Proof.
  induction fuel as [|fuel IH]; intros C stack rest sorted s t s' H Hown;
    [done|].
  cbn [callRegisterController] in H.
  destruct (controllerInstances s !! C) as [i|] eqn:Hi.
  { injection H as <- <-. quiet_stretch.
    split; [by intros X HX Hno|]. split; [done|]. split; [done|].
    intros C' error' stack' rest' sorted' [=]. }
  case_bool_decide as Hreg.
  { injection H as <- <-. quiet_stretch.
    split; [by intros X HX Hno|]. split; [done|]. split; [done|].
    intros C' error' stack' rest' sorted' [= <- <- <- <- <-].
    split; [by split|]. done. }
  assert (C ∉ map frameClass stack) as HCs.
  { intros HC. by destruct (proj2 Hown C HC). }
  eapply resolveNext_stretch in H; [|exact IH|].
  - destruct H as (Hsame & Hkept & Hstarted & Horphan & Hown' & Hrest & Hrej).
    split; [exact Hsame|]. split; [exact Hkept|]. split; [exact Hstarted|].
    split; [|split; [done|split; [done|]]].
    + intros X HX Hno. apply Horphan; [by apply stuck_begin|].
      intros [->|HX']%elem_of_cons; [by destruct HX|done].
    + intros C' error' stack' rest' sorted' Heq.
      destruct (Hrej _ _ _ _ _ Heq) as [Hst Hne]. split; [done|].
      intros Herr. destruct (Hne Herr) as [Hno [Hin|Hin]].
      * split; [done|]. apply elem_of_cons in Hin as [->|Hin]; [by right|by left].
      * split; [done|]. right. cbn in Hin. set_solver.
  - split.
    + apply NoDup_cons. split; [done|apply Hown].
    + intros X [->|HX]%elem_of_cons.
      * split; cbn; [set_solver|done].
      * by apply stuck_begin, Hown.
Qed.

Lemma stretch_nil_rest own rest rest' s t s' :
  (forall X, X ∈ rest -> X ∈ rest') ->
  stretch own rest s t s' -> stretch own rest' s t s'.
Proof.
  intros Hsub (? & ? & ? & ? & ? & Hrest & ?).
  repeat (split; [done|]). split; [|done]. intros X HX. by apply Hsub, Hrest.
Qed.

Lemma startNext_stretch fuel rest sorted s t s' :
  startNext fuel rest sorted s = Some (t, s') ->
  stretch [] rest s t s'.
Proof.
  intros H. destruct rest as [|C rest']; cbn in H.
  - destruct (collectStartPromises_spec sorted [] s)
      as (ps & s1 & tr & Hc & (Hr & Hi & Hl & Hg & Hst) & _).
    rewrite Hc in H. injection H as <- <-.
    split; [done|]. split; [by intros ??; rewrite Hi|].
    split; [by rewrite Hst|]. split; [|split; [|split]].
    + intros X [HX HX'] _. split; [|by intros ?%elem_of_nil].
      split; [by rewrite Hg|by rewrite Hi].
    + split; [constructor|]. by intros X HX%elem_of_nil.
    + by intros X HX%elem_of_nil.
    + intros C' error' stack' rest' sorted' [=].
  - eapply stretch_nil_rest;
      [|eapply (callRegisterController_stretch _ _ []); [exact H|]].
    + intros X HX. by right.
    + split; [constructor|]. by intros X HX%elem_of_nil.
Qed.

Lemma callStart_announce fuel s :
  callStart fuel s
  = startNext fuel (sortedControllers (announce s))
      (sortedControllers (announce s)) (announce s).
Proof. reflexivity. Qed.

Lemma callStart_stretch fuel s t s' :
  callStart fuel s = Some (t, s') ->
  stretch [] (sortedControllers s) s t s' /\ started s' = true.
Proof.
  rewrite callStart_announce, sortedControllers_announce.
  intros (Hsame & Hkept & Hstarted & Horphan & Hown & Hrest & Hrej)
           %startNext_stretch.
  destruct (announce_tables s) as (Har & Hai & Hal & Hag & Hast).
  split; [|by apply Hstarted]. split; [|split; [|split; [|split]]].
  - destruct Hsame as [H1 H2]. split; congruence.
  - intros X i HX. apply Hkept. by rewrite Hai.
  - intros _. by apply Hstarted.
  - intros X [HX HX'] Hno. apply Horphan; [|done].
    split; [by rewrite Hag|by rewrite Hai].
  - split; [done|]. split; [done|].
    intros C error stack rest' sorted Heq.
    destruct (Hrej _ _ _ _ _ Heq) as [Hst Hne]. split; [done|].
    intros Herr. destruct (Hne Herr) as [Hno [Hin|Hin]]; split; try done.
    + by left.
    + right. by rewrite <- Hag.
Qed.

Lemma resume_stretch fuel t0 s t s' :
  resume fuel t0 s = Some (t, s') ->
  own_ok (suspended t0) s ->
  stretch (suspended t0) (remaining t0) s t s'.
Proof.
  intros H Hown.
  destruct t0 as [X [i|error] [|frame stack] rest sorted
                 |C i [error|] stack rest sorted
                 |[|[[error|] instance] ps]
                 |r]; cbn in H; cbn [suspended remaining] in *.
  - by eapply startNext_stretch.
  - eapply resolveNext_stretch; [|exact H|exact Hown].
    apply callRegisterController_stretch.
  - injection H as <- <-. quiet_stretch.
    split; [by intros ?? _; split; [|intros ?%elem_of_nil]|].
    split; [done|]. split; [by intros ? ?%elem_of_nil|].
    intros C' error' stack' rest' sorted' [=].
  - injection H as <- <-. destruct (own_ok_head _ _ _ Hown) as [HC HCs].
    quiet_stretch.
    split; [|split; [|split]].
    + intros Y HY Hno. split; [done|]. intros HY'. apply Hno. by right.
    + by eapply own_ok_cons.
    + done.
    + intros C' error' stack' rest' sorted' [= <- <- <- <- <-].
      split; [done|]. intros _. split; [done|]. left. left.
  - injection H as <- <-. destruct (own_ok_head _ _ _ Hown) as [HC HCs].
    quiet_stretch.
    split; [|split; [|split]].
    + intros Y HY Hno. split; [by apply stuck_consoleError|].
      intros HY'. apply Hno. by right.
    + eapply own_ok_impl; [|by eapply own_ok_cons].
      intros Y _ HY. by apply stuck_consoleError.
    + done.
    + intros C' error' stack' rest' sorted' [= <- <- <- <- <-].
      split; [by apply stuck_consoleError|]. intros _. split; [done|]. left. left.
  - injection H as <- <-. destruct (own_ok_head _ _ _ Hown) as [HC HCs].
    split; [done|]. split; [apply instances_kept_finish, HC|]. split; [done|].
    split; [|split; [|split]].
    + intros Y HY Hno. split.
      * apply stuck_finish; [|done]. intros ->. apply Hno. left.
      * intros HY'. apply Hno. by right.
    + eapply own_ok_impl; [|by eapply own_ok_cons].
      intros Y HY HY'. apply stuck_finish; [|done]. by intros ->.
    + done.
    + intros C' error' stack' rest' sorted' [=].
  - injection H as <- <-. quiet_stretch.
    split; [by intros ?? _; split; [|intros ?%elem_of_nil]|].
    split; [done|]. split; [done|]. intros C' error' stack' rest' sorted' [=].
  - injection H as <- <-. quiet_stretch.
    split; [by intros ?? _; split; [apply stuck_record|intros ?%elem_of_nil]|].
    split; [done|]. split; [done|]. intros C' error' stack' rest' sorted' [=].
  - injection H as <- <-. quiet_stretch.
    split; [by intros ?? _; split; [|intros ?%elem_of_nil]|].
    split; [done|]. split; [done|]. intros C' error' stack' rest' sorted' [=].
  - done.
Qed.

(** Only declared controllers get in flight. *)

Lemma inflight_ok_same s s' :
  controllerRegistry s' = controllerRegistry s ->
  registeringControllers s' ⊆ registeringControllers s ->
  inflight_ok s -> inflight_ok s'.
Proof. unfold inflight_ok, declared. intros -> ??. set_solver. Qed.

Lemma instantiate_inflight C deps stack rest sorted s t s' :
  instantiate C deps stack rest sorted s = (t, s') ->
  inflight_ok s -> inflight_ok s'.
Proof.
  unfold instantiate. destruct (construct (classes C) s deps) as [error|i].
  - intros [= _ <-]. by apply inflight_ok_same.
  - destruct (onInit (classes C)); intros [= _ <-]; apply inflight_ok_same;
      cbn; (done || set_solver).
Qed.

Lemma resolveNext_inflight rec C paramTypes deps stack rest sorted s t s' :
  (forall D stack rest sorted s t s',
     rec D stack rest sorted s = Some (t, s') ->
     D ∈ declared s -> inflight_ok s -> inflight_ok s') ->
  resolveNext rec C paramTypes deps stack rest sorted s = Some (t, s') ->
  inflight_ok s -> inflight_ok s'.
Proof.
  intros Hrec H Ho. destruct paramTypes as [|dep paramTypes']; cbn in H.
  - injection H as H. by eapply instantiate_inflight.
  - destruct (registry_has dep (controllerRegistry s)) eqn:Hhas.
    + eapply Hrec; [exact H| |done]. by apply registry_has_declared.
    + by injection H as _ <-.
Qed.

Lemma callRegisterController_inflight fuel :
  forall C stack rest sorted s t s',
    callRegisterController fuel C stack rest sorted s = Some (t, s') ->
    C ∈ declared s -> inflight_ok s -> inflight_ok s'.
Proof.
  induction fuel as [|fuel IH]; intros C stack rest sorted s t s' H Hd Ho;
    [done|].
  cbn [callRegisterController] in H.
  destruct (controllerInstances s !! C); [by injection H as _ <-|].
  case_bool_decide; [by injection H as _ <-|].
  eapply resolveNext_inflight; [exact IH|exact H|].
  unfold inflight_ok, declared in *. cbn. set_solver.
Qed.

Lemma startNext_inflight fuel rest sorted s t s' :
  startNext fuel rest sorted s = Some (t, s') ->
  (forall X, X ∈ rest -> X ∈ declared s) ->
  inflight_ok s -> inflight_ok s'.
Proof.
  intros H Hd Ho. destruct rest as [|C rest']; cbn in H.
  - destruct (collectStartPromises_spec sorted [] s)
      as (ps & s1 & tr & Hc & (Hr & Hi & Hl & Hg & Hst) & _).
    rewrite Hc in H. injection H as _ <-.
    apply (inflight_ok_same s); by rewrite ?Hg.
  - eapply callRegisterController_inflight; [exact H| |done]. apply Hd. left.
Qed.

Lemma resume_inflight fuel t0 s t s' :
  resume fuel t0 s = Some (t, s') ->
  (forall X, X ∈ remaining t0 -> X ∈ declared s) ->
  inflight_ok s -> inflight_ok s'.
Proof.
  intros H Hd Ho.
  destruct t0 as [X [i|error] [|frame stack] rest sorted
                 |C i [error|] stack rest sorted
                 |[|[[error|] instance] ps]
                 |r]; cbn in H; cbn [remaining] in Hd;
    try done; try (by injection H as _ <-).
  - by eapply startNext_inflight.
  - eapply resolveNext_inflight; [|exact H|done].
    apply callRegisterController_inflight.
  - injection H as _ <-. apply (inflight_ok_same s); cbn; [done|set_solver|done].
Qed.

(** The tasks of a configuration. *)

Lemma suspended_in_middle pool1 t pool2 :
  suspended_in (pool1 ++ t :: pool2)
  = suspended_in pool1 ++ suspended t ++ suspended_in pool2.
Proof. unfold suspended_in. by rewrite bind_app, bind_cons. Qed.

Lemma suspended_in_snoc pool t :
  suspended_in (pool ++ [t]) = suspended_in pool ++ suspended t ++ [].
Proof. by rewrite suspended_in_middle. Qed.

Lemma own_ok_middle S1 own S2 s :
  own_ok (S1 ++ own ++ S2) s ->
  own_ok own s /\
  forall X, X ∈ S1 ++ S2 -> stuck X s /\ X ∉ own.
Proof.
  intros [Hnd Hst]. apply NoDup_app in Hnd as (H1 & H12 & Hnd).
  apply NoDup_app in Hnd as (H2 & H23 & H3). split; [split|].
  - done.
  - intros X HX. apply Hst. set_solver.
  - intros X HX. split; [apply Hst; set_solver|].
    intros Hown. apply elem_of_app in HX as [HX|HX].
    + apply (H12 X HX). set_solver.
    + by apply (H23 X Hown).
Qed.

Lemma own_ok_replace S1 own S2 T s s' :
  own_ok (S1 ++ own ++ S2) s ->
  own_ok T s' ->
  (forall X, stuck X s -> X ∉ own -> stuck X s' /\ X ∉ T) ->
  own_ok (S1 ++ T ++ S2) s'.
Proof.
  intros Hown [HT HTs] Hother.
  destruct (own_ok_middle _ _ _ _ Hown) as [_ Hrest].
  destruct Hown as [Hnd _]. apply NoDup_app in Hnd as (H1 & H12 & Hnd).
  apply NoDup_app in Hnd as (_ & _ & H3).
  assert (forall X, X ∈ S1 ++ S2 -> stuck X s' /\ X ∉ T) as Hrest'.
  { intros X HX. destruct (Hrest X HX). by apply Hother. }
  split.
  - apply NoDup_app. split; [done|]. split.
    + intros X HX [HX'|HX']%elem_of_app.
      * destruct (Hrest' X); [set_solver|done].
      * apply (H12 X HX). set_solver.
    + apply NoDup_app. split; [done|]. split; [|done].
      intros X HX HX'. destruct (Hrest' X); [set_solver|done].
  - intros X [HX|[HX|HX]%elem_of_app]%elem_of_app.
    + apply Hrest'. set_solver.
    + by apply HTs.
    + apply Hrest'. set_solver.
Qed.

Lemma declared_same_registry s s' :
  same_registry s s' -> declared s' = declared s.
Proof. unfold declared. by intros [-> _]. Qed.

Lemma runs_tasks_ok cfg t cfg' : runs cfg t cfg' -> tasks_ok cfg -> tasks_ok cfg'.
Proof.
  intros [fuel s pool t1 s' H|fuel s pool1 t0 pool2 t1 s' H]
    (Hown & Hin & Hrem); unfold tasks_ok; cbn [fst snd] in *.
  - assert (forall X, X ∈ remaining t1 -> X ∈ declared s') as Hrem'.
    { rewrite callStart_announce in H.
      apply startNext_stretch in H as (Hsame & _ & _ & _ & _ & Hrest & _).
      intros X HX. rewrite (declared_same_registry _ _ Hsame), declared_announce.
      apply sortedControllers_declared. rewrite <- sortedControllers_announce.
      by apply Hrest. }
    assert (inflight_ok s') as Hin'.
    { rewrite callStart_announce in H.
      eapply startNext_inflight; [exact H| |].
      - intros X. rewrite sortedControllers_announce, declared_announce.
        apply sortedControllers_declared.
      - destruct (announce_tables s) as (Har & _ & _ & Hag & _).
        apply (inflight_ok_same s); [done|by rewrite Hag|done]. }
    apply callStart_stretch in H
      as [(Hsame & _ & _ & Horphan & Hown' & _ & _) _].
    split; [|split; [done|]].
    + rewrite suspended_in_snoc.
      eapply own_ok_replace; [|exact Hown'|exact Horphan].
      by rewrite !(right_id_L [] (++)).
    + intros t' X [Ht'| ->%list_elem_of_singleton]%elem_of_app; [|by apply Hrem'].
      rewrite (declared_same_registry _ _ Hsame). by apply Hrem.
  - rewrite suspended_in_middle in Hown.
    destruct (own_ok_middle _ _ _ _ Hown) as [Hown0 _].
    assert (forall X, X ∈ remaining t0 -> X ∈ declared s) as Hrem0.
    { intros X. apply Hrem. set_solver. }
    pose proof (resume_inflight _ _ _ _ _ H Hrem0 Hin) as Hin'.
    apply resume_stretch in H
      as (Hsame & _ & _ & Horphan & Hown' & Hrest & _); [|done].
    split; [|split; [done|]].
    + rewrite suspended_in_middle. by eapply own_ok_replace.
    + intros t' X Ht' HX. rewrite (declared_same_registry _ _ Hsame).
      apply elem_of_app in Ht' as [Ht'|[->|Ht']%elem_of_cons].
      * apply (Hrem t'); [set_solver|done].
      * by apply Hrem0, Hrest.
      * apply (Hrem t'); [set_solver|done].
Qed.

Lemma async_step_tasks_ok cfg cfg' :
  async_step cfg cfg' -> tasks_ok cfg -> tasks_ok cfg'.
Proof.
  intros [options target s r s' pool H|C s r s' pool H|cfg0 t cfg0' H].
  - pose proof (Controller_grows _ _ _ _ _ H) as Hd.
    rewrite Controller_spec in H.
    destruct (registry_has _ _); injection H as _ <-; [done|].
    intros (Hown & Hin & Hrem). split; [done|]. split.
    + unfold inflight_ok in *. cbn. etrans; [exact Hin|exact Hd].
    + intros t X Ht HX. by apply Hd, (Hrem t).
  - rewrite Dependency_spec in H. by injection H as _ <-.
  - by eapply runs_tasks_ok.
Qed.

Lemma rtc_async_step_tasks_ok cfg cfg' :
  rtc async_step cfg cfg' -> tasks_ok cfg -> tasks_ok cfg'.
Proof. induction 1; eauto using async_step_tasks_ok. Qed.

Lemma async_reachable_tasks_ok cfg : async_reachable cfg -> tasks_ok cfg.
Proof.
  intros H. eapply rtc_async_step_tasks_ok; [exact H|].
  split; [|split].
  - split; [constructor|]. by intros X HX%elem_of_nil.
  - by intros X HX%elem_of_empty.
  - by intros t X Ht%elem_of_nil.
Qed.

(** A class that is in flight with no call suspended stays so. *)

Lemma going_in_middle pool1 t pool2 :
  going_in (pool1 ++ t :: pool2) = going_in pool1 ++ going t ++ going_in pool2.
Proof. unfold going_in. by rewrite bind_app, bind_cons. Qed.

Lemma going_suspended t X : X ∈ going t -> X ∈ suspended t.
Proof.
  destruct t as [? [?|?] ? ? ?|? ? [?|] ? ? ?| |]; cbn [going];
    (done || by intros ?%elem_of_nil).
Qed.

Lemma going_in_suspended_in pool X : X ∈ going_in pool -> X ∈ suspended_in pool.
Proof.
  unfold going_in, suspended_in. rewrite !list_elem_of_bind.
  intros (t & HX & Ht). exists t. split; [by apply going_suspended|done].
Qed.

(** A task whose innermost call has failed goes on failing. *)
Lemma resume_failing A fuel t0 s t s' :
  resume fuel t0 s = Some (t, s') ->
  A ∈ suspended t0 -> A ∉ going t0 ->
  stuck A s -> stuck A s' /\ going t = [].
Proof.
  intros H Hs Hg Hst.
  destruct t0 as [X [i|error] [|frame stack] rest sorted
                 |C i [error|] stack rest sorted
                 |[|[[error|] instance] ps]
                 |r]; cbn [going suspended] in Hs, Hg;
    try done; try (by apply elem_of_nil in Hs); cbn in H.
  - by injection H as <- <-.
  - injection H as <- <-. split; [by apply stuck_consoleError|done].
Qed.

Lemma runs_orphan A cfg t cfg' :
  runs cfg t cfg' -> tasks_ok cfg -> orphan A cfg -> orphan A cfg'.
Proof.
  intros [fuel s pool t1 s' H|fuel s pool1 t0 pool2 t1 s' H]
    (Hown & _) [Hst Hno]; unfold orphan; cbn [fst snd] in *.
  - apply callStart_stretch in H as [(_ & _ & _ & Horphan & _) _].
    destruct (Horphan A Hst) as [Hst' Hno']; [by intros ?%elem_of_nil|].
    split; [done|]. rewrite going_in_middle.
    intros [HA|[HA%going_suspended|HA%elem_of_nil]%elem_of_app]%elem_of_app;
      done.
  - rewrite suspended_in_middle in Hown. rewrite going_in_middle in Hno.
    destruct (own_ok_middle _ _ _ _ Hown) as [Hown0 _].
    assert (stuck A s' /\ A ∉ going t1) as [Hst' Hno'].
    { destruct (decide (A ∈ suspended t0)) as [Hin|Hout].
      - destruct (resume_failing A _ _ _ _ _ H Hin) as [? Hg];
          [set_solver|done|].
        split; [done|]. rewrite Hg. by intros ?%elem_of_nil.
      - apply resume_stretch in H as (_ & _ & _ & Horphan & _); [|done].
        destruct (Horphan A Hst Hout) as [? Hno'].
        split; [done|]. by intros ?%going_suspended. }
    split; [done|]. rewrite going_in_middle. set_solver.
Qed.

Lemma async_step_orphan A cfg cfg' :
  async_step cfg cfg' -> tasks_ok cfg -> orphan A cfg -> orphan A cfg'.
Proof.
  intros [options target s r s' pool H|C s r s' pool H|cfg0 t cfg0' H].
  - rewrite Controller_spec in H.
    by destruct (registry_has _ _); injection H as _ <-.
  - rewrite Dependency_spec in H. by injection H as _ <-.
  - by eapply runs_orphan.
Qed.

Lemma rtc_async_step_orphan A cfg cfg' :
  rtc async_step cfg cfg' -> tasks_ok cfg -> orphan A cfg -> orphan A cfg'.
Proof.
  induction 1 as [|cfg1 cfg2 cfg3 H12 _ IH]; [done|]. intros Hok Ho.
  apply IH; [by eapply async_step_tasks_ok|by eapply async_step_orphan].
Qed.

(** A failed [registerController] leaves its class in flight and, unless
    the cycle check is what failed, with no call suspended. *)
Lemma runs_rejected cfg C error stack rest sorted cfg' :
  runs cfg (AtAwait C (Throw error) stack rest sorted) cfg' ->
  tasks_ok cfg ->
  stuck C (fst cfg') /\
  (error <> AppLifeError msgCyclic -> C ∉ suspended_in (snd cfg')).
Proof.
  intros Hruns (Hown & _).
  inversion Hruns as [fuel s pool t1 s' H|fuel s pool1 t0 pool2 t1 s' H];
    subst; cbn [fst snd] in *.
  - apply callStart_stretch in H as [(_ & _ & _ & _ & _ & _ & Hrej) _].
    destruct (Hrej _ _ _ _ _ eq_refl) as [Hst Hne]. split; [done|].
    intros Herr. destruct (Hne Herr) as [Hno [Hin|Hin]];
      [by apply elem_of_nil in Hin|].
    cbn [fst snd]. rewrite suspended_in_snoc.
    intros [HC|[HC|HC%elem_of_nil]%elem_of_app]%elem_of_app; [|done|done].
    by destruct (proj2 Hown C HC).
  - rewrite suspended_in_middle in Hown.
    destruct (own_ok_middle _ _ _ _ Hown) as [Hown0 Hrest].
    apply resume_stretch in H as (_ & _ & _ & _ & _ & _ & Hrej); [|done].
    destruct (Hrej _ _ _ _ _ eq_refl) as [Hst Hne]. split; [done|].
    intros Herr. destruct (Hne Herr) as [Hno Hin].
    cbn [fst snd]. rewrite suspended_in_middle.
    intros [HC|[HC|HC]%elem_of_app]%elem_of_app; [|done|].
    + destruct (Hrest C) as [[HCr _] HCo]; [set_solver|]. by destruct Hin.
    + destruct (Hrest C) as [[HCr _] HCo]; [set_solver|]. by destruct Hin.
Qed.

Lemma callRegisterController_stuck fuel A stack rest sorted s :
  stuck A s ->
  callRegisterController (S fuel) A stack rest sorted s
  = Some (AtAwait A (Throw (AppLifeError msgCyclic)) stack rest sorted, s).
Proof.
  intros [Hreg Hi]. cbn [callRegisterController]. rewrite Hi.
  by rewrite bool_decide_eq_true_2.
Qed.

(** No stretch of a task touches the declarations. *)

Lemma instantiate_registry C deps stack rest sorted s t s' :
  instantiate C deps stack rest sorted s = (t, s') -> same_registry s s'.
Proof.
  unfold instantiate. destruct (construct (classes C) s deps) as [error|i].
  - by intros [= _ <-].
  - by destruct (onInit (classes C)); intros [= _ <-].
Qed.

Lemma resolveNext_registry rec C paramTypes deps stack rest sorted s t s' :
  (forall D stack rest sorted s t s',
     rec D stack rest sorted s = Some (t, s') -> same_registry s s') ->
  resolveNext rec C paramTypes deps stack rest sorted s = Some (t, s') ->
  same_registry s s'.
Proof.
  intros Hrec H. destruct paramTypes as [|dep paramTypes']; cbn in H.
  - injection H as H. by eapply instantiate_registry.
  - destruct (registry_has dep (controllerRegistry s)).
    + by eapply Hrec.
    + by injection H as _ <-.
Qed.

Lemma callRegisterController_registry fuel :
  forall C stack rest sorted s t s',
    callRegisterController fuel C stack rest sorted s = Some (t, s') ->
    same_registry s s'.
Proof.
  induction fuel as [|fuel IH]; intros C stack rest sorted s t s' H; [done|].
  cbn [callRegisterController] in H.
  destruct (controllerInstances s !! C); [by injection H as _ <-|].
  case_bool_decide; [by injection H as _ <-|].
  by eapply resolveNext_registry in H.
Qed.

Lemma startNext_registry fuel rest sorted s t s' :
  startNext fuel rest sorted s = Some (t, s') -> same_registry s s'.
Proof.
  intros H. destruct rest as [|C rest']; cbn in H.
  - destruct (collectStartPromises_spec sorted [] s)
      as (ps & s1 & tr & Hc & (Hr & Hi & Hl & Hg & Hst) & _).
    rewrite Hc in H. by injection H as _ <-.
  - by eapply callRegisterController_registry.
Qed.

Lemma resume_registry fuel t0 s t s' :
  resume fuel t0 s = Some (t, s') -> same_registry s s'.
Proof.
  intros H.
  destruct t0 as [X [i|error] [|frame stack] rest sorted
                 |C i [error|] stack rest sorted
                 |[|[[error|] instance] ps]
                 |r]; cbn in H;
    try done; try (by injection H as _ <-).
  - by eapply startNext_registry.
  - eapply resolveNext_registry; [|exact H].
    apply callRegisterController_registry.
Qed.

Lemma runs_registry cfg t cfg' :
  runs cfg t cfg' -> same_registry (fst cfg) (fst cfg').
Proof.
  intros [fuel s pool t1 s' H|fuel s pool1 t0 pool2 t1 s' H]; cbn [fst].
  - rewrite callStart_announce in H. apply startNext_registry in H as [H1 H2].
    destruct (announce_tables s) as (Har & _ & Hal & _). split; congruence.
  - by eapply resume_registry.
Qed.

Lemma entered_has target options s :
  entered target options s -> registry_has target (controllerRegistry s) = true.
Proof.
  intros [H _]. apply bool_decide_eq_true, elem_of_map_fst.
  exists options. by apply H.
Qed.

Lemma entered_same target options s s' :
  same_registry s s' -> entered target options s -> entered target options s'.
Proof. unfold entered. by intros [-> ->]. Qed.

Lemma Controller_entered options target s s' :
  Controller options target s = Some (Return tt, s') ->
  entered target options s'.
Proof.
  rewrite Controller_spec.
  destruct (registry_has target (controllerRegistry s)) eqn:Hhas; [done|].
  intros [= <-]. split; cbn; [|by rewrite lookup_insert_eq].
  intros o. rewrite elem_of_app, list_elem_of_singleton. split.
  - intros [H|[= ->]]; [|done].
    apply bool_decide_eq_false in Hhas. destruct Hhas.
    apply elem_of_map_fst. by exists o.
  - intros ->. by right.
Qed.

Lemma async_step_entered target options cfg cfg' :
  async_step cfg cfg' ->
  entered target options (fst cfg) -> entered target options (fst cfg').
Proof.
  intros [options' target' s r s' pool H|C s r s' pool H|cfg0 t cfg0' H] He;
    cbn [fst] in *.
  - rewrite Controller_spec in H.
    destruct (registry_has target' (controllerRegistry s)) eqn:Hhas;
      injection H as _ <-; [done|].
    assert (target' <> target) as Hne.
    { intros ->. by rewrite (entered_has _ _ _ He) in Hhas. }
    destruct He as [He1 He2]. split; cbn.
    + intros o. rewrite elem_of_app, list_elem_of_singleton, <- He1.
      split; [|by left]. intros [H|[= ? _]]; done.
    + by rewrite lookup_insert_ne.
  - rewrite Dependency_spec in H. by injection H as _ <-.
  - eapply entered_same; [|exact He]. by eapply runs_registry.
Qed.

Lemma rtc_async_step_entered target options cfg cfg' :
  rtc async_step cfg cfg' ->
  entered target options (fst cfg) -> entered target options (fst cfg').
Proof. induction 1; eauto using async_step_entered. Qed.

(** ** The claims *)

(** C1. In every reachable state, whenever the history records a call of
    the constructor of [A], every declared dependency [B] of [A] was stored in
    [controllerInstances] strictly earlier in the history; the load order
    plays no part.  A store of [B] comes right after the constructor of [B]
    and, when the class has one, its init hook have returned.  Moreover every
    stored controller has all its declared dependencies stored. *)
Theorem dependencies_are_initialized_first (s : State) :
  reachable s ->
  (forall pre A deps outcome post B,
     history s = pre ++ EvNew A deps outcome :: post ->
     depends A B ->
     EvSet B ∈ pre) /\
  (forall pre B post,
     history s = pre ++ EvSet B :: post ->
     exists pre' deps i, pre = pre' ++ ceremony B deps i) /\
  (forall A B,
     A ∈ dom (controllerInstances s) ->
     depends A B ->
     B ∈ dom (controllerInstances s)).
Proof.
  intros (Htab & (_ & Htime & Hset) & _)%reachable_invariant. split; [|split].
  - intros pre A deps outcome post B Hh HB. rewrite Hh in Htime.
    apply elem_of_stored.
    pose proof (timely_split _ _ _ _ _ _ Htime B HB) as Hin.
    by rewrite (left_id_L ∅ (∪)) in Hin.
  - intros pre B post Hh. by apply (Hset pre B post).
  - intros A B HA HB. by apply (Htab A HA).
Qed.

(** C2, as amended.  If a declared controller [A] depends on [B] and [B] on
    [A] (with [B = A] this is a self-cycle), [Start] throws, and neither [A]
    nor [B], nor any other controller on a dependency cycle, is in
    [controllerInstances] afterwards.  The error is the cyclic-dependency
    error whenever the sorted controllers up to and including one that
    leads into a cycle, and everything they depend on, are declared and
    have constructors and init hooks that do not throw; this is so, in
    particular, when no constructor or init hook throws at all and every
    dependency of a declared controller is declared.  When they are
    declared, the error is the cyclic-dependency error unless a
    constructor or an init hook threw during the run.  In every case the
    error is the cyclic-dependency error, or the error for an undeclared
    dependency of a declared controller, or an error that a constructor or
    an init hook threw during the run. *)
Theorem cycle_makes_Start_fail (s : State) (A B : Ident) :
  reachable s ->
  A ∈ declared s ->
  depends A B ->
  depends B A ->
  exists error s',
    Start s = Some (Throw error, s') /\
    controllerInstances s' !! A = None /\
    controllerInstances s' !! B = None /\
    (forall X, on_cycle X -> controllerInstances s' !! X = None) /\
    (healthy -> closed s -> error = AppLifeError msgCyclic) /\
    (forall pre C post,
       sortedControllers s = pre ++ C :: post ->
       leads_to_cycle C ->
       self_contained s (pre ++ [C]) ->
       error = AppLifeError msgCyclic) /\
    (forall pre C post,
       sortedControllers s = pre ++ C :: post ->
       leads_to_cycle C ->
       all_declared s (pre ++ [C]) ->
       error = AppLifeError msgCyclic \/ user_error s s' error) /\
    (error = AppLifeError msgCyclic \/
     undeclared_dependency_error s error \/
     user_error s s' error).
Proof.
  intros Hreach HA HAB HBA.
  assert (on_cycle A) as HcA by (eapply tc_l; [exact HAB|by apply tc_once]).
  assert (on_cycle B) as HcB by (eapply tc_l; [exact HBA|by apply tc_once]).
  destruct (Start_fails_on_cycle s A Hreach HA HcA) as (error & s' & HS & Hno & Hc).
  destruct (Start_error s error s' Hreach HS) as (Hlocal & Hrun & Hkind).
  exists error, s'. split; [done|]. split; [by apply Hno|].
  split; [by apply Hno|]. split; [|done]. intros X HX. by apply Hno.
Qed.

(** C3. If, during a run of [Start], the constructor or the init hook of
    some controller [F] throws [error], then [Start] throws that same
    [error], and the failing call, followed by its console line, is the end
    of what the run did: before it the run only made successful constructor
    and init calls and stored their instances, it called no start hook, and
    nothing is stored after it.  So the Instance Table holds exactly what it
    held when the failure happened, and [Dependency] throws the
    not-registered error for every controller that had not been stored by
    then. *)
Theorem fatal_failure_halts_Start
    (s s' : State) (r : Completion unit) (t : list Event)
    (F : Ident) (error : Error) :
  Start s = Some (r, s') ->
  history s' = history s ++ t ->
  (exists e, e ∈ t /\ failed_call F error e) ->
  r = Throw error /\
  exists pre end_,
    t = pre ++ end_ /\
    Forall calm pre /\
    Fatal error end_ /\
    (exists e, e ∈ end_ /\ failed_call F error e) /\
    dom (controllerInstances s') = dom (controllerInstances s) ∪ stored pre /\
    forall C,
      C ∉ dom (controllerInstances s) ->
      EvSet C ∉ pre ->
      Dependency C s' = Some (Throw (AppLifeError msgNotLoaded), s').
Proof.
  intros HS Hh (e & He & Hfail).
  destruct (Start_story _ _ _ HS)
    as (t0 & t1 & t2 & r1 & s1 & Hh' & Ht0 & Htr & Hdom & _ & Hst & Hr).
  rewrite Hh in Hh'. apply app_inv_head in Hh'. subst t.
  assert (e ∉ t0) as He0.
  { intros H. rewrite Forall_forall in Ht0.
    by apply (failed_call_not_warning F error e), Ht0. }
  assert (forall t', Forall quiet t' -> e ∉ t') as Hq.
  { intros t' Hq H. rewrite Forall_forall in Hq.
    by apply (failed_call_not_quiet F error e), Hq. }
  destruct r1 as [[]|error1].
  - (* the construct/init phase returned: no failed call anywhere *)
    destruct Hr as (_ & Hsp & _). apply start_phase_events in Hsp.
    rewrite Forall_forall in Hsp. cbn in Htr.
    apply elem_of_app in He as [He|[He|He]%elem_of_app];
      [done|by destruct (Hq _ Htr)|].
    by destruct (failed_call_not_start F error e Hfail (Hsp _ He)).
  - destruct Hr as [-> ->]. rewrite (right_id_L [] (++)) in He |- *.
    cbn in Htr. destruct Htr as [Htr|(pre1 & end_ & -> & Hpre & Hend)].
    { apply elem_of_app in He as [He|He]; [done|by destruct (Hq _ Htr)]. }
    assert (e ∈ end_) as Hin.
    { apply elem_of_app in He as [He|[He|He]%elem_of_app];
        [done|by destruct (Hq _ Hpre)|done]. }
    pose proof (Fatal_failed_call _ _ _ _ _ Hend Hin Hfail) as <-.
    split; [done|]. exists (t0 ++ pre1), end_.
    split; [by rewrite (assoc_L (++))|]. split.
    { apply Forall_app. split.
      - eapply Forall_impl; [exact Ht0|]. by right.
      - eapply Forall_impl; [exact Hpre|]. by left. }
    split; [done|]. split; [by exists e|].
    assert (stored (t0 ++ pre1) = stored (pre1 ++ end_)) as Hstored.
    { rewrite !stored_app, (Fatal_stored _ _ Hend), inert_stored.
      - by rewrite (left_id_L ∅ (∪)), (right_id_L ∅ (∪)).
      - eapply Forall_impl; [exact Ht0|]. by intros ? [? ->]. }
    split; [by rewrite Hstored|].
    intros C HC Hpre'. rewrite Dependency_spec, Hst.
    assert (C ∉ dom (controllerInstances s')) as ->%not_elem_of_dom; [|done].
    rewrite Hdom, <- Hstored, elem_of_union, elem_of_stored. tauto.
Qed.

(** C4. If, during a run of [Start], the start hook of some controller [A]
    throws [error], then [Start] nevertheless returns normally; the failure
    is reported on the console as a warning that carries the error and the
    instance of [A]; every declared controller that has a start hook had it
    called; and [Dependency] still returns the instance of [A]. *)
Theorem start_hook_failure_is_not_fatal
    (s s' : State) (r : Completion unit) (t : list Event)
    (A : Ident) (error : Error) :
  Start s = Some (r, s') ->
  history s' = history s ++ t ->
  EvOnStart A (Some error) ∈ t ->
  r = Return tt /\
  (exists i,
     controllerInstances s' !! A = Some i /\
     startWarning error (Some i) ∈ t /\
     Dependency A s' = Some (Return i, s')) /\
  (forall C, C ∈ declared s -> is_Some (onStart (classes C)) ->
     exists outcome, EvOnStart C outcome ∈ t).
Proof.
  intros HS Hh He.
  destruct (Start_story _ _ _ HS)
    as (t0 & t1 & t2 & r1 & s1 & Hh' & Ht0 & Htr & Hdom & Hi1 & Hst & Hr).
  rewrite Hh in Hh'. apply app_inv_head in Hh'. subst t.
  assert (EvOnStart A (Some error) ∈ t2) as He2.
  { apply elem_of_app in He as [He|[He|He]%elem_of_app]; [| |done].
    - rewrite Forall_forall in Ht0.
      by destruct (start_call_not_warning (EvOnStart A (Some error)) I (Ht0 _ He)).
    - by destruct (trail_no_start_call _ _ _ Htr He). }
  destruct r1 as [[]|error1]; [|destruct Hr as [_ ->]; by apply elem_of_nil in He2].
  destruct Hr as (-> & (calls & warnings & -> & Hc & Hw & Hall & Hwarn) & Hdecl).
  split; [done|].
  assert (EvOnStart A (Some error) ∈ calls) as Hcall.
  { apply elem_of_app in He2 as [|He2]; [done|].
    rewrite Forall_forall in Hw. by destruct (Hw _ He2) as (? & ? & ?). }
  destruct (Hwarn A error Hcall) as (i & Hi & Hin). split.
  - exists i. rewrite Hi1. split; [done|]. split.
    + rewrite !elem_of_app. auto.
    + by rewrite Dependency_spec, Hst, Hi1, Hi.
  - intros C HC Hhook.
    destruct (Hall C (proj2 (sortedControllers_declared s C) HC) Hhook) as [o Ho].
    exists o. rewrite !elem_of_app. auto.
Qed.

(** C5. On the first [Start] of a module whose declared controllers all have
    an empty dependency list, the constructors are called in the order of the
    registry sorted by load-order hint ([0] when no hint was given): the
    sorted list is a permutation of the registry, ascending in the hint, and
    entries with equal hints keep their declaration order.  If a constructor
    or init hook fails, the calls made are an initial part of that order;
    if [Start] returns, they are all of it. *)
Theorem independent_controllers_load_in_order
    (s s' : State) (r : Completion unit) :
  reachable s ->
  started s = false ->
  (forall C, C ∈ declared s -> paramtypes (classes C) = []) ->
  Start s = Some (r, s') ->
  let entries := sortBy hint (controllerRegistry s) in
  entries ≡ₚ controllerRegistry s /\
  StronglySorted (ascending hint) entries /\
  (forall k, filter (fun a => hint a = k) entries =
             filter (fun a => hint a = k) (controllerRegistry s)) /\
  constructions (history s') `prefix_of` map fst entries /\
  (r = Return tt -> constructions (history s') = map fst entries).
Proof.
  intros Hreach Hst Hleaf HS entries.
  split; [apply sortBy_Permutation|]. split; [apply sortBy_sorted|].
  split; [intros k; apply sortBy_stable|].
  destruct (reachable_unstarted s Hreach Hst) as (Hi & Hreg & Hh).
  apply reachable_invariant in Hreach as (_ & _ & Hrok).
  pose proof (sortedControllers_hint s Hrok) as Hsorted. fold entries in Hsorted.
  destruct (Start_story _ _ _ HS)
    as (t0 & t1 & t2 & r1 & s1 & Hh' & Ht0 & _ & _ & _ & _ & Hr).
  destruct (Start_anatomy _ _ _ HS)
    as (r1' & s1' & t1' & t2' & H1 & (Hh1 & _) & _ & Hh2 & Hr').
  destruct (announce_tables s) as (Har & Hai & Hal & Hag & Hast).
  destruct (announce_history s) as (t0' & Hh0 & Ht0').
  destruct (registerAll_leaves _ _ _ _ _
              (ltac:(rewrite Hsorted; unfold entries;
                     rewrite sortBy_Permutation; apply Hrok)
               : NoDup (sortedControllers s))
              (ltac:(intros C HC%sortedControllers_declared;
                     split; [by apply Hleaf | by rewrite Hai, Hi])
               : forall C, C ∈ sortedControllers s ->
                   paramtypes (classes C) = [] /\
                   controllerInstances (announce s) !! C = None)
              (ltac:(by rewrite Hag) : registeringControllers (announce s) = ∅)
              H1)
    as (t & Hht & Hpre & Hall).
  assert (constructions (history s') = constructions t) as ->.
  { rewrite Hh2, Hht, Hh0, Hh, !constructions_app. cbn [app].
    assert (constructions t0' = []) as ->.
    { clear - Ht0'. induction Ht0' as [|e l [args ->] _ IH]; [done|]. exact IH. }
    assert (constructions t2' = []) as ->; [|by rewrite (right_id_L [] (++))].
    destruct r1' as [[]|error]; [|by destruct Hr' as [_ ->]].
    destruct Hr' as [_ Hsp%start_phase_events].
    clear - Hsp. induction Hsp as [|e l He _ IH]; [done|].
    destruct He as [He|(? & ? & ->)]; [by destruct e|exact IH]. }
  rewrite <- Hsorted. split; [done|].
  intros ->. apply Hall.
  destruct r1' as [[]|error]; [done|]. by destruct Hr' as [[=] _].
Qed.

(** C6. [Dependency] throws the not-started error while [started] is false,
    that is, as long as [Start] has not been called; once it has, it throws
    the not-registered error for an identity without an entry in
    [controllerInstances] and returns the stored instance otherwise.  In all
    three cases the state it leaves is the state it found: nothing is
    constructed, and the registries, the Instance Table and the history are
    unchanged. *)
Theorem Dependency_is_a_pure_lookup (controllerClass : Ident) (s : State) :
  Dependency controllerClass s =
  Some (if started s
        then match controllerInstances s !! controllerClass with
             | Some instance => Return instance
             | None => Throw (AppLifeError msgNotLoaded)
             end
        else Throw (AppLifeError msgNotStarted),
        s)
  /\ started initial = false
  /\ (forall options target r s',
        Controller options target s = Some (r, s') -> started s' = started s)
  /\ (forall r s', Start s = Some (r, s') -> started s' = true).
Proof.
  split; [apply Dependency_spec|]. split; [done|]. split.
  - intros options target r s'. rewrite Controller_spec.
    destruct (registry_has _ _); by intros [= _ <-].
  - intros r s' H. by apply Start_effect in H as (_ & _ & ? & _).
Qed.

(** C7, as amended.  Let [A] be declared and not yet stored, and let it
    declare a dependency [U] that is not in the Declaration Registry (in a
    reachable state such an [A] is never stored, see
    [undeclared_dependency_never_stored]).  Then [registerController] throws
    for [A]; the constructor and the init hook of [A] are not called and [A]
    is not stored.  The error is the unknown-identity error naming [U],
    unless [A] is already in flight (then it is the cyclic-dependency error),
    or a dependency [D] listed before [U] stops the loop first: [D] is itself
    undeclared and is the one named, or resolving [D] throws and that error
    is passed on. *)
Theorem unknown_dependency_fails_the_dependent
    (fuel : nat) (A U : Ident) (s : State) :
  A ∈ declared s ->
  controllerInstances s !! A = None ->
  depends A U ->
  U ∉ declared s ->
  length (controllerRegistry s) < fuel ->
  exists error s',
    registerController fuel A s = Some (Throw error, s') /\
    controllerInstances s' !! A = None /\
    untouched A s s' /\
    (error = AppLifeError (msgDependency U) \/
     (A ∈ registeringControllers s /\ error = AppLifeError msgCyclic) \/
     exists pre D post,
       paramtypes (classes A) = pre ++ D :: post /\
       U ∈ post /\
       (((D ∉ declared s) /\ error = AppLifeError (msgDependency D)) \/
        (exists fuel' s1,
           registerController fuel' D s1 = Some (Throw error, s')))).
Proof.
  intros HA Hi HU Hd Hfuel.
  destruct (registerController_total fuel A s HA) as [[r s'] HR].
  { pose proof (size_pending s). lia. }
  destruct (unknown_dependency_Throw fuel A U s s' r Hi HU Hd HR)
    as (error & -> & Hrest).
  by exists error, s'.
Qed.

(** C8, as amended.  Once an identity has been declared, applying the
    [Controller] decorator to it again throws the "Controller already
    registered" error and leaves the state as it was, whatever has been
    declared, started or resumed in between: the registry keeps the entry of
    the first declaration and no other for that identity, and its load
    order is the one the first declaration gave. *)
Theorem second_declaration_is_rejected
    (options options' : ControllerOptions) (target : Ident)
    (s s1 s2 : State) (pool1 pool2 : list Task) :
  Controller options target s = Some (Return tt, s1) ->
  rtc async_step (s1, pool1) (s2, pool2) ->
  Controller options' target s2 =
    Some (Throw (AppLifeError msgAlreadyRegistered), s2)
  /\ (forall o, (target, o) ∈ controllerRegistry s2 <-> o = options)
  /\ loadOrderMap s2 !! target = Some (default 0%Z (loadOrder options)).
Proof.
  intros HC Hsteps.
  assert (entered target options s2) as He.
  { apply (rtc_async_step_entered target options _ _ Hsteps).
    by eapply Controller_entered. }
  split; [|exact He].
  by rewrite Controller_spec, (entered_has _ _ _ He).
Qed.

(** C9, as amended.  [Start] has no guard against a second call.  Called
    again right after a call that returned, it returns again; it constructs
    and initialises nothing (every [registerController] finds its instance
    stored: the Instance Table and the in-flight set are unchanged, and the
    history gains no constructor, init or store event), but it calls the
    start hook of every declared controller that has one once more. *)
Theorem second_Start_reruns_the_start_hooks
    (s s1 s2 : State) (r2 : Completion unit) :
  Start s = Some (Return tt, s1) ->
  Start s1 = Some (r2, s2) ->
  r2 = Return tt /\
  controllerInstances s2 = controllerInstances s1 /\
  registeringControllers s2 = registeringControllers s1 /\
  exists t,
    history s2 = history s1 ++ t /\
    Forall (fun e => is_warning e \/ is_start_call e) t /\
    forall C, C ∈ declared s1 -> is_Some (onStart (classes C)) ->
      exists outcome, EvOnStart C outcome ∈ t.
Proof.
  intros HS1 HS2.
  apply Start_effect in HS1 as (Hr1 & _ & _ & _ & _ & Hret).
  destruct (Hret eq_refl) as [_ Hall]. clear Hret.
  destruct (announce_tables s1) as (Har & Hai & Hal & Hag & Hast).
  destruct (announce_history s1) as (t0 & Hh0 & Ht0).
  destruct (Start_anatomy _ _ _ HS2)
    as (r1 & s1' & t1 & t2 & H1 & _ & Hsame & Hh & Hr).
  rewrite registerAll_cached in H1.
  2:{ intros C HC%sortedControllers_declared. rewrite Hai. apply Hall.
      unfold declared in *. by rewrite <- Hr1. }
  injection H1 as <- <-. destruct Hr as [-> Hsp].
  destruct Hsame as (_ & Hsi & _ & Hsg & _).
  split; [done|]. split; [congruence|]. split; [congruence|].
  exists (t0 ++ t2). split; [by rewrite Hh, Hh0, (assoc_L (++))|]. split.
  - apply Forall_app. split.
    + eapply Forall_impl; [exact Ht0|]. by left.
    + eapply Forall_impl; [exact (start_phase_events _ _ _ Hsp)|].
      intros e [He|(error & i & ->)]; [by right|left; by eexists].
  - destruct Hsp as (calls & warnings & -> & _ & _ & Hcalls & _).
    intros C HC Hhook.
    destruct (Hcalls C (proj2 (sortedControllers_declared s1 C) HC) Hhook)
      as [o Ho].
    exists o. rewrite !elem_of_app. auto.
Qed.

(** C10, as amended.  When a call of [registerController] fails for an
    identity, whatever the cause, the identity is in
    [registeringControllers] and not in [controllerInstances] when the call
    fails.  Unless the error is the cyclic-dependency error, no other call
    for the identity is suspended at an [await].  And when no suspended
    call for the identity can still succeed (none is suspended, or only in
    tasks whose innermost call has failed, as on a dependency cycle), the
    identity stays in flight and unstored for good, whatever is called or
    resumed afterwards, and every further [registerController] for it
    throws the cyclic-dependency error without touching the state. *)
Theorem failed_registration_stays_in_flight
    (cfg cfg' : Config) (A : Ident) (error : Error)
    (stack : list Frame) (rest sorted : list Ident) :
  async_reachable cfg ->
  runs cfg (AtAwait A (Throw error) stack rest sorted) cfg' ->
  A ∈ registeringControllers (fst cfg') /\
  controllerInstances (fst cfg') !! A = None /\
  (error <> AppLifeError msgCyclic -> A ∉ suspended_in (snd cfg')) /\
  ((A ∉ going_in (snd cfg')) ->
   forall cfg'',
     rtc async_step cfg' cfg'' ->
     A ∈ registeringControllers (fst cfg'') /\
     controllerInstances (fst cfg'') !! A = None /\
     (A ∉ going_in (snd cfg'')) /\
     (forall fuel stack' rest' sorted',
        callRegisterController (S fuel) A stack' rest' sorted' (fst cfg'')
        = Some (AtAwait A (Throw (AppLifeError msgCyclic)) stack' rest' sorted',
                fst cfg'')) /\
     (forall fuel,
        registerController (S fuel) A (fst cfg'')
        = Some (Throw (AppLifeError msgCyclic), fst cfg''))).
Proof.
  intros Hreach Hruns.
  pose proof (async_reachable_tasks_ok _ Hreach) as Hok.
  destruct (runs_rejected _ _ _ _ _ _ _ Hruns Hok) as [Hst Hne].
  split; [apply Hst|]. split; [apply Hst|]. split; [exact Hne|].
  intros Hno cfg'' Hsteps.
  assert (tasks_ok cfg') as Hok'.
  { eapply async_step_tasks_ok; [by eapply async_runs|done]. }
  destruct (rtc_async_step_orphan A _ _ Hsteps Hok' (conj Hst Hno))
    as [Hst'' Hno''].
  split; [apply Hst''|]. split; [apply Hst''|]. split; [done|].
  split; [intros; by apply callRegisterController_stuck|].
  intros fuel. by apply registerController_stuck.
Qed.

(** * Beyond the claims

    The module decorator and [AppLife.LoadModules], and further properties
    of the decorator, the resolver, [Start] and [Dependency]. *)

(** ** Modules *)

Lemma verifyControllers_spec controllers s :
  exists r,
    verifyControllers controllers s = Some (r, s) /\
    (r = Return tt <-> forall c, c ∈ controllers -> c ∈ declared s).
Proof.
  induction controllers as [|c rest IH]; cbn.
  - exists (Return tt). split; [done|]. split; [|done].
    intros _ c Hc. by apply elem_of_nil in Hc.
  - unfold bind, gets.
    destruct (registry_has c (controllerRegistry s)) eqn:Hhas.
    + apply registry_has_declared in Hhas.
      destruct IH as (r & -> & Hr). exists r. split; [done|].
      rewrite Hr. split.
      * intros H x [->|Hx]%elem_of_cons; auto.
      * intros H x Hx. apply H. by right.
    + eexists. split; [done|]. split; [done|].
      intros H. assert (c ∈ declared s) as Hc by (apply H; left).
      apply registry_has_declared in Hc. congruence.
Qed.

Lemma verifyControllers_Throw controllers s error s' :
  verifyControllers controllers s = Some (Throw error, s') ->
  exists pre c post,
    controllers = pre ++ c :: post /\
    (forall x, x ∈ pre -> x ∈ declared s) /\
    (c ∉ declared s) /\
    error = AppLifeError (msgController c).
Proof.
  induction controllers as [|c rest IH]; cbn; [done|].
  unfold bind, gets.
  destruct (registry_has c (controllerRegistry s)) eqn:Hhas.
  - apply registry_has_declared in Hhas.
    intros (pre & c' & post & -> & Hpre & Hc & ->)%IH.
    exists (c :: pre), c', post. split; [done|]. split; [|done].
    by intros x [->|Hx]%elem_of_cons; [|apply Hpre].
  - intros [= <- <-]. exists [], c, rest. split; [done|].
    split; [by intros x Hx%elem_of_nil|]. split; [|done].
    intros Hc%registry_has_declared. congruence.
Qed.

Lemma LoadModules_spec moduleRegistry modules s :
  exists r,
    LoadModules moduleRegistry modules s = Some (r, s) /\
    (r = Return tt <->
     forall m, m ∈ modules -> module_ok moduleRegistry s m).
Proof.
  induction modules as [|m rest IH]; cbn.
  - exists (Return tt). split; [done|]. split; [|done].
    intros _ m Hm. by apply elem_of_nil in Hm.
  - destruct (moduleRegistry !! m) as [controllers|] eqn:Hm.
    + destruct (verifyControllers_spec controllers s) as (r1 & Hv & Hr1).
      unfold bind. rewrite Hv. destruct r1 as [[]|error].
      * destruct IH as (r & -> & Hr). exists r. split; [done|].
        rewrite Hr. split.
        -- intros H x [->|Hx]%elem_of_cons; [|by apply H].
           exists controllers. split; [done|]. by apply Hr1.
        -- intros H x Hx. apply H. by right.
      * eexists. split; [done|]. split; [done|].
        intros H. destruct (H m) as (cs & Hcs & Hall); [left|].
        rewrite Hm in Hcs. injection Hcs as <-.
        by apply Hr1 in Hall.
    + eexists. split; [done|]. split; [done|].
      intros H. destruct (H m) as (cs & Hcs & _); [left|]. congruence.
Qed.

(** X2. [LoadModules] never changes the state, and it returns normally
    exactly when every listed module is registered and every controller of
    every listed module is declared. *)
Theorem LoadModules_returns_iff_all_declared
    (moduleRegistry : gmap Ident (list Ident)) (modules : list Ident)
    (s : State) :
  exists r,
    LoadModules moduleRegistry modules s = Some (r, s) /\
    (r = Return tt <->
     forall m, m ∈ modules -> module_ok moduleRegistry s m).
Proof. apply LoadModules_spec. Qed.

(** X3. When [LoadModules] throws, the error names the first offender in
    list order: every module before it is registered with all its
    controllers declared, and it is either a module that is not registered,
    or a registered module whose first undeclared controller is named. *)
Theorem LoadModules_names_the_first_offender
    (moduleRegistry : gmap Ident (list Ident)) (modules : list Ident)
    (s s' : State) (error : Error) :
  LoadModules moduleRegistry modules s = Some (Throw error, s') ->
  exists pre m post,
    modules = pre ++ m :: post /\
    (forall x, x ∈ pre -> module_ok moduleRegistry s x) /\
    ((moduleRegistry !! m = None /\ error = AppLifeError (msgModule m)) \/
     (exists controllers cpre c cpost,
        moduleRegistry !! m = Some controllers /\
        controllers = cpre ++ c :: cpost /\
        (forall x, x ∈ cpre -> x ∈ declared s) /\
        (c ∉ declared s) /\
        error = AppLifeError (msgController c))).
Proof.
  induction modules as [|m rest IH]; cbn; [done|].
  destruct (moduleRegistry !! m) as [controllers|] eqn:Hm.
  - destruct (verifyControllers_spec controllers s) as (r1 & Hv & Hr1).
    unfold bind. rewrite Hv. destruct r1 as [[]|error1].
    + intros (pre & m' & post & -> & Hpre & Hm')%IH.
      exists (m :: pre), m', post. split; [done|]. split; [|done].
      intros x [->|Hx]%elem_of_cons; [|by apply Hpre].
      exists controllers. split; [done|]. by apply Hr1.
    + intros [= <- <-].
      apply verifyControllers_Throw in Hv as (cpre & c & cpost & Hc).
      exists [], m, rest. split; [done|].
      split; [by intros x Hx%elem_of_nil|]. right.
      by exists controllers, cpre, c, cpost.
  - intros [= <- <-]. exists [], m, rest. split; [done|].
    split; [by intros x Hx%elem_of_nil|]. by left.
Qed.

(** X1. A module can be registered once: the first [Module] for an identity
    stores its controller list, and a second one throws the "Module already
    registered" error and leaves the list of the first in place. *)
Theorem second_module_registration_is_rejected
    (controllers controllers' : list Ident) (target : Ident)
    (moduleRegistry moduleRegistry1 : gmap Ident (list Ident)) :
  ModuleDecorator controllers target moduleRegistry
    = (Return tt, moduleRegistry1) ->
  moduleRegistry1 !! target = Some controllers /\
  (forall other, other <> target ->
     moduleRegistry1 !! other = moduleRegistry !! other) /\
  ModuleDecorator controllers' target moduleRegistry1
    = (Throw (AppLifeError msgModuleAlreadyRegistered), moduleRegistry1).
Proof.
  unfold ModuleDecorator.
  destruct (moduleRegistry !! target) eqn:Hm; [done|]. intros [= <-].
  rewrite lookup_insert_eq. split; [done|]. split; [|done].
  intros other Hne. by rewrite lookup_insert_ne.
Qed.

Lemma ModuleDecorator_grows controllers target moduleRegistry r moduleRegistry' :
  ModuleDecorator controllers target moduleRegistry = (r, moduleRegistry') ->
  moduleRegistry ⊆ moduleRegistry'.
Proof.
  unfold ModuleDecorator.
  destruct (moduleRegistry !! target) eqn:Hm; intros [= <- <-]; [done|].
  by apply insert_subseteq.
Qed.

Lemma module_ok_grows moduleRegistry moduleRegistry' s s' m :
  moduleRegistry ⊆ moduleRegistry' ->
  declared s ⊆ declared s' ->
  module_ok moduleRegistry s m -> module_ok moduleRegistry' s' m.
Proof.
  intros Hm Hd (cs & Hcs & Hall). exists cs. split.
  - by eapply lookup_weaken.
  - intros c Hc. by apply Hd, Hall.
Qed.

(** X4. A module list that [LoadModules] accepts stays accepted whatever is
    declared or registered afterwards. *)
Theorem LoadModules_stays_satisfied
    (moduleRegistry moduleRegistry' : gmap Ident (list Ident))
    (modules controllers : list Ident) (module target : Ident)
    (options : ControllerOptions) (s s' : State)
    (r : Completion unit) (r' : Completion unit) :
  LoadModules moduleRegistry modules s = Some (Return tt, s) ->
  Controller options target s = Some (r, s') ->
  ModuleDecorator controllers module moduleRegistry = (r', moduleRegistry') ->
  LoadModules moduleRegistry' modules s' = Some (Return tt, s').
Proof.
  intros HL HC HM.
  destruct (LoadModules_spec moduleRegistry modules s)
    as (r0 & Hr0 & Hiff).
  rewrite HL in Hr0. injection Hr0 as <-.
  destruct (LoadModules_spec moduleRegistry' modules s')
    as (r1 & -> & Hiff'). f_equal. f_equal. apply Hiff'.
  intros m Hm. eapply module_ok_grows.
  - by eapply ModuleDecorator_grows.
  - by eapply Controller_grows.
  - by apply Hiff.
Qed.

(** X5. If [LoadModules] accepts a module list and [Start] then returns,
    [Dependency] returns an instance for every controller of every listed
    module. *)
Theorem loaded_modules_are_served
    (moduleRegistry : gmap Ident (list Ident)) (modules : list Ident)
    (s s' : State) (m c : Ident) (controllers : list Ident) :
  LoadModules moduleRegistry modules s = Some (Return tt, s) ->
  Start s = Some (Return tt, s') ->
  m ∈ modules ->
  moduleRegistry !! m = Some controllers ->
  c ∈ controllers ->
  exists i, Dependency c s' = Some (Return i, s').
Proof.
  intros HL HS Hm Hcs Hc.
  destruct (LoadModules_spec moduleRegistry modules s)
    as (r0 & Hr0 & Hiff).
  rewrite HL in Hr0. injection Hr0 as <-.
  destruct (proj1 Hiff eq_refl m Hm) as (cs & Hcs' & Hall).
  rewrite Hcs in Hcs'. injection Hcs' as <-.
  apply Start_effect in HS as (_ & _ & Hst & _ & _ & Hret).
  destruct (Hret eq_refl) as [_ Hstored].
  destruct (proj1 (elem_of_dom _ _) (Hstored c (Hall c Hc))) as [i Hi].
  exists i. by rewrite Dependency_spec, Hst, Hi.
Qed.

(** ** The decorator, the resolver and [Start], further *)

(** X6. With nothing declared, [Start] only sets [started] and warns that no
    controller is registered; it returns normally. *)
Theorem Start_with_an_empty_registry (s : State) :
  controllerRegistry s = [] ->
  Start s =
  Some (Return tt,
        record
          (EvConsole LWarn
             [ArgText "[AppLife]: "; ArgText "No controllers registered"])
          (withStarted true s)).
Proof.
  intros H. unfold Start, StartWith, bind, modify, gets, DebugLog, emit,
    sortedControllers.
  cbn. rewrite H. cbn. by rewrite H.
Qed.


Lemma step_effect s s' :
  step s s' ->
  instances_kept s s' /\
  declared s ⊆ declared s' /\
  (started s = true -> started s' = true).
Proof.
  intros [options target s0 r s0' H|C s0 r s0' H|s0 r s0' H|fuel C s0 r s0' H].
  - pose proof (Controller_grows _ _ _ _ _ H) as Hd.
    rewrite Controller_spec in H.
    destruct (registry_has _ _); injection H as _ <-;
      (split; [by intros ??|split; [exact Hd|done]]).
  - rewrite Dependency_spec in H. injection H as _ <-.
    split; [apply instances_kept_refl|done].
  - apply Start_effect in H as (Hr & _ & Hst & Hk & _).
    split; [done|]. unfold declared. by rewrite Hr.
  - apply registerController_sound in H.
    pose proof (Registers_frame _ _ _ _ H) as (Hr & _ & Hst).
    split; [by eapply Registers_kept|]. unfold declared. rewrite Hr, Hst. done.
Qed.

Lemma rtc_step_effect s s' :
  rtc step s s' ->
  instances_kept s s' /\
  declared s ⊆ declared s' /\
  (started s = true -> started s' = true).
Proof.
  induction 1 as [s|s1 s2 s3 H12 _ (Hk & Hd & Hst)].
  - split; [apply instances_kept_refl|done].
  - apply step_effect in H12 as (Hk12 & Hd12 & Hst12).
    split; [by eapply instances_kept_trans|]. split; [set_solver|auto].
Qed.

(** X10. The Instance Table is append-only: an instance, once stored, is
    never removed or replaced, whatever the decorator, [Start],
    [Dependency] or [registerController] do afterwards. *)
Theorem stored_instances_are_never_replaced
    (s s' : State) (C : Ident) (i : Instance) :
  rtc step s s' ->
  controllerInstances s !! C = Some i ->
  controllerInstances s' !! C = Some i.
Proof.
  intros (Hk & _)%rtc_step_effect. apply Hk.
Qed.

(** X11. [Start] sets [started] before anything else and nothing ever
    clears it: once [Start] has been called, even if it threw, [Dependency]
    never throws the not-started error again. *)
Theorem Dependency_after_any_Start
    (s s1 s2 : State) (r : Completion unit) (C : Ident) :
  Start s = Some (r, s1) ->
  rtc step s1 s2 ->
  started s2 = true /\
  Dependency C s2 =
    Some (match controllerInstances s2 !! C with
          | Some instance => Return instance
          | None => Throw (AppLifeError msgNotLoaded)
          end, s2).
Proof.
  intros (_ & _ & Hst & _)%Start_effect (_ & _ & Hkeep)%rtc_step_effect.
  split; [auto|]. by rewrite Dependency_spec, Hkeep.
Qed.

(** X13. Resolving an identity a second time returns the instance of the
    first time and changes nothing. *)
Theorem registerController_is_idempotent
    (fuel fuel' : nat) (C : Ident) (s s' : State) (i : Instance) :
  registerController fuel C s = Some (Return i, s') ->
  registerController (S fuel') C s' = Some (Return i, s').
Proof.
  intros [Hi _]%registerController_sound%Registers_Return.
  cbn [registerController]. unfold bind, gets. by rewrite Hi.
Qed.

(** X14. In every reachable state no identity occurs twice in the
    Declaration Registry, and [loadOrderMap] holds, for every entry, the
    hint it was declared with, [0] when it had none: the [?? 0] of the
    comparator of [Start] is never needed. *)
Theorem registry_is_consistent (s : State) :
  reachable s ->
  NoDup (map fst (controllerRegistry s)) /\
  forall a, a ∈ controllerRegistry s ->
    loadOrderMap s !! fst a = Some (hint a) /\
    loadOrderOf s (fst a) = hint a.
Proof.
  intros (_ & _ & Hnd & Hlom)%reachable_invariant. split; [done|].
  intros [C o] Ha. unfold loadOrderOf, hint. cbn.
  by rewrite (Hlom C o Ha).
Qed.

(** X15. In every reachable state, an identity for which [Dependency]
    returns an instance was declared, and [Dependency] also returns an
    instance for each of its declared dependencies. *)
Theorem Dependency_serves_declared_controllers_only
    (s s' : State) (C : Ident) (i : Instance) :
  reachable s ->
  Dependency C s = Some (Return i, s') ->
  C ∈ declared s /\
  forall B, depends C B -> exists j, Dependency B s = Some (Return j, s).
Proof.
  intros (Htab & _)%reachable_invariant. rewrite Dependency_spec.
  destruct (started s) eqn:Hst; [|done].
  destruct (controllerInstances s !! C) as [i'|] eqn:Hi; [|done]. intros _.
  destruct (Htab C) as (Hd & _ & Hdeps); [by apply elem_of_dom; eexists|].
  split; [done|]. intros B [j Hj]%Hdeps%elem_of_dom. exists j.
  by rewrite Dependency_spec, Hst, Hj.
Qed.

(** X16. The decorators alone construct nothing: as long as [Start] has not
    been called, the Instance Table and the in-flight set are empty and
    nothing was logged or called. *)
Theorem nothing_happens_before_Start (s : State) :
  reachable s ->
  started s = false ->
  controllerInstances s = ∅ /\
  registeringControllers s = ∅ /\
  history s = [].
Proof. apply reachable_unstarted. Qed.

(** A task that has a class in flight with no call suspended ahead of it
    does not get past that class. *)

Lemma instantiate_held_up A C deps stack rest sorted s t s' :
  instantiate C deps stack rest sorted s = (t, s') -> A ∈ rest -> held_up A t.
Proof.
  unfold instantiate. destruct (construct (classes C) s deps) as [error|i].
  - intros [= <- _] HA. by left.
  - destruct (onInit (classes C)); intros [= <- _] HA; [done|by left].
Qed.

Lemma resolveNext_held_up A rec C paramTypes deps stack rest sorted s t s' :
  (forall D stack rest sorted s t s',
     rec D stack rest sorted s = Some (t, s') -> A ∈ rest -> held_up A t) ->
  resolveNext rec C paramTypes deps stack rest sorted s = Some (t, s') ->
  A ∈ rest -> held_up A t.
Proof.
  intros Hrec H HA. destruct paramTypes as [|dep paramTypes']; cbn in H.
  - injection H as H. by eapply instantiate_held_up.
  - destruct (registry_has dep (controllerRegistry s)).
    + by eapply Hrec.
    + injection H as <- _. by left.
Qed.

Lemma callRegisterController_held_up A fuel :
  forall C stack rest sorted s t s',
    callRegisterController fuel C stack rest sorted s = Some (t, s') ->
    A ∈ rest -> held_up A t.
Proof.
  induction fuel as [|fuel IH]; intros C stack rest sorted s t s' H HA; [done|].
  cbn [callRegisterController] in H.
  destruct (controllerInstances s !! C); [injection H as <- _; by left|].
  case_bool_decide; [injection H as <- _; by left|].
  by eapply resolveNext_held_up in H.
Qed.

Lemma startNext_held_up A fuel rest sorted s t s' :
  startNext fuel rest sorted s = Some (t, s') ->
  stuck A s -> A ∈ rest -> held_up A t.
Proof.
  intros H Hst HA. destruct rest as [|C rest']; [by apply elem_of_nil in HA|].
  cbn in H. apply elem_of_cons in HA as [<-|HA].
  - destruct fuel as [|fuel]; [done|].
    rewrite callRegisterController_stuck in H by done.
    injection H as <- _. right. by eexists.
  - by eapply callRegisterController_held_up.
Qed.

Lemma resume_held_up A fuel t0 s t s' :
  resume fuel t0 s = Some (t, s') ->
  stuck A s -> held_up A t0 -> held_up A t.
Proof.
  intros H Hst Hup.
  destruct t0 as [X [i|error] [|frame stack] rest sorted
                 |C i [error|] stack rest sorted
                 |[|[[error|] instance] ps]
                 |r]; cbn in H, Hup; try done.
  - destruct Hup as [HA|[e [=]]]. by eapply startNext_held_up.
  - destruct Hup as [HA|[e [=]]].
    eapply resolveNext_held_up; [|exact H|done].
    apply callRegisterController_held_up.
  - injection H as <- _. by eexists.
  - injection H as <- _. right. by eexists.
  - injection H as <- _. by left.
  - injection H as <- _. by left.
Qed.

Lemma lookup_beside {A} (l1 l2 : list A) (x y : A) (k : nat) :
  k <> length l1 -> (l1 ++ x :: l2) !! k = (l1 ++ y :: l2) !! k.
Proof.
  intros Hk. destruct (decide (k < length l1)) as [Hlt|Hge].
  - by rewrite !lookup_app_l.
  - rewrite !lookup_app_r by lia.
    destruct (k - length l1) as [|m] eqn:Hm; [lia|done].
Qed.

Lemma async_step_held_up A k cfg cfg' :
  async_step cfg cfg' ->
  tasks_ok cfg -> orphan A cfg ->
  (exists t, snd cfg !! k = Some t /\ held_up A t) ->
  exists t, snd cfg' !! k = Some t /\ held_up A t.
Proof.
  intros [options target s r s' pool H|C s r s' pool H|cfg0 t1 cfg0' H]
    Hok [Hst Hno] (t & Ht & Hup); [by exists t|by exists t|].
  destruct H as [fuel s pool t' s' H|fuel s pool1 t0 pool2 t' s' H];
    cbn [fst snd] in *.
  - exists t. split; [|done]. apply lookup_app_l_Some, Ht.
  - destruct (decide (k = length pool1)) as [->|Hne].
    + rewrite list_lookup_middle in Ht by done. injection Ht as <-.
      exists t'. split; [by apply list_lookup_middle|].
      by eapply resume_held_up.
    + exists t. split; [|done]. by rewrite <- (lookup_beside _ _ t0).
Qed.

Lemma rtc_async_step_held_up A k cfg cfg' :
  rtc async_step cfg cfg' ->
  tasks_ok cfg -> orphan A cfg ->
  (exists t, snd cfg !! k = Some t /\ held_up A t) ->
  exists t, snd cfg' !! k = Some t /\ held_up A t.
Proof.
  induction 1 as [|cfg1 cfg2 cfg3 H12 _ IH]; [done|]. intros Hok Ho Hup.
  apply IH.
  - by eapply async_step_tasks_ok.
  - by eapply async_step_orphan.
  - by eapply async_step_held_up.
Qed.

Lemma stuck_stops_Start A s :
  stuck A s -> A ∈ declared s ->
  exists error s', Start s = Some (Throw error, s').
Proof.
  intros Hst HA. destruct (Start_total s) as [[r s'] HS].
  destruct r as [[]|error]; [|by exists error, s'].
  apply Start_effect in HS as (_ & _ & _ & _ & Hkeep & Hret).
  destruct (Hret eq_refl) as [_ Hall].
  destruct (proj1 (elem_of_dom _ _) (Hall A HA)) as [i Hi].
  destruct (Hkeep A Hst) as [_ Hnone]. congruence.
Qed.

(** X17. After a [registerController] has failed for a controller, with no
    suspended call for it that can still succeed, [Start] cannot succeed
    any more.  Whatever
    is called or resumed in between and afterwards, a later call of [Start]
    never gets to the start hooks and never returns: it is still on its way
    to that controller, or a [registerController] has failed for it.  A
    later [Start] that runs without interruption throws. *)
Theorem failed_Start_cannot_be_retried
    (cfg cfg' cfg1 cfg3 : Config) (C : Ident) (error : Error)
    (stack : list Frame) (rest sorted : list Ident)
    (fuel : nat) (t : Task) (s2 : State) :
  async_reachable cfg ->
  runs cfg (AtAwait C (Throw error) stack rest sorted) cfg' ->
  (C ∉ going_in (snd cfg')) ->
  rtc async_step cfg' cfg1 ->
  callStart fuel (fst cfg1) = Some (t, s2) ->
  rtc async_step (s2, snd cfg1 ++ [t]) cfg3 ->
  (exists t3,
     snd cfg3 !! length (snd cfg1) = Some t3 /\
     held_up C t3 /\
     t3 <> Over (Return tt) /\
     forall startPromises, t3 <> AtAll startPromises) /\
  exists error' s', Start (fst cfg1) = Some (Throw error', s').
Proof.
  intros Hreach Hruns Hno Hsteps HS Hlater.
  pose proof (async_reachable_tasks_ok _ Hreach) as Hok.
  destruct (runs_rejected _ _ _ _ _ _ _ Hruns Hok) as [Hst _].
  assert (tasks_ok cfg') as Hok'.
  { eapply async_step_tasks_ok; [by eapply async_runs|done]. }
  pose proof (rtc_async_step_tasks_ok _ _ Hsteps Hok') as Hok1.
  pose proof (rtc_async_step_orphan C _ _ Hsteps Hok' (conj Hst Hno)) as Ho1.
  destruct cfg1 as [s1 pool1]. cbn [fst snd] in *.
  assert (C ∈ declared s1) as HC.
  { destruct Hok1 as (_ & Hin & _). apply Hin, Ho1. }
  split; [|apply (stuck_stops_Start C); [apply Ho1|done]].
  assert (runs (s1, pool1) t (s2, pool1 ++ [t])) as Hcall
    by (by eapply runs_Start).
  destruct (rtc_async_step_held_up C (length pool1) _ _ Hlater)
    as (t3 & Ht3 & Hup).
  - eapply async_step_tasks_ok; [by eapply async_runs|done].
  - by eapply runs_orphan.
  - exists t. split; [by apply list_lookup_middle|].
    rewrite callStart_announce in HS.
    eapply startNext_held_up; [exact HS| |].
    + destruct (announce_tables s1) as (_ & Hai & _ & Hag & _).
      destruct Ho1 as [[H1 H2] _]. split; [by rewrite Hag|by rewrite Hai].
    + rewrite sortedControllers_announce. by apply sortedControllers_declared.
  - exists t3. split; [done|]. split; [done|].
    split; [intros ->; by destruct Hup as [e [=]]|].
    intros ps ->. exact Hup.
Qed.

(** ** When [Start] succeeds *)





(** ** Once per identity *)

Lemma once_same s s' :
  history s' = history s ->
  controllerInstances s' = controllerInstances s ->
  registeringControllers s ⊆ registeringControllers s' ->
  once s -> once s'.
Proof.
  intros Hh Hi Hr (H1 & H2 & H3 & H4). unfold once. rewrite Hh, Hi.
  split; [done|]. split; [done|]. split; [|done].
  intros X HX. destruct (H3 X HX); auto.
Qed.

Lemma once_inert s s' t :
  history s' = history s ++ t ->
  Forall inert t ->
  controllerInstances s' = controllerInstances s ->
  registeringControllers s' = registeringControllers s ->
  once s -> once s'.
Proof.
  intros Hh Ht Hi Hr (H1 & H2 & H3 & H4). unfold once.
  assert (constructions t = [] /\ stores t = []) as [Hc Hs].
  { clear - Ht. induction Ht as [|e l He _ [IH1 IH2]]; [done|].
    by destruct e. }
  rewrite Hh, Hi, Hr. unfold stores in *. rewrite constructions_app, omap_app.
  by rewrite Hc, Hs, !(right_id_L [] (++)).
Qed.

Lemma once_record e s : inert e -> once s -> once (record e s).
Proof.
  intros He. apply (once_inert s _ [e]); try done. by constructor.
Qed.

Lemma once_new C deps outcome s :
  stuck C s ->
  C ∉ constructions (history s) ->
  once s -> once (record (EvNew C deps outcome) s).
Proof.
  intros [Hreg Hi] Hfresh (H1 & H2 & H3 & H4). unfold once, stores in *.
  cbn [history record controllerInstances registeringControllers].
  rewrite constructions_app, omap_app. cbn. rewrite (right_id_L [] (++)).
  split; [apply NoDup_app; split; [done|]; split; [|apply NoDup_singleton];
          by intros X HX ->%list_elem_of_singleton|].
  split; [done|]. split; [|done].
  intros X [HX| ->%list_elem_of_singleton]%elem_of_app; auto.
Qed.

Lemma once_finish C i s :
  controllerInstances s !! C = None ->
  once s -> once (finish C i s).
Proof.
  intros Hi (H1 & H2 & H3 & H4). unfold once, stores, finish in *.
  cbn [history record withInstances withRegistering controllerInstances
       registeringControllers].
  rewrite constructions_app, omap_app, dom_insert_L. cbn.
  rewrite !(right_id_L [] (++)).
  apply not_elem_of_dom in Hi. split; [done|]. split; [|split].
  - apply NoDup_app. split; [done|]. split; [|apply NoDup_singleton].
    intros X HX ->%list_elem_of_singleton. by apply Hi, H4.
  - intros X HX. destruct (decide (X = C)) as [->|Hne]; [left; set_solver|].
    destruct (H3 X HX); [left|right]; set_solver.
  - intros X [HX| ->%list_elem_of_singleton]%elem_of_app; [|set_solver].
    apply elem_of_union_r. by apply H4.
Qed.

Lemma untouched_constructions A s s' :
  untouched A s s' ->
  A ∉ constructions (history s) -> A ∉ constructions (history s').
Proof.
  intros (t & -> & Ht) Hs. rewrite constructions_app, elem_of_app.
  intros [H|H]; [done|]. clear Hs.
  induction Ht as [|e l He _ IH]; [by apply elem_of_nil in H|].
  destruct e; cbn in H; try by apply IH.
  apply elem_of_cons in H as [->|H]; [by apply He | by apply IH].
Qed.

Lemma Registers_Resolves_once :
  (forall C s r s', Registers C s r s' -> once s -> once s') /\
  (forall l acc s r s', Resolves l acc s r s' -> once s -> once s').
Proof.
  assert (forall C s l acc r s2,
            controllerInstances s !! C = None ->
            C ∉ registeringControllers s ->
            Resolves l acc (begin C s) r s2 ->
            once s ->
            stuck C s2 /\ C ∉ constructions (history s2)) as Hfresh.
  { intros C s l acc r s2 Hi Hreg Hres (_ & _ & H3 & _).
    assert (stuck C (begin C s)) as Hst by (split; cbn; [set_solver|done]).
    split; [by apply (proj2 (Registers_Resolves_stuck C) _ _ _ _ _ Hres)|].
    eapply untouched_constructions.
    - by apply (proj2 (Registers_Resolves_untouched C) _ _ _ _ _ Hres).
    - cbn. intros [HX|HX]%H3; [|done]. by apply not_elem_of_dom in Hi. }
  assert (forall C s, once s -> once (begin C s)) as Hbegin.
  { intros C s. apply once_same; try done. cbn. set_solver. }
  apply Registers_Resolves_ind; try (intros; assumption).
  - intros C s error s2 Hi Hreg Hres IH Ho. by apply IH, Hbegin.
  - intros C s deps s2 error Hi Hreg Hres IH Hnew Ho.
    destruct (Hfresh _ _ _ _ _ _ Hi Hreg Hres Ho) as [Hst Hc].
    apply once_record; [done|]. apply once_new; [done|done|].
    by apply IH, Hbegin.
  - intros C s deps s2 i hook error Hi Hreg Hres IH Hnew Hinit Hhook Ho.
    destruct (Hfresh _ _ _ _ _ _ Hi Hreg Hres Ho) as [Hst Hc].
    do 2 (apply once_record; [done|]). apply once_new; [done|done|].
    by apply IH, Hbegin.
  - intros C s deps s2 i s3 Hi Hreg Hres IH Hnew Hinit Ho.
    destruct (Hfresh _ _ _ _ _ _ Hi Hreg Hres Ho) as [Hst Hc].
    assert (once (record (EvNew C deps (inr i)) s2)) as Ho2.
    { apply once_new; [done|done|]. by apply IH, Hbegin. }
    apply once_finish.
    + destruct (initialized_cases _ _ _ _ Hinit) as [-> | ->]; apply Hst.
    + destruct (initialized_cases _ _ _ _ Hinit) as [-> | ->]; [done|].
      by apply once_record.
  - intros dep rest acc s error s1 Hhas Hreg IH Ho. by apply IH.
  - intros dep rest acc s i s1 r s2 Hhas Hreg IH1 Hres IH2 Ho.
    by apply IH2, IH1.
Qed.

Lemma registerAll_once fuel sorted :
  forall s r s', registerAll fuel sorted s = Some (r, s') -> once s -> once s'.
Proof.
  induction sorted as [|C rest IH]; intros s r s' H Ho.
  - by injection H as _ <-.
  - apply registerAll_cons in H as (r1 & s1 & H1 & H).
    apply registerController_sound in H1.
    apply (proj1 Registers_Resolves_once) in H1; [|done].
    destruct r1; [by eapply IH | by injection H as _ ->].
Qed.

Lemma Start_once s r s' : Start s = Some (r, s') -> once s -> once s'.
Proof.
  intros HS Ho.
  destruct (Start_anatomy _ _ _ HS)
    as (r1 & s1 & t1 & t2 & H1 & _ & (Hsr & Hsi & _ & Hsg & _) & Hh & Hr).
  destruct (announce_tables s) as (Har & Hai & Hal & Hag & Hast).
  destruct (announce_history s) as (t0 & Hh0 & Ht0).
  apply (once_inert s1 s' t2); try done.
  { destruct r1; [eapply start_phase_inert, Hr | by destruct Hr as [_ ->]]. }
  eapply registerAll_once; [exact H1|].
  apply (once_inert s _ t0); try done.
  eapply Forall_impl; [exact Ht0|]. by intros ? [? ->].
Qed.

Lemma reachable_once s : reachable s -> once s.
Proof.
  induction 1 as [|s options target r s' _ IH H|s C r s' _ IH H|s r s' _ IH H].
  - split; [apply NoDup_nil_2|]. split; [apply NoDup_nil_2|].
    split; by intros X HX%elem_of_nil.
  - rewrite Controller_spec in H.
    destruct (registry_has _ _); injection H as _ <-; [done|].
    by apply (once_same s).
  - rewrite Dependency_spec in H. by injection H as _ <-.
  - by eapply Start_once.
Qed.

(** X9. In every reachable state, no class had its constructor called
    twice and no identity was stored twice since the module was loaded:
    there is at most one instance per controller. *)
Theorem at_most_one_instance_per_controller (s : State) :
  reachable s ->
  NoDup (constructions (history s)) /\ NoDup (stores (history s)).
Proof. by intros (? & ? & _)%reachable_once. Qed.






(** ** The start phase *)

Lemma starts_app t1 t2 : starts (t1 ++ t2) = starts t1 ++ starts t2.
Proof. apply omap_app. Qed.

Lemma starts_none t : Forall (fun e => ~ is_start_call e) t -> starts t = [].
Proof.
  induction 1 as [|e l He _ IH]; [done|]. by destruct e.
Qed.

Lemma collectStartPromises_starts sorted :
  forall acc s ps s',
    collectStartPromises sorted acc s = Some (Return ps, s') ->
    (forall C, C ∈ sorted -> C ∈ dom (controllerInstances s)) ->
    exists t, history s' = history s ++ t /\
              starts t = filter (fun C => hooked C = true) sorted.
Proof.
  induction sorted as [|C rest IH]; intros acc s ps s' H Hall.
  - injection H as _ <-. exists []. by rewrite (right_id_L [] (++)).
  - cbn [collectStartPromises] in H. unfold bind at 1, gets at 1 in H.
    assert (forall X, X ∈ rest -> X ∈ dom (controllerInstances s)) as Hrest.
    { intros X HX. apply Hall. by right. }
    rewrite filter_cons.
    assert (hooked C = match onStart (classes C) with
                       | Some _ => true
                       | None => false
                       end) as Hk by done.
    destruct (onStart (classes C)) as [hook|] eqn:Hhook.
    + unfold bind at 1, callOnStart in H.
      destruct (controllerInstances s !! C) as [i|] eqn:Hi.
      * unfold emit, modify, bind at 1, ret at 1 in H.
        apply IH in H as (t & Hh & Hs); [|done].
        exists (EvOnStart C (hook s i) :: t). cbn in Hh.
        split; [by rewrite Hh, <- (assoc_L (++))|].
        rewrite decide_True by done. cbn. by rewrite <- Hs.
      * assert (C ∈ dom (controllerInstances s)) as HC by (apply Hall; left).
        apply elem_of_dom in HC as [i Hi']. congruence.
    + rewrite decide_False by (by rewrite Hk). by apply IH in H.
Qed.

Lemma sortedControllers_NoDup s :
  registry_ok s -> NoDup (sortedControllers s).
Proof.
  intros [Hnd _]. unfold sortedControllers.
  by rewrite (Permutation_map fst (sortBy_Permutation _ (controllerRegistry s))).
Qed.

(** X12. A call of [Start] that returns has called the start hook of every
    controller that has one, once each and in load order: the start hooks
    called are the sorted controllers with the hook-less ones filtered out,
    and in a reachable state no identity appears twice among them. *)
Theorem start_hooks_run_once_in_load_order (s s' : State) :
  reachable s ->
  Start s = Some (Return tt, s') ->
  exists t,
    history s' = history s ++ t /\
    starts t = filter (fun C => hooked C = true) (sortedControllers s) /\
    NoDup (starts t).
Proof.
  intros Hreach HS. destruct (Start_run s) as (r1 & s1 & H1 & H).
  destruct (registerAll_phase _ _ _ _ _ H1)
    as [(_ & _ & (t1 & Hh1 & Htr & _) & _) Hret].
  destruct r1 as [[]|error]; [|congruence].
  destruct H as (ps & s2 & s'' & Hc & Ha & HS'). rewrite HS in HS'.
  injection HS' as <-. destruct Hret as [_ Hall].
  destruct (announce_history s) as (t0 & Hh0 & Ht0).
  destruct (collectStartPromises_starts _ _ _ _ _ Hc Hall) as (calls & Hh2 & Hs).
  destruct (awaitAll_spec ps s2) as (s3 & warnings & Ha' & _ & Hh3 & Hw & _).
  rewrite Ha in Ha'. injection Ha' as <-.
  exists (t0 ++ t1 ++ calls ++ warnings).
  split; [by rewrite Hh3, Hh2, Hh1, Hh0, <- !(assoc_L (++))|].
  assert (starts (t0 ++ t1 ++ calls ++ warnings)
          = filter (fun C => hooked C = true) (sortedControllers s)) as ->.
  { rewrite !starts_app, Hs.
    rewrite (starts_none t0), (starts_none t1), (starts_none warnings); cbn.
    - by rewrite (right_id_L [] (++)).
    - eapply Forall_impl; [exact Hw|]. intros ? (? & ? & ->) H. exact H.
    - eapply Forall_impl; [exact Htr|]. intros e He Hs'.
      by apply (start_call_not_quiet e).
    - eapply Forall_impl; [exact Ht0|]. intros ? [? ->] H. exact H. }
  split; [done|]. apply NoDup_filter, sortedControllers_NoDup.
  by destruct (reachable_invariant s Hreach) as (_ & _ & ?).
Qed.

(** ** What reaches the console *)

Lemma quiet_plain e : quiet e -> ~ is_error_line e /\ ~ user_failure e.
Proof.
  intros Hq. split.
  - intros [args ->]. exact Hq.
  - intros (F & error & H). by apply (failed_call_not_quiet F error e).
Qed.

Lemma plain_elem (t : list Event) :
  Forall (fun e => ~ is_error_line e /\ ~ user_failure e) t ->
  ~ (exists e, e ∈ t /\ is_error_line e) /\ ~ (exists e, e ∈ t /\ user_failure e).
Proof.
  rewrite Forall_forall. intros H.
  split; intros (e & He & H'); by destruct (H e He).
Qed.

Lemma Fatal_both error end_ :
  Fatal error end_ ->
  (exists e, e ∈ end_ /\ is_error_line e) /\ (exists e, e ∈ end_ /\ user_failure e).
Proof.
  intros [C deps|C]; split.
  - eexists. split; [right; left|]. by eexists.
  - eexists. split; [left|]. exists C, error. left. by eexists.
  - eexists. split; [right; left|]. by eexists.
  - eexists. split; [left|]. exists C, error. by right.
Qed.

(** X18. During a call of [Start], [console.error] is called exactly when
    a constructor or an init hook throws: the errors the core raises itself,
    for a cyclic or an unregistered dependency, reach the caller of [Start]
    without a console line, and a failing start hook only warns. *)
Theorem only_user_failures_are_logged (s : State) r (s' : State) t :
  Start s = Some (r, s') ->
  history s' = history s ++ t ->
  (exists e, e ∈ t /\ is_error_line e) <-> (exists e, e ∈ t /\ user_failure e).
Proof.
  intros HS Ht.
  destruct (Start_story _ _ _ HS)
    as (t0 & t1 & t2 & r1 & s1 & Hh & Ht0 & Htr & _ & _ & _ & Hr).
  rewrite Ht in Hh. apply app_inv_head in Hh as ->.
  assert (Forall (fun e => ~ is_error_line e /\ ~ user_failure e) t0) as H0.
  { eapply Forall_impl; [exact Ht0|]. intros e He. split.
    - intros [args ->]. destruct He as [args' He]. discriminate.
    - intros (F & error & H). by apply (failed_call_not_warning F error e). }
  assert (Forall (fun e => ~ is_error_line e /\ ~ user_failure e) t2) as H2.
  { assert (Forall (fun e => is_start_call e \/ is_start_warning e) t2) as H2.
    { destruct r1; [eapply start_phase_events, Hr|].
      destruct Hr as [_ ->]. constructor. }
    eapply Forall_impl; [exact H2|]. intros e He. split.
    - intros [args ->]. destruct He as [He|(? & ? & He)]; [exact He|discriminate].
    - intros (F & error & H). by apply (failed_call_not_start F error e). }
  assert (forall l, Forall quiet l ->
            Forall (fun e => ~ is_error_line e /\ ~ user_failure e) l) as Hq.
  { intros l Hl. eapply Forall_impl; [exact Hl|]. apply quiet_plain. }
  assert (Forall quiet t1 \/
          exists error pre end_, t1 = pre ++ end_ /\ Forall quiet pre /\
                                 Fatal error end_) as [H1|H1].
  { destruct r1 as [a|error]; cbn in Htr; [by left|].
    destruct Htr as [?|(pre & end_ & ?)]; [by left|right; by exists error, pre, end_]. }
  - assert (Forall (fun e => ~ is_error_line e /\ ~ user_failure e)
              (t0 ++ t1 ++ t2)) as Hall.
    { rewrite !Forall_app. auto. }
    apply plain_elem in Hall as [Ha Hb]. by split.
  - destruct H1 as (error & pre & end_ & -> & Hpre & Hend).
    destruct (Fatal_both _ _ Hend) as [(e1 & He1 & Hl1) (e2 & He2 & Hl2)].
    split; intros _; [exists e2|exists e1]; (split; [|done]);
      rewrite !elem_of_app; auto.
Qed.

(** ** A call that nothing interrupts *)

Lemma alone_step fuel t s y : resume fuel t s = Some y -> alone (t, s) y.
Proof. intros H. by exists fuel. Qed.

(** What [registerController] does when it runs to its end is what its
    task does when it goes on by itself. *)
Lemma Registers_Resolves_alone :
  (forall C s r s', Registers C s r s' ->
     forall stack rest sorted,
     exists fuel0 x,
       (forall fuel, fuel0 <= fuel ->
          callRegisterController fuel C stack rest sorted s = Some x) /\
       rtc alone x (AtAwait C r stack rest sorted, s')) /\
  (forall l acc s r s', Resolves l acc s r s' ->
     forall C stack rest sorted,
     exists fuel0 x,
       (forall fuel, fuel0 <= fuel ->
          resolveNext (callRegisterController fuel) C l acc stack rest sorted s
          = Some x) /\
       rtc alone x
         match r with
         | Return deps => instantiate C deps stack rest sorted s'
         | Throw error => (AtAwait C (Throw error) stack rest sorted, s')
         end).
Proof.
  assert (forall C s fuel0 x stack rest sorted,
            controllerInstances s !! C = None ->
            C ∉ registeringControllers s ->
            (forall fuel, fuel0 <= fuel ->
               resolveNext (callRegisterController fuel) C
                 (paramtypes (classes C)) [] stack rest sorted (begin C s)
               = Some x) ->
            forall fuel, S fuel0 <= fuel ->
              callRegisterController fuel C stack rest sorted s = Some x)
    as Hcall.
  { intros C s fuel0 x stack rest sorted Hi Hreg H [|fuel] Hle; [lia|].
    cbn [callRegisterController]. rewrite Hi, bool_decide_eq_false_2 by done.
    apply H. lia. }
  apply Registers_Resolves_ind.
  - intros C s i Hi stack rest sorted.
    exists 1, (AtAwait C (Return i) stack rest sorted, s).
    split; [|done]. intros [|fuel] Hle; [lia|].
    cbn [callRegisterController]. by rewrite Hi.
  - intros C s Hi Hreg stack rest sorted.
    exists 1, (AtAwait C (Throw (AppLifeError msgCyclic)) stack rest sorted, s).
    split; [|done]. intros [|fuel] Hle; [lia|].
    by rewrite callRegisterController_stuck.
  - intros C s error s2 Hi Hreg Hres IH stack rest sorted.
    destruct (IH C stack rest sorted) as (fuel0 & x & Hx & Hrun).
    exists (S fuel0), x. split; [by eapply Hcall|done].
  - intros C s deps s2 error Hi Hreg Hres IH Hnew stack rest sorted.
    destruct (IH C stack rest sorted) as (fuel0 & x & Hx & Hrun).
    exists (S fuel0), x. split; [by eapply Hcall|].
    unfold instantiate in Hrun. by rewrite Hnew in Hrun.
  - intros C s deps s2 i hook error Hi Hreg Hres IH Hnew Hinit Hhook
      stack rest sorted.
    destruct (IH C stack rest sorted) as (fuel0 & x & Hx & Hrun).
    exists (S fuel0), x. split; [by eapply Hcall|].
    unfold instantiate in Hrun. rewrite Hnew, Hinit, Hhook in Hrun.
    eapply rtc_r; [exact Hrun|]. by apply (alone_step 0).
  - intros C s deps s2 i s3 Hi Hreg Hres IH Hnew Hinit stack rest sorted.
    destruct (IH C stack rest sorted) as (fuel0 & x & Hx & Hrun).
    exists (S fuel0), x. split; [by eapply Hcall|].
    unfold instantiate in Hrun. rewrite Hnew in Hrun.
    unfold initialized in Hinit. destruct (onInit (classes C)) as [hook|].
    + destruct Hinit as [Hhook ->]. rewrite Hhook in Hrun.
      eapply rtc_r; [exact Hrun|]. by apply (alone_step 0).
    + by subst s3.
  - intros acc s C stack rest sorted.
    by exists 0, (instantiate C acc stack rest sorted s).
  - intros dep paramTypes acc s Hhas C stack rest sorted.
    exists 0, (AtAwait C (Throw (AppLifeError (msgDependency dep)))
                 stack rest sorted, s).
    split; [|done]. intros fuel _. cbn. by rewrite Hhas.
  - intros dep paramTypes acc s error s1 Hhas Hreg IH C stack rest sorted.
    destruct (IH ({| frameClass := C; frameRest := paramTypes; frameDeps := acc |}
                    :: stack) rest sorted) as (fuel0 & x & Hx & Hrun).
    exists fuel0, x. split.
    + intros fuel Hle. cbn. rewrite Hhas. by apply Hx.
    + eapply rtc_r; [exact Hrun|]. by apply (alone_step 0).
  - intros dep paramTypes acc s i s1 r s2 Hhas Hreg IH1 Hres IH2
      C stack rest sorted.
    destruct (IH1 ({| frameClass := C; frameRest := paramTypes; frameDeps := acc |}
                     :: stack) rest sorted) as (fuel0 & x & Hx & Hrun).
    destruct (IH2 C stack rest sorted) as (fuel1 & y & Hy & Hrun').
    exists fuel0, x. split.
    + intros fuel Hle. cbn. rewrite Hhas. by apply Hx.
    + etrans; [exact Hrun|]. eapply rtc_l; [|exact Hrun'].
      apply (alone_step fuel1). cbn. by apply Hy.
Qed.

Lemma awaitAll_alone startPromises :
  forall s s',
    awaitAll startPromises s = Some (Return tt, s') ->
    rtc alone (AtAll startPromises, s) (Over (Return tt), s').
Proof.
  induction startPromises as [|[[error|] instance] ps IH]; intros s s' H.
  - injection H as <-. apply rtc_once. by apply (alone_step 0).
  - cbn [awaitAll] in H. unfold bind at 1, DebugLog, emit, modify in H.
    eapply rtc_l; [|by apply IH]. by apply (alone_step 0).
  - cbn [awaitAll] in H. eapply rtc_l; [|by apply IH]. by apply (alone_step 0).
Qed.

Lemma registerAll_alone fuel sorted rest :
  forall s r s1,
    registerAll fuel rest s = Some (r, s1) ->
    exists fuel' x,
      startNext fuel' rest sorted s = Some x /\
      match r with
      | Throw error => rtc alone x (Over (Throw error), s1)
      | Return _ =>
          exists ps s2,
            collectStartPromises sorted [] s1 = Some (Return ps, s2) /\
            rtc alone x (AtAll ps, s2)
      end.
Proof.
  induction rest as [|C rest IH]; intros s r s1 H.
  - injection H as <- <-.
    destruct (collectStartPromises_spec sorted [] s) as (ps & s2 & tr & Hc & _).
    exists 0, (AtAll ps, s2). cbn. rewrite Hc. split; [done|]. by exists ps, s2.
  - apply registerAll_cons in H as (r1 & s' & H1 & H).
    apply registerController_sound in H1.
    destruct (proj1 Registers_Resolves_alone _ _ _ _ H1 [] rest sorted)
      as (fuel0 & x & Hx & Hrun).
    exists fuel0, x. split; [by apply Hx|].
    destruct r1 as [i|error].
    + destruct (IH _ _ _ H) as (fuel' & y & Hy & Hrest).
      assert (rtc alone x y) as Hxy.
      { eapply rtc_r; [exact Hrun|]. by apply (alone_step fuel'). }
      destruct r as [[]|error].
      * destruct Hrest as (ps & s2 & Hc & Hyz). exists ps, s2.
        split; [done|by etrans].
      * by etrans.
    + injection H as -> ->. eapply rtc_r; [exact Hrun|]. by apply (alone_step 0).
Qed.

Lemma alone_async pool x y :
  rtc alone x y ->
  rtc async_step (snd x, pool ++ [fst x]) (snd y, pool ++ [fst y]).
Proof.
  induction 1 as [|[t1 s1] [t2 s2] z [fuel H] _ IH]; [done|].
  eapply rtc_l; [|exact IH]. eapply async_runs. by eapply runs_resume.
Qed.

(** X20. What [Start] does when it runs to its end with nothing in
    between is one of the ways its task can go: the call of [Start], then
    the task going on by itself until the promise of [Start] settles, end
    in the same state with the same outcome. *)
Theorem uninterrupted_Start_is_Start
    (s s' : State) (r : Completion unit) (pool : list Task) :
  Start s = Some (r, s') ->
  exists fuel t1 s1,
    callStart fuel s = Some (t1, s1) /\
    rtc alone (t1, s1) (Over r, s') /\
    rtc async_step (s, pool) (s', pool ++ [Over r]).
Proof.
  intros HS. destruct (Start_run s) as (r1 & s1 & H1 & H).
  destruct (registerAll_alone _ (sortedControllers s) _ _ _ _ H1)
    as (fuel & [t1 s1'] & Hx & Hrun).
  assert (callStart fuel s = Some (t1, s1')) as Hcall
    by (by rewrite callStart_announce, sortedControllers_announce).
  assert (rtc alone (t1, s1') (Over r, s')) as Halone.
  { destruct r1 as [[]|error].
    - destruct H as (ps & s2 & s'' & Hc & Ha & HS'). rewrite HS in HS'.
      injection HS' as -> <-.
      destruct Hrun as (ps' & s2' & Hc' & Hrun). rewrite Hc in Hc'.
      injection Hc' as <- <-. etrans; [exact Hrun|]. by apply awaitAll_alone.
    - rewrite HS in H. by injection H as -> ->. }
  exists fuel, t1, s1'. split; [done|].
  split; [done|]. eapply rtc_l.
  - eapply async_runs, (runs_Start fuel), Hcall.
  - by apply (alone_async pool) in Halone.
Qed.

(** ** Invariants of overlapping calls *)

(** X21. In every configuration the module can get into, however the calls
    of [Start] overlap, a class has at most one suspended
    [registerController], every class with a suspended call is in flight
    and not stored, and only declared controllers are in flight. *)
Theorem one_suspended_call_per_class (cfg : Config) :
  async_reachable cfg ->
  NoDup (suspended_in (snd cfg)) /\
  (forall C, C ∈ suspended_in (snd cfg) ->
     C ∈ registeringControllers (fst cfg) /\
     controllerInstances (fst cfg) !! C = None) /\
  registeringControllers (fst cfg) ⊆ declared (fst cfg).
Proof.
  intros ((Hnd & Hst) & Hin & _)%async_reachable_tasks_ok.
  split; [done|]. split; [|done]. intros C HC. apply (Hst C HC).
Qed.

Lemma async_step_kept cfg cfg' :
  async_step cfg cfg' -> tasks_ok cfg ->
  instances_kept (fst cfg) (fst cfg') /\
  (started (fst cfg) = true -> started (fst cfg') = true).
Proof.
  intros [options target s r s' pool H|C s r s' pool H|cfg0 t cfg0' H] Hok;
    cbn [fst].
  - rewrite Controller_spec in H.
    destruct (registry_has _ _); injection H as _ <-;
      (split; [by intros ??|done]).
  - rewrite Dependency_spec in H. injection H as _ <-.
    split; [by intros ??|done].
  - destruct Hok as (Hown & _).
    destruct H as [fuel s pool t' s' H|fuel s pool1 t0 pool2 t' s' H];
      cbn [fst snd] in *.
    + by apply callStart_stretch in H as [(_ & ? & _) ?].
    + rewrite suspended_in_middle in Hown.
      destruct (own_ok_middle _ _ _ _ Hown) as [Hown0 _].
      by apply resume_stretch in H as (_ & ? & ? & _).
Qed.

Lemma rtc_async_step_kept cfg cfg' :
  rtc async_step cfg cfg' -> tasks_ok cfg ->
  instances_kept (fst cfg) (fst cfg') /\
  (started (fst cfg) = true -> started (fst cfg') = true).
Proof.
  induction 1 as [cfg|cfg1 cfg2 cfg3 H12 _ IH]; intros Hok.
  - split; [apply instances_kept_refl|done].
  - destruct (async_step_kept _ _ H12 Hok) as [Hk Hs].
    destruct IH as [Hk' Hs']; [by eapply async_step_tasks_ok|].
    split; [by eapply instances_kept_trans|auto].
Qed.

(** X22. However the calls of [Start] overlap, an instance, once stored, is
    never removed or replaced. *)
Theorem overlapping_calls_keep_stored_instances
    (cfg cfg' : Config) (C : Ident) (i : Instance) :
  async_reachable cfg ->
  rtc async_step cfg cfg' ->
  controllerInstances (fst cfg) !! C = Some i ->
  controllerInstances (fst cfg') !! C = Some i.
Proof.
  intros Hreach%async_reachable_tasks_ok Hsteps.
  by apply (rtc_async_step_kept _ _ Hsteps Hreach).
Qed.

(** X23. [started] is set as soon as [Start] is called, before its first
    [await], and stays set: from then on, however the calls overlap and
    whether or not that [Start] has settled, [Dependency] returns the
    stored instance or throws the not-loaded error, never the not-started
    one. *)
Theorem Dependency_once_Start_is_called
    (s s1 : State) (pool : list Task) (fuel : nat) (t : Task)
    (cfg' : Config) (C : Ident) :
  async_reachable (s, pool) ->
  callStart fuel s = Some (t, s1) ->
  rtc async_step (s1, pool ++ [t]) cfg' ->
  started (fst cfg') = true /\
  Dependency C (fst cfg') =
    Some (match controllerInstances (fst cfg') !! C with
          | Some instance => Return instance
          | None => Throw (AppLifeError msgNotLoaded)
          end, fst cfg').
Proof.
  intros Hreach%async_reachable_tasks_ok HS Hsteps.
  assert (tasks_ok (s1, pool ++ [t])) as Hok1.
  { eapply async_step_tasks_ok; [|exact Hreach].
    by eapply async_runs, runs_Start. }
  apply callStart_stretch in HS as [_ Hst].
  destruct (rtc_async_step_kept _ _ Hsteps Hok1) as [_ Hst'].
  assert (started (fst cfg') = true) as Hstarted by auto.
  split; [done|]. by rewrite Dependency_spec, Hstarted.
Qed.

End AppLife.

Arguments Return {A} a.
Arguments Throw {A} error.
Arguments ArgText {Instance} text.
Arguments ArgError {Instance} error.
Arguments ArgInstance {Instance} instance.
Arguments EvConsole {Instance} type args.
Arguments EvNew {Instance} ControllerClass dependencies outcome.
Arguments EvOnInit {Instance} ControllerClass outcome.
Arguments EvOnStart {Instance} ControllerClass outcome.
Arguments EvSet {Instance} ControllerClass.
Arguments controllerRegistry {Instance} s.
Arguments controllerInstances {Instance} s.
Arguments loadOrderMap {Instance} s.
Arguments registeringControllers {Instance} s.
Arguments started {Instance} s.
Arguments history {Instance} s.
Arguments paramtypes {Instance} c.
Arguments declared {Instance} s.
Arguments stored {Instance} t.
Arguments constructions {Instance} t.
Arguments startWarning {Instance} error instance.
Arguments Start {Instance} classes s.
Arguments registerController {Instance} classes fuel ControllerClass s.
Arguments reachable {Instance} classes s.
Arguments depends {Instance} classes A B.
Arguments on_cycle {Instance} classes A.
Arguments untouched {Instance} A s s'.
Arguments step {Instance} classes s s'.
Arguments frameClass {Instance} f.
Arguments frameRest {Instance} f.
Arguments frameDeps {Instance} f.
Arguments AtAwait {Instance} ControllerClass r stack rest sorted.
Arguments AtInit {Instance} ControllerClass instance outcome stack rest sorted.
Arguments AtAll {Instance} startPromises.
Arguments Over {Instance} r.
Arguments callRegisterController {Instance} classes fuel ControllerClass
  stack rest sorted s.
Arguments callStart {Instance} classes fuel s.
Arguments resume {Instance} classes fuel t s.
Arguments suspended {Instance} t.
Arguments suspended_in {Instance} pool.
Arguments going {Instance} t.
Arguments going_in {Instance} pool.
Arguments runs {Instance} classes _ _ _.
Arguments async_step {Instance} classes _ _.
Arguments async_reachable {Instance} classes cfg.
Arguments held_up {Instance} C t.
Arguments alone {Instance} classes x y.
Arguments leads_to_cycle {Instance} classes C.
Arguments self_contained {Instance} classes s l.
Arguments reliable {Instance} classes C.

(** * Concrete runs

    Small programs on which the statements above are exercised.  Instances
    are strings: the constructor of a class returns the class name. *)

(** ** The programs *)

(** The state an operation leaves. *)
Definition exec {Instance A} (m : M Instance A) (s : State Instance)
    : State Instance :=
  match m s with
  | Some (_, s') => s'
  | None => s
  end.

(** [@Controller(options) class target] at module load time. *)
Definition declare (loadOrder : option Z) (target : Ident) (s : State string)
    : State string :=
  exec (Controller string {| loadOrder := loadOrder |} target) s.

(** A class with the given constructor parameters and no hooks. *)
Definition plain (deps : list Ident) (name : string) : ClassInfo string :=
  {| paramtypes := deps;
     construct := fun _ _ => inr name;
     onInit := None;
     onStart := None |}.

(** A class whose constructor throws. *)
Definition broken (deps : list Ident) (what : string) : ClassInfo string :=
  {| paramtypes := deps;
     construct := fun _ _ => inl (UserError what);
     onInit := None;
     onStart := None |}.

(** A class with a start hook that returns or throws as [outcome] says. *)
Definition starting (outcome : option Error) (name : string)
    : ClassInfo string :=
  {| paramtypes := [];
     construct := fun _ _ => inr name;
     onInit := None;
     onStart := Some (fun _ _ => outcome) |}.

(** The class table of a program; a class that is not listed takes no
    constructor parameter and has no hook. *)
Fixpoint classTable (l : list (Ident * ClassInfo string)) (C : Ident)
    : ClassInfo string :=
  match l with
  | [] => plain [] C
  | (name, info) :: l' => if String.eqb name C then info else classTable l' C
  end.

(** [A] (loadOrder 2, no dependency) and [B] (loadOrder 1, depends on [A]). *)
Definition classesAB : Ident -> ClassInfo string :=
  classTable [("A", plain [] "A"); ("B", plain ["A"] "B")].

Definition declaredAB : State string :=
  declare (Some 1%Z) "B" (declare (Some 2%Z) "A" (initial string)).

Definition startedAB : State string := exec (Start classesAB) declaredAB.

(** A mutual cycle: [A] depends on [B] and [B] on [A]. *)
Definition classesCycle : Ident -> ClassInfo string :=
  classTable [("A", plain ["B"] "A"); ("B", plain ["A"] "B")].

Definition declaredCycle : State string :=
  declare None "B" (declare None "A" (initial string)).

(** [X] depends on [U], which is never declared, and is declared before
    [A], which depends on itself. *)
Definition classesDangling : Ident -> ClassInfo string :=
  classTable [("X", plain ["U"] "X"); ("A", plain ["A"] "A")].

Definition declaredDangling : State string :=
  declare None "A" (declare None "X" (initial string)).

(** [A], then [F] whose constructor throws, then [Z]. *)
Definition classesBoom : Ident -> ClassInfo string :=
  classTable [("A", plain [] "A"); ("F", broken [] "boom"); ("Z", plain [] "Z")].

Definition declaredBoom : State string :=
  declare None "Z" (declare None "F" (declare None "A" (initial string))).

Definition startedBoom : State string := exec (Start classesBoom) declaredBoom.

Definition historyBoom : list (Event string) :=
  [EvNew "A" [] (inr "A"); EvSet "A";
   EvNew "F" [] (inl (UserError "boom"));
   EvConsole LError
     [ArgText "[AppLife]: "; ArgText "Error in constructor:";
      ArgError (UserError "boom")]].

(** [E] (depends on [D]), then [F] whose constructor throws, then [D]:
    [D] is constructed for [E], before [F] is tried. *)
Definition classesEarly : Ident -> ClassInfo string :=
  classTable [("E", plain ["D"] "E"); ("F", broken [] "boom")].

Definition declaredEarly : State string :=
  declare None "D" (declare None "F" (declare None "E" (initial string))).

Definition startedEarly : State string :=
  exec (Start classesEarly) declaredEarly.

(** [A], whose start hook throws, and [B], whose start hook returns. *)
Definition classesStart : Ident -> ClassInfo string :=
  classTable [("A", starting (Some (UserError "late")) "A");
              ("B", starting None "B")].

Definition declaredStart : State string :=
  declare None "B" (declare None "A" (initial string)).

Definition startedStart : State string :=
  exec (Start classesStart) declaredStart.

Definition historyStart : list (Event string) :=
  [EvNew "A" [] (inr "A"); EvSet "A"; EvNew "B" [] (inr "B"); EvSet "B";
   EvOnStart "A" (Some (UserError "late")); EvOnStart "B" None;
   startWarning (UserError "late") (Some "A")].

(** Four controllers without dependencies: [A] (loadOrder 2), [B] (no
    hint), [C] (loadOrder 0), [D] (loadOrder -1), declared in this order. *)
Definition classesFlat : Ident -> ClassInfo string := classTable [].

Definition declaredFlat : State string :=
  declare (Some (-1)%Z) "D"
    (declare (Some 0%Z) "C"
       (declare None "B"
          (declare (Some 2%Z) "A" (initial string)))).

Definition startedFlat : State string := exec (Start classesFlat) declaredFlat.

(** [A] depends on [U], which is never declared. *)
Definition classesMissing : Ident -> ClassInfo string :=
  classTable [("A", plain ["U"] "A")].

Definition declaredMissing : State string := declare None "A" (initial string).

(** [A] depends on [B], whose constructor throws, and then on [U], which is
    never declared. *)
Definition classesBeforeMissing : Ident -> ClassInfo string :=
  classTable [("A", plain ["B"; "U"] "A"); ("B", broken [] "boom")].

Definition declaredBeforeMissing : State string :=
  declare None "B" (declare None "A" (initial string)).

(** [A] declared once, with loadOrder 5. *)
Definition declaredOnce : State string :=
  declare (Some 5%Z) "A" (initial string).

(** One controller with a start hook, started once and twice. *)
Definition classesTwice : Ident -> ClassInfo string :=
  classTable [("A", starting None "A")].

Definition declaredTwice : State string := declare None "A" (initial string).

Definition startedOnce : State string := exec (Start classesTwice) declaredTwice.

Definition startedTwice : State string := exec (Start classesTwice) startedOnce.

(** A mutual cycle declared before [F], whose constructor throws. *)
Definition classesCycleBoom : Ident -> ClassInfo string :=
  classTable [("A", plain ["B"] "A"); ("B", plain ["A"] "B");
              ("F", broken [] "boom")].

Definition declaredCycleBoom : State string :=
  declare None "F" (declare None "B" (declare None "A" (initial string))).

(** A call of [Start] up to its first [await], and a task up to its next
    one: the task and the state they leave. *)
Definition called {Instance} (classes : Ident -> ClassInfo Instance)
    (s : State Instance) : Task Instance * State Instance :=
  match callStart classes (S (length (controllerRegistry s))) s with
  | Some x => x
  | None => (Over (Return tt), s)
  end.

Definition resumed {Instance} (classes : Ident -> ClassInfo Instance)
    (t : Task Instance) (s : State Instance) : Task Instance * State Instance :=
  match resume classes (S (length (controllerRegistry s))) t s with
  | Some x => x
  | None => (t, s)
  end.

(** [Start] is called twice in a row on [B] (depends on [A]) and [A]; then
    the first call goes on. *)
Definition firstAB : Task string * State string := called classesAB declaredAB.

Definition secondAB : Task string * State string :=
  called classesAB (snd firstAB).

Definition thirdAB : Task string * State string :=
  resumed classesAB (fst firstAB) (snd secondAB).

(** [Start] is called on [A], [F] (whose constructor throws) and [Z], and
    goes on twice; then [Start] is called again and goes on once. *)
Definition boomCalled : Task string * State string :=
  called classesBoom declaredBoom.

Definition boomFailed : Task string * State string :=
  resumed classesBoom (fst boomCalled) (snd boomCalled).

(** The task of the first call when the constructor of [F] has thrown. *)
Definition failedF : Task string :=
  AtAwait "F" (Throw (UserError "boom")) [] ["Z"] ["A"; "F"; "Z"].

Definition boomOver : Task string * State string :=
  resumed classesBoom failedF (snd boomFailed).

Definition boomAgain : Task string * State string :=
  called classesBoom (snd boomOver).

Definition boomStopped : Task string * State string :=
  resumed classesBoom (fst boomAgain) (snd boomAgain).

(** [A] is declared, then [B]; then [Start] is called. *)
Definition declaredOnceAndB : State string := declare (Some 1%Z) "B" declaredOnce.

Definition calledOnceAndB : Task string * State string :=
  called classesFlat declaredOnceAndB.

(** ** Reaching the states of the programs *)

Lemma reachable_exec_Controller {Instance} classes options target
    (s : State Instance) :
  reachable classes s ->
  reachable classes (exec (Controller Instance options target) s).
Proof.
  intros H. unfold exec.
  destruct (Controller Instance options target s) as [[r s']|] eqn:HC; [|done].
  by eapply reachable_Controller.
Qed.

Lemma reachable_exec_Start {Instance} classes (s : State Instance) :
  reachable classes s -> reachable classes (exec (Start classes) s).
Proof.
  intros H. unfold exec.
  destruct (Start classes s) as [[r s']|] eqn:HS; [|done].
  by eapply reachable_Start.
Qed.

Lemma reachable_declare classes loadOrder target s :
  reachable classes s -> reachable classes (declare loadOrder target s).
Proof. apply reachable_exec_Controller. Qed.

Lemma async_reachable_declare classes loadOrder target s pool :
  async_reachable classes (s, pool) ->
  async_reachable classes (declare loadOrder target s, pool).
Proof.
  intros H. eapply rtc_r; [exact H|]. unfold declare, exec.
  destruct (Controller string {| loadOrder := loadOrder |} target s)
    as [[r s']|] eqn:HC; [|by rewrite Controller_spec in HC].
  by eapply async_Controller.
Qed.

(** ** [A] (loadOrder 2, no dependency) and [B] (loadOrder 1, depends on [A]) *)

Example startedAB_history :
  sortedControllers string declaredAB = ["B"; "A"] /\
  history startedAB =
    [EvNew "A" [] (inr "A"); EvSet "A"; EvNew "B" ["A"] (inr "B"); EvSet "B"].
Proof. split; vm_compute; reflexivity. Qed.

Lemma dependencies_are_initialized_first_witness :
  reachable classesAB startedAB /\
  EvSet "A" ∈ ([EvNew "A" [] (inr "A"); EvSet "A"] : list (Event string)).
Proof.
  assert (reachable classesAB startedAB) as Hreach.
  { apply reachable_exec_Start. do 2 apply reachable_declare.
    apply reachable_initial. }
  split; [exact Hreach|].
  apply (proj1 (dependencies_are_initialized_first string classesAB startedAB
                  Hreach)
           [EvNew "A" [] (inr "A"); EvSet "A"] "B" ["A"] (inr "B") [EvSet "B"] "A").
  - reflexivity.
  - left.
Defined.

(** ** A mutual cycle *)

Lemma leads_from_A X :
  rtc (depends classesCycleBoom) "A" X -> X = "A" \/ X = "B".
Proof.
  assert (forall C, C = "A" \/ C = "B" ->
                    rtc (depends classesCycleBoom) C X -> X = "A" \/ X = "B")
    as H; [|apply H; by left].
  intros C HC Hrtc. induction Hrtc as [|C Y X HCY _ IH]; [done|].
  apply IH. destruct HC as [-> | ->]; unfold depends in HCY; cbn in HCY;
    apply list_elem_of_singleton in HCY as ->; auto.
Qed.

Lemma cycle_makes_Start_fail_witness :
  reachable classesCycleBoom declaredCycleBoom /\
  "A" ∈ declared declaredCycleBoom /\
  depends classesCycleBoom "A" "B" /\
  depends classesCycleBoom "B" "A" /\
  sortedControllers string declaredCycleBoom = [] ++ "A" :: ["B"; "F"] /\
  leads_to_cycle classesCycleBoom "A" /\
  self_contained classesCycleBoom declaredCycleBoom ([] ++ ["A"]) /\
  exists s',
    Start classesCycleBoom declaredCycleBoom
      = Some (Throw (AppLifeError msgCyclic), s') /\
    controllerInstances s' !! "A" = None /\
    controllerInstances s' !! "B" = None.
Proof.
  assert (reachable classesCycleBoom declaredCycleBoom) as Hreach.
  { do 3 apply reachable_declare. apply reachable_initial. }
  assert ("A" ∈ declared declaredCycleBoom) as HA by compute_done.
  assert (depends classesCycleBoom "A" "B") as HAB by left.
  assert (depends classesCycleBoom "B" "A") as HBA by left.
  assert (sortedControllers string declaredCycleBoom = [] ++ "A" :: ["B"; "F"])
    as Hsorted by (vm_compute; reflexivity).
  assert (leads_to_cycle classesCycleBoom "A") as Hlead.
  { exists "A". split; [done|]. eapply tc_l; [exact HAB|by apply tc_once]. }
  assert (self_contained classesCycleBoom declaredCycleBoom ([] ++ ["A"]))
    as Hself.
  { intros C X ->%list_elem_of_singleton [-> | ->]%leads_from_A.
    - split; [compute_done|]. split; [by eexists|done].
    - split; [compute_done|]. split; [by eexists|done]. }
  split; [exact Hreach|]. split; [exact HA|]. split; [exact HAB|].
  split; [exact HBA|]. split; [exact Hsorted|]. split; [exact Hlead|].
  split; [exact Hself|].
  destruct (cycle_makes_Start_fail string classesCycleBoom declaredCycleBoom
              "A" "B" Hreach HA HAB HBA)
    as (error & s' & HS & HnA & HnB & _ & _ & Hlocal & _ & _).
  exists s'. split; [|done].
  by rewrite <- (Hlocal [] "A" ["B"; "F"] Hsorted Hlead Hself).
Defined.

Example cycle_before_a_failing_constructor :
  exists s',
    Start classesCycleBoom declaredCycleBoom
      = Some (Throw (AppLifeError "Cyclic dependency detected"), s') /\
    history s' = [].
Proof. eexists. split; vm_compute; reflexivity. Qed.

Example cycle_error :
  exists s', Start classesCycle declaredCycle
             = Some (Throw (AppLifeError "Cyclic dependency detected"), s').
Proof. eexists. vm_compute. reflexivity. Qed.

(** ** A self-cycle behind a controller with an undeclared dependency *)

(** C2, counterexample: [A] depends on itself, yet [Start] throws the
    unknown-identity error of [X], which is resolved first. *)
Lemma cycle_behind_unknown_dependency :
  reachable classesDangling declaredDangling /\
  "A" ∈ declared declaredDangling /\
  depends classesDangling "A" "A" /\
  exists s',
    Start classesDangling declaredDangling
      = Some (Throw (AppLifeError "Dependency U not registered via @Controller"), s') /\
    AppLifeError "Dependency U not registered via @Controller"
      <> AppLifeError msgCyclic.
Proof.
  split.
  { do 2 apply reachable_declare. apply reachable_initial. }
  split; [compute_done|]. split; [left|].
  eexists. split; [vm_compute; reflexivity|discriminate].
Qed.

(** ** A constructor that throws *)

Lemma fatal_failure_halts_Start_witness :
  Start classesBoom declaredBoom = Some (Throw (UserError "boom"), startedBoom) /\
  history startedBoom = history declaredBoom ++ historyBoom /\
  (exists e, e ∈ historyBoom /\ failed_call string "F" (UserError "boom") e) /\
  (Throw (UserError "boom") : Completion unit) = Throw (UserError "boom") /\
  exists pre end_,
    historyBoom = pre ++ end_ /\
    Forall (calm string) pre /\
    Fatal string (UserError "boom") end_ /\
    (exists e, e ∈ end_ /\ failed_call string "F" (UserError "boom") e) /\
    dom (controllerInstances startedBoom)
      = dom (controllerInstances declaredBoom) ∪ stored pre /\
    forall C,
      C ∉ dom (controllerInstances declaredBoom) ->
      EvSet C ∉ pre ->
      Dependency string C startedBoom
        = Some (Throw (AppLifeError msgNotLoaded), startedBoom).
Proof.
  assert (Start classesBoom declaredBoom
          = Some (Throw (UserError "boom"), startedBoom)) as HS
    by (vm_compute; reflexivity).
  assert (history startedBoom = history declaredBoom ++ historyBoom) as Hh
    by (vm_compute; reflexivity).
  assert (exists e, e ∈ historyBoom /\ failed_call string "F" (UserError "boom") e)
    as Hfail.
  { exists (EvNew "F" [] (inl (UserError "boom"))). split.
    - unfold historyBoom. do 2 right. left.
    - left. by exists []. }
  split; [exact HS|]. split; [exact Hh|]. split; [exact Hfail|].
  exact (fatal_failure_halts_Start string classesBoom declaredBoom startedBoom
           (Throw (UserError "boom")) historyBoom "F" (UserError "boom")
           HS Hh Hfail).
Defined.

Example later_controller_not_loaded :
  Dependency string "Z" startedBoom
    = Some (Throw (AppLifeError "Controller not registered or not loaded yet"),
            startedBoom) /\
  Dependency string "A" startedBoom = Some (Return "A", startedBoom).
Proof. split; vm_compute; reflexivity. Qed.

Example dependency_loaded_before_the_failure :
  sortedControllers string declaredEarly = ["E"; "F"; "D"] /\
  constructions (history startedEarly) = ["D"; "E"; "F"] /\
  Dependency string "D" startedEarly = Some (Return "D", startedEarly).
Proof. repeat split; vm_compute; reflexivity. Qed.

(** ** A start hook that throws *)

Lemma start_hook_failure_is_not_fatal_witness :
  Start classesStart declaredStart = Some (Return tt, startedStart) /\
  history startedStart = history declaredStart ++ historyStart /\
  EvOnStart "A" (Some (UserError "late")) ∈ historyStart /\
  (Return tt : Completion unit) = Return tt /\
  (exists i,
     controllerInstances startedStart !! "A" = Some i /\
     startWarning (UserError "late") (Some i) ∈ historyStart /\
     Dependency string "A" startedStart = Some (Return i, startedStart)) /\
  (forall C, C ∈ declared declaredStart ->
     is_Some (onStart string (classesStart C)) ->
     exists outcome, EvOnStart C outcome ∈ historyStart).
Proof.
  assert (Start classesStart declaredStart = Some (Return tt, startedStart))
    as HS by (vm_compute; reflexivity).
  assert (history startedStart = history declaredStart ++ historyStart) as Hh
    by (vm_compute; reflexivity).
  assert (EvOnStart "A" (Some (UserError "late")) ∈ historyStart) as He.
  { unfold historyStart. do 4 right. left. }
  split; [exact HS|]. split; [exact Hh|]. split; [exact He|].
  exact (start_hook_failure_is_not_fatal string classesStart declaredStart
           startedStart (Return tt) historyStart "A" (UserError "late")
           HS Hh He).
Defined.

(** ** Four controllers without dependencies *)

Lemma independent_controllers_load_in_order_witness :
  reachable classesFlat declaredFlat /\
  started declaredFlat = false /\
  (forall C, C ∈ declared declaredFlat -> paramtypes (classesFlat C) = []) /\
  Start classesFlat declaredFlat = Some (Return tt, startedFlat) /\
  constructions (history startedFlat)
    = map fst (sortBy hint (controllerRegistry declaredFlat)).
Proof.
  assert (reachable classesFlat declaredFlat) as Hreach.
  { do 4 apply reachable_declare. apply reachable_initial. }
  assert (started declaredFlat = false) as Hst by (vm_compute; reflexivity).
  assert (forall C, C ∈ declared declaredFlat -> paramtypes (classesFlat C) = [])
    as Hflat by (intros C _; reflexivity).
  assert (Start classesFlat declaredFlat = Some (Return tt, startedFlat))
    as HS by (vm_compute; reflexivity).
  split; [exact Hreach|]. split; [exact Hst|]. split; [exact Hflat|].
  split; [exact HS|].
  apply (independent_controllers_load_in_order string classesFlat declaredFlat
           startedFlat (Return tt) Hreach Hst Hflat HS).
  reflexivity.
Defined.

Example flat_order :
  controllerRegistry declaredFlat
    = [("A", {| loadOrder := Some 2%Z |}); ("B", {| loadOrder := None |});
       ("C", {| loadOrder := Some 0%Z |}); ("D", {| loadOrder := Some (-1)%Z |})] /\
  constructions (history startedFlat) = ["D"; "B"; "C"; "A"].
Proof. split; vm_compute; reflexivity. Qed.

(** ** An undeclared dependency *)

Lemma unknown_dependency_fails_the_dependent_witness :
  "A" ∈ declared declaredMissing /\
  controllerInstances declaredMissing !! "A" = None /\
  depends classesMissing "A" "U" /\
  ("U" ∉ declared declaredMissing) /\
  length (controllerRegistry declaredMissing) < 2 /\
  exists error s',
    registerController classesMissing 2 "A" declaredMissing
      = Some (Throw error, s') /\
    controllerInstances s' !! "A" = None.
Proof.
  assert ("A" ∈ declared declaredMissing) as HA by compute_done.
  assert (controllerInstances declaredMissing !! "A" = None) as Hi
    by (vm_compute; reflexivity).
  assert (depends classesMissing "A" "U") as HU by left.
  assert ("U" ∉ declared declaredMissing) as Hd by compute_done.
  assert (length (controllerRegistry declaredMissing) < 2) as Hfuel
    by (vm_compute; lia).
  split; [exact HA|]. split; [exact Hi|]. split; [exact HU|].
  split; [exact Hd|]. split; [exact Hfuel|].
  destruct (unknown_dependency_fails_the_dependent string classesMissing 2
              "A" "U" declaredMissing HA Hi HU Hd Hfuel)
    as (error & s' & HR & Hnone & _).
  exists error, s'. split; [exact HR|exact Hnone].
Defined.

Example unknown_dependency_error :
  exists s',
    registerController classesMissing 2 "A" declaredMissing
      = Some (Throw (AppLifeError "Dependency U not registered via @Controller"),
              s').
Proof. eexists. vm_compute. reflexivity. Qed.

(** C7, counterexample: [A] depends on [B], whose constructor throws, and
    then on the undeclared [U]; resolving [A] throws the error of [B], not
    the unknown-identity error. *)
Lemma earlier_failure_hides_unknown_dependency :
  reachable classesBeforeMissing declaredBeforeMissing /\
  "A" ∈ declared declaredBeforeMissing /\
  depends classesBeforeMissing "A" "U" /\
  ("U" ∉ declared declaredBeforeMissing) /\
  (exists s',
     registerController classesBeforeMissing 2 "A" declaredBeforeMissing
       = Some (Throw (UserError "boom"), s')) /\
  (exists s',
     Start classesBeforeMissing declaredBeforeMissing
       = Some (Throw (UserError "boom"), s')) /\
  UserError "boom" <> AppLifeError (msgDependency "U").
Proof.
  split.
  { do 2 apply reachable_declare. apply reachable_initial. }
  split; [compute_done|]. split; [right; left|]. split; [compute_done|].
  split; [eexists; vm_compute; reflexivity|].
  split; [eexists; vm_compute; reflexivity|discriminate].
Qed.

(** ** Declaring twice *)

Lemma second_declaration_is_rejected_witness :
  Controller string {| loadOrder := Some 5%Z |} "A" (initial string)
    = Some (Return tt, declaredOnce) /\
  rtc (async_step classesFlat) (declaredOnce, [])
    (snd calledOnceAndB, [] ++ [fst calledOnceAndB]) /\
  Controller string {| loadOrder := Some 7%Z |} "A" (snd calledOnceAndB)
    = Some (Throw (AppLifeError msgAlreadyRegistered), snd calledOnceAndB) /\
  (forall o, ("A", o) ∈ controllerRegistry (snd calledOnceAndB)
             <-> o = {| loadOrder := Some 5%Z |}) /\
  loadOrderMap (snd calledOnceAndB) !! "A" = Some 5%Z.
Proof.
  assert (Controller string {| loadOrder := Some 5%Z |} "A" (initial string)
          = Some (Return tt, declaredOnce)) as HC
    by (vm_compute; reflexivity).
  assert (rtc (async_step classesFlat) (declaredOnce, [])
            (snd calledOnceAndB, [] ++ [fst calledOnceAndB])) as Hsteps.
  { eapply rtc_l.
    - apply (async_Controller string classesFlat {| loadOrder := Some 1%Z |} "B"
               declaredOnce (Return tt) declaredOnceAndB).
      vm_compute; reflexivity.
    - apply rtc_once. eapply async_runs.
      apply (runs_Start string classesFlat 3 declaredOnceAndB []).
      vm_compute; reflexivity. }
  split; [exact HC|]. split; [exact Hsteps|].
  exact (second_declaration_is_rejected string classesFlat
           {| loadOrder := Some 5%Z |} {| loadOrder := Some 7%Z |} "A"
           (initial string) declaredOnce (snd calledOnceAndB) []
           ([] ++ [fst calledOnceAndB]) HC Hsteps).
Defined.

(** C8, counterexample: the second declaration is not silently ignored, it
    throws. *)
Lemma second_declaration_throws :
  Controller string {| loadOrder := Some 5%Z |} "A" (initial string)
    = Some (Return tt, declaredOnce) /\
  Controller string {| loadOrder := Some 7%Z |} "A" declaredOnce
    = Some (Throw (AppLifeError "Controller already registered"), declaredOnce) /\
  (Throw (AppLifeError "Controller already registered") : Completion unit)
    <> Return tt.
Proof. split; [vm_compute; reflexivity|]. split; [reflexivity|discriminate]. Qed.

(** ** Starting twice *)

Lemma second_Start_reruns_the_start_hooks_witness :
  Start classesTwice declaredTwice = Some (Return tt, startedOnce) /\
  Start classesTwice startedOnce = Some (Return tt, startedTwice) /\
  (Return tt : Completion unit) = Return tt /\
  controllerInstances startedTwice = controllerInstances startedOnce /\
  registeringControllers startedTwice = registeringControllers startedOnce /\
  exists t,
    history startedTwice = history startedOnce ++ t /\
    Forall (fun e => is_warning string e \/ is_start_call string e) t /\
    forall C, C ∈ declared startedOnce -> is_Some (onStart string (classesTwice C)) ->
      exists outcome, EvOnStart C outcome ∈ t.
Proof.
  assert (Start classesTwice declaredTwice = Some (Return tt, startedOnce))
    as HS1 by (vm_compute; reflexivity).
  assert (Start classesTwice startedOnce = Some (Return tt, startedTwice))
    as HS2 by (vm_compute; reflexivity).
  split; [exact HS1|]. split; [exact HS2|].
  exact (second_Start_reruns_the_start_hooks string classesTwice declaredTwice
           startedOnce startedTwice (Return tt) HS1 HS2).
Defined.

(** C9, counterexample: the second [Start] neither throws nor leaves things
    as they are; it calls the start hook of [A] a second time. *)
Lemma second_Start_calls_the_hook_again :
  Start classesTwice declaredTwice = Some (Return tt, startedOnce) /\
  history startedOnce
    = [EvNew "A" [] (inr "A"); EvSet "A"; EvOnStart "A" None] /\
  Start classesTwice startedOnce = Some (Return tt, startedTwice) /\
  history startedTwice = history startedOnce ++ [EvOnStart "A" None] /\
  startedTwice <> startedOnce.
Proof.
  repeat (split; [vm_compute; reflexivity|]).
  intros H. apply (f_equal (fun s => length (history s))) in H.
  vm_compute in H. discriminate.
Qed.

(** ** A failed registration *)

Lemma async_reachable_boomCalled :
  async_reachable classesBoom (snd boomCalled, [] ++ fst boomCalled :: []).
Proof.
  eapply rtc_r.
  - do 3 apply async_reachable_declare. apply rtc_refl.
  - eapply async_runs. apply (runs_Start string classesBoom 4 declaredBoom []).
    vm_compute; reflexivity.
Qed.

Lemma runs_boomFailed :
  runs classesBoom (snd boomCalled, [] ++ fst boomCalled :: [])
    failedF
    (snd boomFailed,
     [] ++ failedF :: []).
Proof.
  apply (runs_resume string classesBoom 4 (snd boomCalled) []
           (fst boomCalled) []).
  vm_compute; reflexivity.
Qed.

Lemma failed_registration_stays_in_flight_witness :
  async_reachable classesBoom (snd boomCalled, [] ++ fst boomCalled :: []) /\
  runs classesBoom (snd boomCalled, [] ++ fst boomCalled :: [])
    failedF
    (snd boomFailed,
     [] ++ failedF :: []) /\
  "F" ∈ registeringControllers (snd boomFailed) /\
  controllerInstances (snd boomFailed) !! "F" = None /\
  forall cfg'',
    rtc (async_step classesBoom)
      (snd boomFailed,
       [] ++ failedF :: [])
      cfg'' ->
    "F" ∈ registeringControllers (fst cfg'') /\
    controllerInstances (fst cfg'') !! "F" = None /\
    forall fuel,
      registerController classesBoom (S fuel) "F" (fst cfg'')
      = Some (Throw (AppLifeError msgCyclic), fst cfg'').
Proof.
  split; [exact async_reachable_boomCalled|]. split; [exact runs_boomFailed|].
  destruct (failed_registration_stays_in_flight string classesBoom _ _
              "F" (UserError "boom") [] ["Z"] ["A"; "F"; "Z"]
              async_reachable_boomCalled runs_boomFailed)
    as (Hreg & Hi & Hno & Hlater).
  split; [exact Hreg|]. split; [exact Hi|].
  intros cfg'' Hsteps.
  destruct (Hlater (Hno ltac:(discriminate)) cfg'' Hsteps)
    as (Hreg'' & Hi'' & _ & _ & Hagain).
  split; [exact Hreg''|]. split; [exact Hi''|exact Hagain].
Defined.

(** ** Two calls of [Start] that overlap *)

Lemma async_reachable_firstAB :
  async_reachable classesAB (snd firstAB, [] ++ [fst firstAB]).
Proof.
  eapply rtc_r.
  - do 2 apply async_reachable_declare. apply rtc_refl.
  - eapply async_runs. apply (runs_Start string classesAB 3 declaredAB []).
    vm_compute; reflexivity.
Qed.

Lemma runs_secondAB :
  runs classesAB (snd firstAB, [] ++ [fst firstAB])
    (AtAwait "B" (Throw (AppLifeError msgCyclic)) [] ["A"] ["B"; "A"])
    (snd secondAB, ([] ++ [fst firstAB]) ++ [fst secondAB]).
Proof.
  apply (runs_Start string classesAB 3 (snd firstAB) ([] ++ [fst firstAB])).
  vm_compute; reflexivity.
Qed.

Lemma async_step_thirdAB :
  async_step classesAB
    (snd secondAB, [] ++ fst firstAB :: [fst secondAB])
    (snd thirdAB, [] ++ fst thirdAB :: [fst secondAB]).
Proof.
  eapply async_runs.
  apply (runs_resume string classesAB 3 (snd secondAB) [] (fst firstAB)
           [fst secondAB]).
  vm_compute; reflexivity.
Qed.

Example overlapping_Start_tasks :
  fst firstAB
    = AtAwait "A" (Return "A")
        [{| frameClass := "B"; frameRest := []; frameDeps := [] |}]
        ["A"] ["B"; "A"] /\
  fst secondAB
    = AtAwait "B" (Throw (AppLifeError "Cyclic dependency detected")) []
        ["A"] ["B"; "A"] /\
  fst thirdAB = AtAwait "B" (Return "B") [] ["A"] ["B"; "A"] /\
  history (snd thirdAB)
    = [EvNew "A" [] (inr "A"); EvSet "A"; EvNew "B" ["A"] (inr "B"); EvSet "B"].
Proof. repeat split; vm_compute; reflexivity. Qed.

(** On a dependency cycle the cycle check fails while the call for the
    same class is suspended in the same task; that call then fails in
    turn. *)
Example cycle_in_one_task :
  fst (called classesCycle declaredCycle)
    = AtAwait "A" (Throw (AppLifeError "Cyclic dependency detected"))
        [{| frameClass := "B"; frameRest := []; frameDeps := [] |};
         {| frameClass := "A"; frameRest := []; frameDeps := [] |}]
        ["B"] ["A"; "B"] /\
  suspended (fst (called classesCycle declaredCycle)) = ["B"; "A"] /\
  going (fst (called classesCycle declaredCycle)) = [].
Proof. repeat split; vm_compute; reflexivity. Qed.

(** C10, counterexample: [Start] is called twice in a row.  The second call
    finds [B] in flight, because the [registerController] of the first call
    is suspended at line 105, and its [registerController] for [B] fails
    with the cyclic-dependency error.  Then the first call goes on, stores
    [B] and removes the marker: [B] does not remain in flight, and the next
    [registerController] for it returns the instance. *)
Lemma overlapping_Start_clears_the_marker :
  async_reachable classesAB (snd firstAB, [] ++ [fst firstAB]) /\
  runs classesAB (snd firstAB, [] ++ [fst firstAB])
    (AtAwait "B" (Throw (AppLifeError msgCyclic)) [] ["A"] ["B"; "A"])
    (snd secondAB, ([] ++ [fst firstAB]) ++ [fst secondAB]) /\
  "B" ∈ registeringControllers (snd secondAB) /\
  "B" ∈ going_in (([] ++ [fst firstAB]) ++ [fst secondAB]) /\
  rtc (async_step classesAB)
    (snd secondAB, ([] ++ [fst firstAB]) ++ [fst secondAB])
    (snd thirdAB, [] ++ fst thirdAB :: [fst secondAB]) /\
  ("B" ∉ registeringControllers (snd thirdAB)) /\
  controllerInstances (snd thirdAB) !! "B" = Some "B" /\
  registerController classesAB 1 "B" (snd thirdAB)
    = Some (Return "B", snd thirdAB).
Proof.
  split; [exact async_reachable_firstAB|]. split; [exact runs_secondAB|].
  split; [compute_done|]. split; [compute_done|].
  split; [apply rtc_once, async_step_thirdAB|].
  split; [compute_done|]. split; vm_compute; reflexivity.
Qed.

(** ** Modules *)

(** The module registry after [@Module([A, B]) class M]. *)
Definition modulesAB : gmap Ident (list Ident) :=
  snd (ModuleDecorator ["A"; "B"] "M" ∅).

Example LoadModules_runs :
  LoadModules string modulesAB ["M"] declaredAB = Some (Return tt, declaredAB) /\
  LoadModules string modulesAB ["M"] (initial string)
    = Some (Throw (AppLifeError "Controller A not registered via @Controller"),
            initial string) /\
  LoadModules string modulesAB ["M"; "N"] declaredAB
    = Some (Throw (AppLifeError "Module N not registered via @Module"),
            declaredAB).
Proof. repeat split; vm_compute; reflexivity. Qed.

Lemma second_module_registration_is_rejected_witness :
  ModuleDecorator ["A"; "B"] "M" ∅ = (Return tt, modulesAB) /\
  modulesAB !! "M" = Some ["A"; "B"] /\
  (forall other, other <> "M" ->
     modulesAB !! other = (∅ : gmap Ident (list Ident)) !! other) /\
  ModuleDecorator ["Z"] "M" modulesAB
    = (Throw (AppLifeError msgModuleAlreadyRegistered), modulesAB).
Proof.
  assert (ModuleDecorator ["A"; "B"] "M" ∅ = (Return tt, modulesAB)) as HM
    by reflexivity.
  split; [exact HM|].
  exact (second_module_registration_is_rejected ["A"; "B"] ["Z"] "M" ∅ modulesAB
           HM).
Defined.

Lemma LoadModules_names_the_first_offender_witness :
  LoadModules string modulesAB ["M"; "N"] declaredAB
    = Some (Throw (AppLifeError (msgModule "N")), declaredAB) /\
  exists pre m post,
    ["M"; "N"] = pre ++ m :: post /\
    (forall x, x ∈ pre -> module_ok string modulesAB declaredAB x) /\
    ((modulesAB !! m = None /\
      AppLifeError (msgModule "N") = AppLifeError (msgModule m)) \/
     (exists controllers cpre c cpost,
        modulesAB !! m = Some controllers /\
        controllers = cpre ++ c :: cpost /\
        (forall x, x ∈ cpre -> x ∈ declared declaredAB) /\
        (c ∉ declared declaredAB) /\
        AppLifeError (msgModule "N") = AppLifeError (msgController c))).
Proof.
  assert (LoadModules string modulesAB ["M"; "N"] declaredAB
          = Some (Throw (AppLifeError (msgModule "N")), declaredAB)) as HL
    by (vm_compute; reflexivity).
  split; [exact HL|].
  exact (LoadModules_names_the_first_offender string modulesAB ["M"; "N"]
           declaredAB declaredAB (AppLifeError (msgModule "N")) HL).
Defined.

Lemma LoadModules_stays_satisfied_witness :
  LoadModules string modulesAB ["M"] declaredAB = Some (Return tt, declaredAB) /\
  Controller string {| loadOrder := None |} "Z" declaredAB
    = Some (Return tt, declare None "Z" declaredAB) /\
  ModuleDecorator ["Z"] "N" modulesAB
    = (Return tt, snd (ModuleDecorator ["Z"] "N" modulesAB)) /\
  LoadModules string (snd (ModuleDecorator ["Z"] "N" modulesAB)) ["M"]
    (declare None "Z" declaredAB)
    = Some (Return tt, declare None "Z" declaredAB).
Proof.
  assert (LoadModules string modulesAB ["M"] declaredAB
          = Some (Return tt, declaredAB)) as HL by (vm_compute; reflexivity).
  assert (Controller string {| loadOrder := None |} "Z" declaredAB
          = Some (Return tt, declare None "Z" declaredAB)) as HC
    by (vm_compute; reflexivity).
  assert (ModuleDecorator ["Z"] "N" modulesAB
          = (Return tt, snd (ModuleDecorator ["Z"] "N" modulesAB))) as HM
    by (vm_compute; reflexivity).
  split; [exact HL|]. split; [exact HC|]. split; [exact HM|].
  exact (LoadModules_stays_satisfied string classesAB modulesAB _ ["M"] ["Z"]
           "N" "Z" {| loadOrder := None |} declaredAB _ (Return tt) (Return tt)
           HL HC HM).
Defined.

Lemma loaded_modules_are_served_witness :
  LoadModules string modulesAB ["M"] declaredAB = Some (Return tt, declaredAB) /\
  Start classesAB declaredAB = Some (Return tt, startedAB) /\
  "M" ∈ ["M"] /\
  modulesAB !! "M" = Some ["A"; "B"] /\
  "B" ∈ ["A"; "B"] /\
  exists i, Dependency string "B" startedAB = Some (Return i, startedAB).
Proof.
  assert (LoadModules string modulesAB ["M"] declaredAB
          = Some (Return tt, declaredAB)) as HL by (vm_compute; reflexivity).
  assert (Start classesAB declaredAB = Some (Return tt, startedAB)) as HS
    by (vm_compute; reflexivity).
  assert ("M" ∈ ["M"]) as Hm by left.
  assert (modulesAB !! "M" = Some ["A"; "B"]) as Hc by reflexivity.
  assert ("B" ∈ ["A"; "B"]) as HB by (right; left).
  split; [exact HL|]. split; [exact HS|]. split; [exact Hm|].
  split; [exact Hc|]. split; [exact HB|].
  exact (loaded_modules_are_served string classesAB modulesAB ["M"] declaredAB
           startedAB "M" "B" ["A"; "B"] HL HS Hm Hc HB).
Defined.

(** ** More of [Start] *)

Lemma Start_with_an_empty_registry_witness :
  controllerRegistry (initial string) = [] /\
  Start classesFlat (initial string) =
  Some (Return tt,
        record string
          (EvConsole LWarn
             [ArgText "[AppLife]: "; ArgText "No controllers registered"])
          (withStarted string true (initial string))).
Proof.
  split; [reflexivity|].
  exact (Start_with_an_empty_registry string classesFlat (initial string)
           eq_refl).
Defined.





Lemma at_most_one_instance_per_controller_witness :
  reachable classesAB startedAB /\
  NoDup (constructions (history startedAB)) /\
  NoDup (stores string (history startedAB)).
Proof.
  assert (reachable classesAB startedAB) as Hreach.
  { apply reachable_exec_Start. do 2 apply reachable_declare.
    apply reachable_initial. }
  split; [exact Hreach|].
  exact (at_most_one_instance_per_controller string classesAB startedAB Hreach).
Defined.

Lemma stored_instances_are_never_replaced_witness :
  rtc (step classesTwice) startedOnce startedTwice /\
  controllerInstances startedOnce !! "A" = Some "A" /\
  controllerInstances startedTwice !! "A" = Some "A".
Proof.
  assert (rtc (step classesTwice) startedOnce startedTwice) as Hsteps.
  { apply rtc_once. apply (step_Start string classesTwice startedOnce (Return tt)).
    vm_compute; reflexivity. }
  assert (controllerInstances startedOnce !! "A" = Some "A") as Hi
    by (vm_compute; reflexivity).
  split; [exact Hsteps|]. split; [exact Hi|].
  exact (stored_instances_are_never_replaced string classesTwice startedOnce
           startedTwice "A" "A" Hsteps Hi).
Defined.

Lemma Dependency_after_any_Start_witness :
  Start classesBoom declaredBoom = Some (Throw (UserError "boom"), startedBoom) /\
  rtc (step classesBoom) startedBoom (declare None "Q" startedBoom) /\
  started (declare None "Q" startedBoom) = true /\
  Dependency string "A" (declare None "Q" startedBoom) =
    Some (match controllerInstances (declare None "Q" startedBoom) !! "A" with
          | Some instance => Return instance
          | None => Throw (AppLifeError msgNotLoaded)
          end, declare None "Q" startedBoom).
Proof.
  assert (Start classesBoom declaredBoom
          = Some (Throw (UserError "boom"), startedBoom)) as HS
    by (vm_compute; reflexivity).
  assert (rtc (step classesBoom) startedBoom (declare None "Q" startedBoom))
    as Hsteps.
  { apply rtc_once.
    apply (step_Controller string classesBoom {| loadOrder := None |} "Q" startedBoom
             (Return tt)).
    vm_compute; reflexivity. }
  split; [exact HS|]. split; [exact Hsteps|].
  exact (Dependency_after_any_Start string classesBoom declaredBoom startedBoom
           (declare None "Q" startedBoom) (Throw (UserError "boom")) "A"
           HS Hsteps).
Defined.

Lemma start_hooks_run_once_in_load_order_witness :
  reachable classesStart declaredStart /\
  Start classesStart declaredStart = Some (Return tt, startedStart) /\
  exists t,
    history startedStart = history declaredStart ++ t /\
    starts string t
      = filter (fun C => hooked string classesStart C = true)
          (sortedControllers string declaredStart) /\
    NoDup (starts string t).
Proof.
  assert (reachable classesStart declaredStart) as Hreach.
  { do 2 apply reachable_declare. apply reachable_initial. }
  assert (Start classesStart declaredStart = Some (Return tt, startedStart))
    as HS by (vm_compute; reflexivity).
  split; [exact Hreach|]. split; [exact HS|].
  exact (start_hooks_run_once_in_load_order string classesStart declaredStart
           startedStart Hreach HS).
Defined.

Example start_hooks_of_classesStart :
  filter (fun C => hooked string classesStart C = true)
    (sortedControllers string declaredStart) = ["A"; "B"].
Proof. vm_compute. reflexivity. Qed.

Lemma registerController_is_idempotent_witness :
  registerController classesAB 2 "B" declaredAB
    = Some (Return "B", exec (registerController classesAB 2 "B") declaredAB) /\
  registerController classesAB 1 "B"
    (exec (registerController classesAB 2 "B") declaredAB)
    = Some (Return "B", exec (registerController classesAB 2 "B") declaredAB).
Proof.
  assert (registerController classesAB 2 "B" declaredAB
          = Some (Return "B",
                  exec (registerController classesAB 2 "B") declaredAB))
    as HR by (vm_compute; reflexivity).
  split; [exact HR|].
  exact (registerController_is_idempotent string classesAB 2 0 "B" declaredAB
           _ "B" HR).
Defined.

Lemma registry_is_consistent_witness :
  reachable classesFlat declaredFlat /\
  NoDup (map fst (controllerRegistry declaredFlat)) /\
  forall a, a ∈ controllerRegistry declaredFlat ->
    loadOrderMap declaredFlat !! fst a = Some (hint a) /\
    loadOrderOf string declaredFlat (fst a) = hint a.
Proof.
  assert (reachable classesFlat declaredFlat) as Hreach.
  { do 4 apply reachable_declare. apply reachable_initial. }
  split; [exact Hreach|].
  exact (registry_is_consistent string classesFlat declaredFlat Hreach).
Defined.

Lemma Dependency_serves_declared_controllers_only_witness :
  reachable classesAB startedAB /\
  Dependency string "B" startedAB = Some (Return "B", startedAB) /\
  "B" ∈ declared startedAB /\
  forall B, depends classesAB "B" B ->
    exists j, Dependency string B startedAB = Some (Return j, startedAB).
Proof.
  assert (reachable classesAB startedAB) as Hreach.
  { apply reachable_exec_Start. do 2 apply reachable_declare.
    apply reachable_initial. }
  assert (Dependency string "B" startedAB = Some (Return "B", startedAB)) as HD
    by (vm_compute; reflexivity).
  split; [exact Hreach|]. split; [exact HD|].
  exact (Dependency_serves_declared_controllers_only string classesAB startedAB
           startedAB "B" "B" Hreach HD).
Defined.

Lemma nothing_happens_before_Start_witness :
  reachable classesFlat declaredFlat /\
  started declaredFlat = false /\
  controllerInstances declaredFlat = ∅ /\
  registeringControllers declaredFlat = ∅ /\
  history declaredFlat = [].
Proof.
  assert (reachable classesFlat declaredFlat) as Hreach.
  { do 4 apply reachable_declare. apply reachable_initial. }
  assert (started declaredFlat = false) as Hst by reflexivity.
  split; [exact Hreach|]. split; [exact Hst|].
  exact (nothing_happens_before_Start string classesFlat declaredFlat Hreach Hst).
Defined.

Lemma failed_Start_cannot_be_retried_witness :
  async_reachable classesBoom (snd boomCalled, [] ++ fst boomCalled :: []) /\
  runs classesBoom (snd boomCalled, [] ++ fst boomCalled :: [])
    failedF
    (snd boomFailed,
     [] ++ failedF :: []) /\
  ("F" ∉ going_in ([] ++ failedF :: [])) /\
  rtc (async_step classesBoom)
    (snd boomFailed,
     [] ++ failedF :: [])
    (snd boomOver, [] ++ fst boomOver :: []) /\
  callStart classesBoom 4 (snd boomOver)
    = Some (fst boomAgain, snd boomAgain) /\
  rtc (async_step classesBoom)
    (snd boomAgain, ([] ++ fst boomOver :: []) ++ [fst boomAgain])
    (snd boomStopped, [fst boomOver] ++ fst boomStopped :: []) /\
  (exists t3,
     ([fst boomOver] ++ fst boomStopped :: []) !! 1 = Some t3 /\
     held_up "F" t3 /\
     t3 <> Over (Return tt) /\
     forall startPromises, t3 <> AtAll startPromises) /\
  exists error' s',
    Start classesBoom (snd boomOver) = Some (Throw error', s').
Proof.
  assert ("F" ∉ going_in
                  ([] ++ failedF :: [])) as Hno
    by (by intros ?%elem_of_nil).
  assert (rtc (async_step classesBoom)
            (snd boomFailed,
             [] ++ failedF :: [])
            (snd boomOver, [] ++ fst boomOver :: [])) as Hsteps.
  { apply rtc_once. eapply async_runs.
    apply (runs_resume string classesBoom 4 (snd boomFailed) []
             failedF []).
    vm_compute; reflexivity. }
  assert (callStart classesBoom 4 (snd boomOver)
          = Some (fst boomAgain, snd boomAgain)) as HS
    by (vm_compute; reflexivity).
  assert (rtc (async_step classesBoom)
            (snd boomAgain, ([] ++ fst boomOver :: []) ++ [fst boomAgain])
            (snd boomStopped, [fst boomOver] ++ fst boomStopped :: [])) as Hlater.
  { apply rtc_once. eapply async_runs.
    apply (runs_resume string classesBoom 4 (snd boomAgain) [fst boomOver]
             (fst boomAgain) []).
    vm_compute; reflexivity. }
  split; [exact async_reachable_boomCalled|]. split; [exact runs_boomFailed|].
  split; [exact Hno|]. split; [exact Hsteps|]. split; [exact HS|].
  split; [exact Hlater|].
  exact (failed_Start_cannot_be_retried string classesBoom _ _
           (snd boomOver, [] ++ fst boomOver :: [])
           (snd boomStopped, [fst boomOver] ++ fst boomStopped :: [])
           "F" (UserError "boom") [] ["Z"] ["A"; "F"; "Z"] 4
           (fst boomAgain) (snd boomAgain)
           async_reachable_boomCalled runs_boomFailed Hno Hsteps
           HS Hlater).
Defined.

Example retried_Start_reports_a_cycle :
  Start classesBoom startedBoom
    = Some (Throw (AppLifeError "Cyclic dependency detected"), startedBoom) /\
  fst boomStopped
    = AtAwait "F" (Throw (AppLifeError "Cyclic dependency detected")) []
        ["Z"] ["A"; "F"; "Z"].
Proof. split; vm_compute; reflexivity. Qed.

Lemma only_user_failures_are_logged_witness :
  Start classesBoom declaredBoom = Some (Throw (UserError "boom"), startedBoom) /\
  history startedBoom = history declaredBoom ++ historyBoom /\
  ((exists e, e ∈ historyBoom /\ is_error_line string e) <->
   (exists e, e ∈ historyBoom /\ user_failure string e)).
Proof.
  assert (Start classesBoom declaredBoom
          = Some (Throw (UserError "boom"), startedBoom)) as HS
    by (vm_compute; reflexivity).
  assert (history startedBoom = history declaredBoom ++ historyBoom) as Hh
    by (vm_compute; reflexivity).
  split; [exact HS|]. split; [exact Hh|].
  exact (only_user_failures_are_logged string classesBoom declaredBoom
           (Throw (UserError "boom")) startedBoom historyBoom HS Hh).
Defined.

Example cycle_is_not_logged :
  exists s',
    Start classesCycle declaredCycle
      = Some (Throw (AppLifeError "Cyclic dependency detected"), s') /\
    history s' = [].
Proof. eexists. split; vm_compute; reflexivity. Qed.


(** ** A call that nothing interrupts, and calls that overlap *)

Lemma uninterrupted_Start_is_Start_witness :
  Start classesAB declaredAB = Some (Return tt, startedAB) /\
  exists fuel t1 s1,
    callStart classesAB fuel declaredAB = Some (t1, s1) /\
    rtc (alone classesAB) (t1, s1) (Over (Return tt), startedAB) /\
    rtc (async_step classesAB) (declaredAB, [])
      (startedAB, [] ++ [Over (Return tt)]).
Proof.
  assert (Start classesAB declaredAB = Some (Return tt, startedAB)) as HS
    by (vm_compute; reflexivity).
  split; [exact HS|].
  exact (uninterrupted_Start_is_Start string classesAB declaredAB startedAB
           (Return tt) [] HS).
Defined.

Lemma one_suspended_call_per_class_witness :
  async_reachable classesAB (snd firstAB, [] ++ [fst firstAB]) /\
  suspended_in ([] ++ [fst firstAB]) = ["B"] /\
  NoDup (suspended_in ([] ++ [fst firstAB])) /\
  (forall C, C ∈ suspended_in ([] ++ [fst firstAB]) ->
     C ∈ registeringControllers (snd firstAB) /\
     controllerInstances (snd firstAB) !! C = None) /\
  registeringControllers (snd firstAB) ⊆ declared (snd firstAB).
Proof.
  split; [exact async_reachable_firstAB|]. split; [reflexivity|].
  exact (one_suspended_call_per_class string classesAB
           (snd firstAB, [] ++ [fst firstAB]) async_reachable_firstAB).
Defined.

Lemma overlapping_calls_keep_stored_instances_witness :
  async_reachable classesAB (snd firstAB, [] ++ [fst firstAB]) /\
  rtc (async_step classesAB) (snd firstAB, [] ++ [fst firstAB])
    (snd thirdAB, [] ++ fst thirdAB :: [fst secondAB]) /\
  controllerInstances (snd firstAB) !! "A" = Some "A" /\
  controllerInstances (snd thirdAB) !! "A" = Some "A".
Proof.
  assert (rtc (async_step classesAB) (snd firstAB, [] ++ [fst firstAB])
            (snd thirdAB, [] ++ fst thirdAB :: [fst secondAB])) as Hsteps.
  { eapply rtc_l; [eapply async_runs, runs_secondAB|].
    apply rtc_once, async_step_thirdAB. }
  assert (controllerInstances (snd firstAB) !! "A" = Some "A") as Hi
    by (vm_compute; reflexivity).
  split; [exact async_reachable_firstAB|]. split; [exact Hsteps|].
  split; [exact Hi|].
  exact (overlapping_calls_keep_stored_instances string classesAB
           (snd firstAB, [] ++ [fst firstAB])
           (snd thirdAB, [] ++ fst thirdAB :: [fst secondAB]) "A" "A"
           async_reachable_firstAB Hsteps Hi).
Defined.

Lemma Dependency_once_Start_is_called_witness :
  async_reachable classesAB (declaredAB, []) /\
  callStart classesAB 3 declaredAB = Some (fst firstAB, snd firstAB) /\
  rtc (async_step classesAB) (snd firstAB, [] ++ [fst firstAB])
    (snd secondAB, ([] ++ [fst firstAB]) ++ [fst secondAB]) /\
  started (snd secondAB) = true /\
  Dependency string "B" (snd secondAB) =
    Some (match controllerInstances (snd secondAB) !! "B" with
          | Some instance => Return instance
          | None => Throw (AppLifeError msgNotLoaded)
          end, snd secondAB).
Proof.
  assert (async_reachable classesAB (declaredAB, [])) as Hreach.
  { do 2 apply async_reachable_declare. apply rtc_refl. }
  assert (callStart classesAB 3 declaredAB = Some (fst firstAB, snd firstAB))
    as HS by (vm_compute; reflexivity).
  assert (rtc (async_step classesAB) (snd firstAB, [] ++ [fst firstAB])
            (snd secondAB, ([] ++ [fst firstAB]) ++ [fst secondAB])) as Hsteps.
  { apply rtc_once. eapply async_runs, runs_secondAB. }
  split; [exact Hreach|]. split; [exact HS|]. split; [exact Hsteps|].
  exact (Dependency_once_Start_is_called string classesAB declaredAB
           (snd firstAB) [] 3 (fst firstAB)
           (snd secondAB, ([] ++ [fst firstAB]) ++ [fst secondAB]) "B"
           Hreach HS Hsteps).
Defined.

Example Dependency_while_Start_is_suspended :
  Dependency string "A" (snd firstAB) = Some (Return "A", snd firstAB) /\
  Dependency string "B" (snd firstAB)
    = Some (Throw (AppLifeError "Controller not registered or not loaded yet"),
            snd firstAB).
Proof. split; vm_compute; reflexivity. Qed.
